(** * Function Shell for Convex: the library API (lib.ts)

    A shallow embedding of the library module of the shell: the two
    identifier transforms, the namespace tree built by [createProxyTree],
    the memoised proxy wrappers, the leaf call and [update].

    Conventions of the embedding.
    - A JavaScript string is a [string]; every operation used by the source
      ([replace] with a string pattern, [replace] with a global one-character
      regular expression, [split], [trim], the URL pattern) works code unit
      by code unit, and a code unit is an [ascii].
    - A plain JavaScript object is its list of own properties in insertion
      order; a leaf is a function object and carries own properties too,
      because the insertion loop can write below an existing leaf.
    - A property read that resolves through the prototype chain, or to a
      built-in property of a function object, yields an object that is not
      part of the tree; the embedding stops there with [Unmodelled].
    - The external collaborators ([execSync], [JSON.parse],
      [JSON.stringify]) are variables of the sections that use them. *)

From stdpp Require Import base strings list gmap option pretty sorting.
From Stdlib Require Import Ascii Permutation.

Open Scope string_scope.
Open Scope list_scope.

(** ** Strings as the source uses them *)

Module Str.

(** [occurs c s]: the code unit [c] occurs in [s]. *)
Fixpoint occurs (c : ascii) (s : string) : bool :=
match s with
| EmptyString => false
| String d s' => if Ascii.eqb d c then true else occurs c s'
end.

(** [drop n s]: [s.slice(n)]. *)
Fixpoint drop (n : nat) (s : string) : string :=
match n, s with
| O, _ => s
| S _, EmptyString => EmptyString
| S n', String _ s' => drop n' s'
end.

(** [s.replace(pat, rep)] for a string pattern: only the first occurrence
  (the leftmost one) is replaced.  The replacement strings of the source
  are ["."] and [":"], which hold no [$] pattern, so [rep] is inserted as
  it is. *)
Fixpoint replace_first (pat rep s : string) : string :=
if String.prefix pat s then rep +:+ drop (String.length pat) s
else match s with
     | EmptyString => EmptyString
     | String c s' => String c (replace_first pat rep s')
     end.

(** [s.replace(/c/g, d)] for a one-character pattern: every occurrence. *)
Fixpoint replace_all (c d : ascii) (s : string) : string :=
match s with
| EmptyString => EmptyString
| String x s' => String (if Ascii.eqb x c then d else x) (replace_all c d s')
end.

(** [s.split(sep)] for a one-character separator; the result is never
  empty (the empty string splits into the list that holds the empty
  string). *)
Fixpoint split (sep : ascii) (s : string) : list string :=
match s with
| EmptyString => [EmptyString]
| String c s' =>
    if Ascii.eqb c sep then EmptyString :: split sep s'
    else match split sep s' with
         | h :: t => String c h :: t
         | [] => [String c EmptyString]
         end
end.

(** [parts.join(sep)]. *)
Fixpoint join (sep : string) (parts : list string) : string :=
match parts with
| [] => EmptyString
| [p] => p
| p :: ps => p +:+ sep +:+ join sep ps
end.

(** White space and line terminators removed by [trim], among the code
  units below 256. *)
Definition is_space (c : ascii) : bool :=
let n := Ascii.nat_of_ascii c in
(Nat.leb 9 n && Nat.leb n 13) || Nat.eqb n 32 || Nat.eqb n 160.

Fixpoint trim_start (s : string) : string :=
match s with
| EmptyString => EmptyString
| String c s' => if is_space c then trim_start s' else s
end.

Fixpoint trim_end (s : string) : string :=
match s with
| EmptyString => EmptyString
| String c s' =>
    match trim_end s' with
    | EmptyString => if is_space c then EmptyString else String c EmptyString
    | t => String c t
    end
end.

(** [s.trim()]. *)
Definition trim (s : string) : string := trim_end (trim_start s).

(** [s] ends with [suf]. *)
Definition ends_with (suf s : string) : Prop := ∃ pre, s = pre +:+ suf.

(** [s.endsWith(suf)], computed. *)
Fixpoint ends_withb (suf s : string) : bool :=
String.eqb suf s ||
match s with
| EmptyString => false
| String _ s' => ends_withb suf s'
end.

(** A marker: a dot, two code units, a colon ([".js:"], [".ts:"]). *)
Definition marker (x y : ascii) : string :=
String "." (String x (String y (String ":" EmptyString))).

End Str.

(** ** The two identifier transforms *)

(** Convert function identifier to API path. *)
Definition identifierToApiPath (identifier : string) : string :=
  Str.replace_all "/" "."
    (Str.replace_first ".ts:" "."
       (Str.replace_first ".js:" "." identifier)).

(** Convert identifier to convex run format. *)
Definition identifierToRunPath (identifier : string) : string :=
  Str.replace_first ".ts:" ":" (Str.replace_first ".js:" ":" identifier).

(** ** Identifiers of the form [module.ext:function] *)

(** The two file-extension markers the transforms know. *)
Inductive Extension := Js | Ts.

Definition extension_marker (e : Extension) : string :=
  match e with
  | Js => ".js:"
  | Ts => ".ts:"
  end.

(** The identifier of the function [fnName] of the module [modulePath]. *)
Definition make_identifier (e : Extension) (modulePath fnName : string)
  : string :=
  modulePath +:+ extension_marker e +:+ fnName.


(** The marker before the colon is the only one: the module path does not
    itself end in [.ts] (as the path of a file [foo.ts.js] would). *)
Definition single_marker (modulePath : string) : Prop :=
  Str.ends_withb ".ts" modulePath = false.

(** Identifiers with one colon, the one of the marker.  For a [.js]
    identifier the marker is moreover the only one. *)
Definition well_formed (e : Extension) (modulePath fnName : string) : Prop :=
  Str.occurs ":" modulePath = false ∧ Str.occurs ":" fnName = false ∧
  (e = Js → single_marker modulePath).

(** The candidate inverse of [identifierToRunPath] once the extension is
    known: put the marker back in place of the colon. *)
Definition runPathToIdentifier (e : Extension) (runPath : string) : string :=
  Str.replace_first ":" (extension_marker e) runPath.

(** ** Descriptors *)

Inductive FunctionType := Query | Mutation | Action.

(** The value found under [visibility.kind] in the fetched JSON.  The
    source compares it with a string ([===]) and tests its truthiness; of a
    value that is not a string only the truthiness is observed. *)
Inductive jsval :=
| JSString (s : string)
| JSOther (is_truthy : bool).

Record Visibility := { kind : jsval }.

(** The two values a property cannot be read from. *)
Inductive Nullish := JSUndefined | JSNull.

Definition nullish_name (n : Nullish) : string :=
  match n with
  | JSUndefined => "undefined"
  | JSNull => "null"
  end.

(** A function descriptor.  [visibility] is [None] when the field is
    missing ([undefined]) or [null], the two values on which reading [kind]
    throws; [nullish] tells which of the two it is then.  For any other
    value of the field, an object or not, [visibility] is [Some v] and
    [kind v] is what reading [kind] on the value gives: [undefined], which
    is [JSOther false], for [0], [false], the empty string or an object
    without a kind.  The argument and return schemas are read by the
    signature printer only and are left out. *)
Record FunctionSpec := {
  identifier : string;
  functionType : FunctionType;
  visibility : option Visibility;
  nullish : Nullish
}.

Record ConvexFunctionSpec := {
  url : string;
  functions : list FunctionSpec
}.

Definition truthy (v : jsval) : bool :=
  match v with
  | JSString s => negb (String.eqb s EmptyString)
  | JSOther b => b
  end.

(** [v === s] for a string [s]. *)
Definition strict_eq (v : jsval) (s : string) : bool :=
  match v with
  | JSString t => String.eqb t s
  | JSOther _ => false
  end.

(** A thrown error: its message and, for a failed subprocess, the captured
    error stream. *)
Record Error := {
  message : string;
  stderr : option string
}.

Definition TypeError (msg : string) : Error :=
  {| message := msg; stderr := None |}.

(** What a call of the modelled code does: it returns, it throws, or it
    steps outside the objects this embedding represents (see [get_prop]). *)
Inductive result (A : Type) :=
| Returns (a : A)
| Throws (e : Error)
| Unmodelled.
Arguments Returns {A} a.
Arguments Throws {A} e.
Arguments Unmodelled {A}.

#[global] Instance result_ret : MRet result := λ A a, Returns a.
#[global] Instance result_bind : MBind result := λ A B f m,
  match m with
  | Returns a => f a
  | Throws e => Throws e
  | Unmodelled => Unmodelled
  end.

(** ** The namespace tree *)

(** The callable built by [createFunctionProxy]: the descriptor, the
    derived invocation path and the deployment flag of its closure. *)
Record Leaf := {
  spec : FunctionSpec;
  runPath : string;
  leafFlag : string
}.

(** Objects of the tree.  A [VFunction] is a leaf; it is an object as well
    and holds the properties the insertion loop wrote on it.  Properties are
    kept in insertion order (JavaScript enumerates array-index keys first;
    no statement below depends on the order of enumeration). *)
#[local] Unset Elimination Schemes.
Inductive value :=
| VObject (props : list (string * value))
| VFunction (leaf : Leaf) (props : list (string * value)).
#[local] Set Elimination Schemes.

(** The closure of [createFunctionProxy(spec, deploymentFlag)]. *)
Definition leaf_for (spec : FunctionSpec) (deploymentFlag : string) : Leaf :=
  {| spec := spec;
     runPath := identifierToRunPath (identifier spec);
     leafFlag := deploymentFlag |}.

(** Create a callable function proxy: a new function object, with no
    property of the tree below it yet. *)
Definition createFunctionProxy (spec : FunctionSpec) (deploymentFlag : string)
  : value :=
  VFunction (leaf_for spec deploymentFlag) [].

Definition props_of (v : value) : list (string * value) :=
  match v with
  | VObject ps => ps
  | VFunction _ ps => ps
  end.

(** Own property lookup. *)
Fixpoint own_get (k : string) (ps : list (string * value)) : option value :=
  match ps with
  | [] => None
  | (k', v) :: ps' => if String.eqb k' k then Some v else own_get k ps'
  end.

(** Own property write: an existing key keeps its place, a new key is
    appended. *)
Fixpoint own_set (k : string) (v : value) (ps : list (string * value))
  : list (string * value) :=
  match ps with
  | [] => [(k, v)]
  | (k', v') :: ps' =>
      if String.eqb k' k then (k, v) :: ps' else (k', v') :: own_set k v ps'
  end.

(** String keys every plain object inherits from [Object.prototype]; all of
    them hold truthy values. *)
Definition object_prototype_keys : list string :=
  [ "__proto__"; "constructor"; "hasOwnProperty"; "isPrototypeOf";
    "propertyIsEnumerable"; "toLocaleString"; "toString"; "valueOf";
    "__defineGetter__"; "__defineSetter__"; "__lookupGetter__";
    "__lookupSetter__" ].

(** String keys a leaf function has besides the ones the loop wrote: its
    own built-in and metadata properties and the ones inherited from
    [Function.prototype]. *)
Definition function_keys : list string :=
  [ "length"; "name"; "prototype"; "arguments"; "caller"; "apply"; "bind";
    "call"; "spec"; "runPath" ] ++ object_prototype_keys.

Definition mem (k : string) (ks : list string) : bool :=
  existsb (String.eqb k) ks.

(** The result of reading [current[part]]. *)
Inductive read :=
| Found (v : value)
| Undefined
| Foreign.

(** [current[part]].  A key that resolves to a built-in object (through the
    prototype chain, or a built-in property of a function object) is
    [Foreign]: the value is not part of the tree.  The source goes on from
    that value (an inherited method such as [toString] is truthy, and the
    loop then writes below that shared function), which the embedding does
    not follow. *)
Definition get_prop (current : value) (part : string) : read :=
  match current with
  | VObject ps =>
      match own_get part ps with
      | Some v => Found v
      | None => if mem part object_prototype_keys then Foreign else Undefined
      end
  | VFunction _ ps =>
      if mem part function_keys then Foreign
      else match own_get part ps with
           | Some v => Found v
           | None => Undefined
           end
  end.

(** The write back of a child that was read with [get_prop]. *)
Definition with_prop (current : value) (part : string) (v : value) : value :=
  match current with
  | VObject ps => VObject (own_set part v ps)
  | VFunction l ps => VFunction l (own_set part v ps)
  end.

(** [current[functionName] = leaf].  On a plain object only [__proto__] is
    not an ordinary write (it is the prototype setter); on a function object
    the built-in keys are left to [Unmodelled]: there the source throws a
    [TypeError] for a read-only property ([name], [length]) and overwrites
    or shadows the others.  The results about trees are stated for ordinary
    keys, which are none of these. *)
Definition set_prop (current : value) (functionName : string) (v : value)
  : result value :=
  match current with
  | VObject _ =>
      if String.eqb functionName "__proto__" then Unmodelled
      else Returns (with_prop current functionName v)
  | VFunction _ _ =>
      if mem functionName function_keys then Unmodelled
      else Returns (with_prop current functionName v)
  end.

(** The body of the loop over [filteredFunctions]: walk [parts] from
    [current], creating the missing objects, and bind the last part to the
    leaf.  The source mutates the objects in place; here the changed child is
    written back under its key, which leaves the key where it was.  A step
    through a [Foreign] value, where the source walks out of the tree, is
    [Unmodelled]. *)
Fixpoint insertLeaf (parts : list string) (leaf : value) (current : value)
  : result value :=
  match parts with
  | [] =>
      (* [split] never returns an empty array; for one, [parts[-1]] is
         [undefined] and the key is its string form *)
      set_prop current "undefined" leaf
  | part :: rest =>
      match rest with
      | [] => set_prop current part leaf
      | _ :: _ =>
          match get_prop current part with
          | Foreign => Unmodelled
          | Found child =>
              child' ← insertLeaf rest leaf child;
              mret (with_prop current part child')
          | Undefined =>
              child' ← insertLeaf rest leaf (VObject []);
              mret (with_prop current part child')
          end
      end
  end.

(** [apiPath.split('.')] of a descriptor. *)
Definition parts_of (func : FunctionSpec) : list string :=
  Str.split "." (identifierToApiPath (identifier func)).

(** The error of reading the property [prop] of [undefined] or [null]. *)
Definition cannot_read (n : Nullish) (prop : string) : Error :=
  TypeError ("Cannot read properties of " +:+ nullish_name n
             +:+ " (reading '" +:+ prop +:+ "')").

(** [f.visibility.kind === visibility]; reading [kind] of a [visibility]
    that is [undefined] or [null] throws. *)
Definition kind_is (visibility' : string) (f : FunctionSpec) : result bool :=
  match visibility f with
  | Some v => Returns (strict_eq (kind v) visibility')
  | None => Throws (cannot_read (nullish f) "kind")
  end.

(** [functions.filter(f => f.visibility.kind === visibility)]. *)
Fixpoint filter_kind (visibility' : string) (functions : list FunctionSpec)
  : result (list FunctionSpec) :=
  match functions with
  | [] => Returns []
  | f :: fs =>
      b ← kind_is visibility' f;
      rest ← filter_kind visibility' fs;
      mret (if b : bool then f :: rest else rest)
  end.

(** The loop of [createProxyTree] over the filtered descriptors. *)
Fixpoint insertAll (deploymentFlag : string) (fs : list FunctionSpec)
  (tree : value) : result value :=
  match fs with
  | [] => Returns tree
  | func :: fs' =>
      tree' ← insertLeaf (parts_of func)
                 (createFunctionProxy func deploymentFlag) tree;
      insertAll deploymentFlag fs' tree'
  end.

(** ** The proxies over the tree *)

(** The object found by following own properties from the root.  The tree
    is a tree of fresh objects (each [{}] and each leaf function is stored
    under one key only), so this path names the object: it stands for its
    reference. *)
Fixpoint node_at (tree : value) (a : list string) : option value :=
  match a with
  | [] => Some tree
  | k :: a' => v ← own_get k (props_of tree); node_at v a'
  end.

(** What sits at a path: nothing ([None]), a namespace object
    ([Some None]) or a leaf ([Some (Some l)]). *)
Definition kind_at (tree : value) (a : list string) : option (option Leaf) :=
  match node_at tree a with
  | None => None
  | Some (VObject _) => Some None
  | Some (VFunction l _) => Some (Some l)
  end.

(** How the insertion of a leaf at path [p] changes what sits at a path
    [q]: the leaf itself at [p], nothing below it, a namespace (or what was
    there) on the way to it, no change elsewhere. *)
Definition after_insert (p : list string) (l : Leaf) (q : list string)
  (before : option (option Leaf)) : option (option Leaf) :=
  if decide (q = p) then Some (Some l)
  else if decide (p `prefix_of` q) then None
  else if decide (q `prefix_of` p) then Some (default None before)
  else before.

(** The test of the visibility filter, for a descriptor that has a
    [visibility]. *)
Definition has_kind (visibility' : string) (f : FunctionSpec) : bool :=
  match visibility f with
  | Some v => strict_eq (kind v) visibility'
  | None => false
  end.

(** What sits at [q] after the insertion of the descriptors [fs], one after
    the other. *)
Definition after_all (deploymentFlag : string) (q : list string)
  (before : option (option Leaf)) (fs : list FunctionSpec)
  : option (option Leaf) :=
  foldl (λ k f, after_insert (parts_of f) (leaf_for f deploymentFlag) q k)
    before fs.



(** Keys that are neither built into the objects of the tree nor hidden by
    the proxies. *)
Definition reserved_keys : list string := [ "inspect" ] ++ function_keys.

Definition ordinary (k : string) : Prop := mem k reserved_keys = false.

(** All path segments of the descriptors are ordinary keys. *)
Definition ordinary_paths (fs : list FunctionSpec) : Prop :=
  Forall (λ f, Forall ordinary (parts_of f)) fs.

(** What a property read hands to the caller: a proxy (its identity is
    [id]; [target] is the wrapped object), a raw object or leaf function of
    the tree, or [undefined]. *)
Inductive ref :=
| RProxy (id : nat) (target : list string)
| RObject (a : list string)
| RFunction (a : list string)
| RUndefined.

(** One call of [createProxyTree]: the tree it built and the state of its
    [proxyCache], a map from wrapped object to proxy; [allocated] counts the
    proxies made so far and numbers the next one. *)
Record TreeInstance := {
  tree : value;
  proxyCache : gmap (list string) nat;
  allocated : nat
}.

(** [createProxy(obj, path)]: the cached proxy if there is one, else a new
    proxy, which is cached. *)
Definition createProxy (inst : TreeInstance) (obj : list string)
  : ref * TreeInstance :=
  match proxyCache inst !! obj with
  | Some cached => (RProxy cached obj, inst)
  | None =>
      let proxy := allocated inst in
      (RProxy proxy obj,
       {| tree := tree inst;
          proxyCache := <[obj := proxy]> (proxyCache inst);
          allocated := S proxy |})
  end.

(** Keys the [get] trap answers with [undefined] before it reads the
    target. *)
Definition hidden_keys : list string := [ "inspect"; "constructor" ].

(** The [get] trap of a proxy whose target is the object at [target], for a
    string key. *)
Definition proxy_get (inst : TreeInstance) (target : list string)
  (prop : string) : result (ref * TreeInstance) :=
  if mem prop hidden_keys then Returns (RUndefined, inst)
  else match node_at (tree inst) target with
       | None => Unmodelled
       | Some obj =>
           match get_prop obj prop with
           | Undefined => Returns (RUndefined, inst)
           | Foreign => Unmodelled
           | Found (VFunction _ _) => Returns (RFunction (target ++ [prop]), inst)
           | Found (VObject _) => Returns (createProxy inst (target ++ [prop]))
           end
       end.

(** A property read on a raw object or function of the tree (a leaf is
    returned unwrapped, so what lies below it is read without a proxy). *)
Definition raw_get (inst : TreeInstance) (a : list string) (prop : string)
  : result ref :=
  match node_at (tree inst) a with
  | None => Unmodelled
  | Some obj =>
      match get_prop obj prop with
      | Undefined => Returns RUndefined
      | Foreign => Unmodelled
      | Found (VFunction _ _) => Returns (RFunction (a ++ [prop]))
      | Found (VObject _) => Returns (RObject (a ++ [prop]))
      end
  end.

(** [r[prop]]. *)
Definition get (inst : TreeInstance) (r : ref) (prop : string)
  : result (ref * TreeInstance) :=
  match r with
  | RProxy _ target => proxy_get inst target prop
  | RObject a | RFunction a => r' ← raw_get inst a prop; mret (r', inst)
  | RUndefined => Throws (cannot_read JSUndefined prop)
  end.

(** [r.k1.k2...]: the lookup of a sub-path, one read after the other. *)
Fixpoint navigate (inst : TreeInstance) (r : ref) (path : list string)
  : result (ref * TreeInstance) :=
  match path with
  | [] => Returns (r, inst)
  | prop :: path' =>
      ri ← get inst r prop;
      navigate ri.2 ri.1 path'
  end.

(** The leaf a reference denotes, if it is one. *)
Definition leaf_of (inst : TreeInstance) (r : ref) : option Leaf :=
  match r with
  | RFunction a =>
      match node_at (tree inst) a with
      | Some (VFunction l _) => Some l
      | _ => None
      end
  | _ => None
  end.

(** [r] refers to the object at the path [a]. *)
Definition denotes (r : ref) (a : list string) : Prop :=
  match r with
  | RProxy _ target => target = a
  | RObject b | RFunction b => b = a
  | RUndefined => False
  end.

(** A later state of the same tree instance: the same tree, and every
    cached proxy still cached. *)
Definition extends (inst inst' : TreeInstance) : Prop :=
  tree inst' = tree inst ∧ proxyCache inst ⊆ proxyCache inst'.

(** The lookup of [path] from the root [ns.1] of a namespace returns the
    leaf [l]. *)
Definition reaches (ns : ref * TreeInstance) (path : list string) (l : Leaf)
  : Prop :=
  ∃ r inst', navigate ns.2 ns.1 path = Returns (r, inst') ∧
             leaf_of inst' r = Some l.

(** The descriptor is bound to a leaf that can be reached in the
    namespace. *)
Definition bound_in (ns : ref * TreeInstance) (f : FunctionSpec) : Prop :=
  ∃ path l, reaches ns path l ∧ spec l = f.

(** Create nested proxy objects.  (The source also records each descriptor
    in the module's [functionsByPath] map, which nothing reads.) *)
Definition createProxyTree (functions : list FunctionSpec)
  (visibility' : string) (deploymentFlag : string)
  : result (ref * TreeInstance) :=
  filteredFunctions ← filter_kind visibility' functions;
  tree ← insertAll deploymentFlag filteredFunctions (VObject []);
  mret (createProxy {| tree := tree; proxyCache := ∅; allocated := 0 |} []).

(** The instance a call of [createProxyTree] returns: the tree, and a
    cache that holds the root proxy only. *)
Definition fresh_instance (t : value) : TreeInstance :=
  {| tree := t; proxyCache := {[ [] := 0 ]}; allocated := 1 |}.

(** The descriptor has a [visibility] that [kind] can be read from (an
    object, as its type says, or any value but [undefined] and [null]). *)
Definition has_visibility_field (f : FunctionSpec) : Prop :=
  is_Some (visibility f).

(** ** Console and subprocess *)

Inductive event :=
| Log (line : string)
| LogError (line : string)
| Callback (deploymentName : string).

Definition dquote : string := String (Ascii.ascii_of_nat 34) EmptyString.

(** The two [console.error] calls of a [catch] block: the message, then the
    captured error stream when it is truthy. *)
Definition report (what : string) (err : Error) : list event :=
  LogError (what +:+ " " +:+ message err) ::
  match stderr err with
  | Some text =>
      if String.eqb text EmptyString then []
      else [LogError ("stderr: " +:+ text)]
  | None => []
  end.

(** ** Calling a leaf *)

Section Call.
Context {JSValue : Type}.
(** [JSON.stringify]. *)
Variable JSON_stringify : JSValue → string.
(** [JSON.parse]; [None] when it throws. *)
Variable JSON_parse : string → option JSValue.
(** [execSync(cmd, {encoding: 'utf-8', ...})]: the captured standard
    output, or the error thrown for a failed command. *)
Variable execSync : string → Error + string.

(** What a successful call returns. *)
Inductive returned :=
| Parsed (v : JSValue)
| Text (s : string).

(** The command line of a call. *)
Definition run_command (l : Leaf) (args : JSValue) : string :=
  let argsJson := JSON_stringify args in
  Str.trim ("npx convex run " +:+ leafFlag l +:+ " " +:+ dquote
            +:+ runPath l +:+ dquote +:+ " '" +:+ argsJson +:+ "'").

(** The function [fn] of [createFunctionProxy]. *)
Definition callLeaf (l : Leaf) (args : JSValue)
  : list event * result returned :=
  let cmd := run_command l args in
  let running := Log ("Running: " +:+ cmd) in
  match execSync cmd with
  | inr output =>
      match JSON_parse output with
      | Some v => ([running], Returns (Parsed v))
      | None => ([running], Returns (Text (Str.trim output)))
      end
  | inl error =>
      (running :: report "Error running function:" error, Throws error)
  end.
End Call.
Arguments Parsed {JSValue} v.
Arguments Text {JSValue} s.

(** ** The deployment label *)

(** [[^.]*] followed by [\.] at the start of [s]: the code units before
    the first dot. *)
Fixpoint before_dot (s : string) : option string :=
  match s with
  | EmptyString => None
  | String c s' =>
      if Ascii.eqb c "." then Some EmptyString
      else label ← before_dot s'; Some (String c label)
  end.

(** [([^.]+)\.] at the start of [s]: the capture group, which is not
    empty. *)
Definition capture (s : string) : option string :=
  match before_dot s with
  | Some (String c label) => Some (String c label)
  | _ => None
  end.

(** The pattern [/https?:\/\/([^.]+)\./] matched at the start of [s]. *)
Definition match_here (s : string) : option string :=
  if String.prefix "https://" s then capture (Str.drop 8 s)
  else if String.prefix "http://" s then capture (Str.drop 7 s)
  else None.

(** [url.match(/https?:\/\/([^.]+)\./)]: the capture group of the leftmost
    match; the pattern is not anchored. *)
Fixpoint url_match (s : string) : option string :=
  match match_here s with
  | Some label => Some label
  | None =>
      match s with
      | EmptyString => None
      | String _ s' => url_match s'
      end
  end.

(** ** update *)

(** The module's [deploymentName] and the two global bindings; a binding is
    [None] until the first successful [update]. *)
Record Globals := {
  globalThis_api : option (ref * TreeInstance);
  globalThis_internal : option (ref * TreeInstance);
  deploymentName : string
}.

Definition initial_globals : Globals :=
  {| globalThis_api := None;
     globalThis_internal := None;
     deploymentName := "unknown" |}.

(** [onUpdate] is an external callback; in [UpdateOptions] only its
    presence is recorded, for a callback that returns, and a call is
    recorded as a [Callback] event.  The descriptors of a parsed spec have
    the declared shape ([url] a string, [functions] an array of
    descriptors). *)
Record UpdateOptions := {
  deploymentFlag : string;
  isProd : bool;
  onUpdate : bool
}.

Record UpdateResult := {
  api : ref * TreeInstance;
  internal : ref * TreeInstance;
  resultDeploymentName : string
}.

(** [f.visibility && f.visibility.kind]. *)
Definition has_visibility (f : FunctionSpec) : bool :=
  match visibility f with
  | Some v => truthy (kind v)
  | None => false
  end.

Definition newline : string := String (Ascii.ascii_of_nat 10) EmptyString.

(** The command line of the spec fetch. *)
Definition spec_command (options : UpdateOptions) : string :=
  Str.trim ("npx convex function-spec " +:+ deploymentFlag options).

(** The descriptors [update] keeps. *)
Definition validFunctions (spec : ConvexFunctionSpec) : list FunctionSpec :=
  List.filter has_visibility (functions spec).

(** The number [update] reports as skipped. *)
Definition invalidCount (spec : ConvexFunctionSpec) : nat :=
  length (functions spec) - length (validFunctions spec).

(** The optional line about skipped descriptors. *)
Definition skipped_lines (invalidCount : nat) : list event :=
  if Nat.ltb 0 invalidCount
  then [Log ("  (skipped " +:+ pretty invalidCount
             +:+ " functions without visibility information)")]
  else [].

(** The line printed before the spec command runs. *)
Definition fetching_line (options : UpdateOptions) : event :=
  let deploymentType := if isProd options then "production" else "dev" in
  Log ("Fetching function specs from Convex (" +:+ deploymentType +:+ ")...").

(** The first two lines [update] has printed once the spec is parsed. *)
Definition heading_lines (options : UpdateOptions) (spec : ConvexFunctionSpec)
  : list event :=
  [fetching_line options;
   Log ("Loaded " +:+ pretty (length (functions spec))
        +:+ " functions from " +:+ url spec)].

(** All lines printed before the trees are built. *)
Definition summary_lines (options : UpdateOptions) (spec : ConvexFunctionSpec)
  (publicCount internalCount : nat) : list event :=
  heading_lines options spec ++ skipped_lines (invalidCount spec) ++
  [Log ("  - " +:+ pretty publicCount +:+ " public functions (api)");
   Log ("  - " +:+ pretty internalCount +:+ " internal functions (internal)")].

(** The lines printed after the trees are built. *)
Definition ready_lines (options : UpdateOptions) (name : string) : list event :=
  (if onUpdate options then [Callback name] else []) ++
  [Log (newline +:+ "Ready! Type help() for usage information or use Tab for autocomplete." +:+ newline)].

(** The label [update] leaves in [deploymentName]: the capture group, or
    the value the variable had when the pattern does not match. *)
Definition label_after (g : Globals) (spec : ConvexFunctionSpec) : string :=
  match url_match (url spec) with
  | Some label => label
  | None => deploymentName g
  end.

Section Update.
(** [execSync(cmd, {encoding: 'utf-8', ...})]. *)
Variable execSync : string → Error + string.
(** [JSON.parse] of the spec command's output, read as a
    [ConvexFunctionSpec]; [inl] holds the error thrown. *)
Variable JSON_parse : string → Error + ConvexFunctionSpec.

(** The [catch] block of [update]: report and throw again. *)
Definition failed {A} (logs : list event) (error : Error) (g : Globals)
  : list event * result A * Globals :=
  (logs ++ report "Error fetching function specs:" error, Throws error, g).

(** A step of the [try] block that may throw. *)
Definition attempt {A B} (logs : list event) (g : Globals) (r : result A)
  (k : A → list event * result B * Globals)
  : list event * result B * Globals :=
  match r with
  | Returns a => k a
  | Throws error => failed logs error g
  | Unmodelled => (logs, Unmodelled, g)
  end.

(** Main update function. *)
Definition update (options : UpdateOptions) (g : Globals)
  : list event * result UpdateResult * Globals :=
  let fetching := [fetching_line options] in
  let cmd := spec_command options in
  match execSync cmd with
  | inl error => failed fetching error g
  | inr output =>
      match JSON_parse output with
      | inl error => failed fetching error g
      | inr spec =>
          let name := label_after g spec in
          let g1 := {| globalThis_api := globalThis_api g;
                       globalThis_internal := globalThis_internal g;
                       deploymentName := name |} in
          let validFunctions := validFunctions spec in
          attempt (heading_lines options spec) g1
            (filter_kind "public" validFunctions)
            (λ publics,
          attempt (heading_lines options spec) g1
            (filter_kind "internal" validFunctions)
            (λ internals,
          let logs :=
            summary_lines options spec (length publics) (length internals) in
          attempt logs g1
            (createProxyTree validFunctions "public" (deploymentFlag options))
            (λ apiProxy,
          attempt logs g1
            (createProxyTree validFunctions "internal" (deploymentFlag options))
            (λ internalProxy,
          let g2 := {| globalThis_api := Some apiProxy;
                       globalThis_internal := Some internalProxy;
                       deploymentName := name |} in
          (logs ++ ready_lines options name,
           Returns {| api := apiProxy;
                      internal := internalProxy;
                      resultDeploymentName := name |},
           g2)))))
      end
  end.
End Update.

(** The descriptor's [visibility.kind] is the string [vis]. *)
Definition visible_as (vis : string) (f : FunctionSpec) : Prop :=
  kind <$> visibility f = Some (JSString vis).


(** The descriptor has a visibility with a truthy kind that is neither
    ["public"] nor ["internal"]. *)
Definition neither_kind (f : FunctionSpec) : Prop :=
  ∃ v, visibility f = Some v ∧ truthy (kind v) = true ∧
       strict_eq (kind v) "public" = false ∧
       strict_eq (kind v) "internal" = false.

(** The number of descriptors of a list that fail the visibility test of
    [update]. *)
Definition without_visibility (fs : list FunctionSpec) : nat :=
  length (List.filter (λ f, negb (has_visibility f)) fs).

(** A URL of the form [scheme://label.rest]. *)
Definition deployment_url (scheme label rest : string) : string :=
  scheme +:+ "://" +:+ label +:+ "." +:+ rest.

(** ** Sample descriptors *)

Module Samples.

Definition descriptor (id : string) (type : FunctionType) (k : string)
  : FunctionSpec :=
  {| identifier := id;
     functionType := type;
     visibility := Some {| kind := JSString k |};
     nullish := JSUndefined |}.

(** A module [x] exporting [a], and a module [x/a] exporting [b]: the
    namespace path [x.a] is a proper prefix of [x.a.b]. *)
Definition x_a : FunctionSpec := descriptor "x.js:a" Query "public".
Definition x_a_b : FunctionSpec := descriptor "x/a.js:b" Query "public".

(** Two descriptors of one namespace path. *)
Definition list_query : FunctionSpec :=
  descriptor "users.js:list" Query "public".
Definition list_mutation : FunctionSpec :=
  descriptor "users.js:list" Mutation "public".

(** A descriptor two directories deep, and the tree that holds it. *)
Definition admin_list : FunctionSpec :=
  descriptor "admin/users.js:list" Query "public".
Definition admin_tree : value :=
  VObject
    [("admin",
      VObject
        [("users",
          VObject
            [("list", createFunctionProxy admin_list EmptyString)])])].

Definition get_internal : FunctionSpec :=
  descriptor "users.js:get" Query "internal".

(** A descriptor with a truthy kind that is neither of the two. *)
Definition odd_kind : FunctionSpec :=
  descriptor "jobs.js:run" Action "private".

(** A descriptor without visibility. *)
Definition no_visibility : FunctionSpec :=
  {| identifier := "jobs.js:stop";
     functionType := Action;
     visibility := None;
     nullish := JSUndefined |}.

(** JSON values for the examples of a leaf call. *)
#[local] Unset Elimination Schemes.
Inductive json :=
| JBool (b : bool)
| JObject (fields : list (string * json)).
#[local] Set Elimination Schemes.

(** The text [{"ok":true}] and its value. *)
Definition ok_text : string :=
  "{" +:+ dquote +:+ "ok" +:+ dquote +:+ ":true}".
Definition ok_value : json := JObject [("ok", JBool true)].

(** [JSON.parse] on the two outputs of the examples: the document above
    parses, any other text is taken not to. *)
Definition parse_example (text : string) : option json :=
  if String.eqb text ok_text then Some ok_value else None.

(** [JSON.stringify] on the argument of the examples, the empty object. *)
Definition stringify_example (args : json) : string := "{}".

Definition options : UpdateOptions :=
  {| deploymentFlag := EmptyString; isProd := false; onUpdate := false |}.

(** A spec command that prints one line, and a parser that reads it as
    the given spec. *)
Definition prints (text : string) : string → Error + string :=
  λ _, inr text.
Definition reads_as (spec : ConvexFunctionSpec)
  : string → Error + ConvexFunctionSpec :=
  λ _, inr spec.

(** A spec command that exits with status 1. *)
Definition exit_1 : Error :=
  {| message := "Command failed: npx convex function-spec";
     stderr := Some "No CONVEX_DEPLOYMENT set" |}.
Definition exits_non_zero : string → Error + string := λ _, inl exit_1.

(** [JSON.parse] throwing on output that is not JSON. *)
Definition syntax_error : Error :=
  {| message := "Unexpected token o in JSON at position 1"; stderr := None |}.
Definition not_json : string → Error + ConvexFunctionSpec :=
  λ _, inl syntax_error.


Definition mixed_spec : ConvexFunctionSpec :=
  {| url := "https://frugal-fox-192.convex.cloud";
     functions := [list_query; odd_kind; no_visibility; get_internal] |}.

Definition local_spec : ConvexFunctionSpec :=
  {| url := "localhost"; functions := [] |}.

(** Globals with both trees bound, as a successful [update] leaves
    them. *)
Definition loaded_globals : Globals :=
  {| globalThis_api :=
       Some (RProxy 0 [],
             fresh_instance
               (VObject [("users",
                          VObject [("list",
                                    createFunctionProxy list_query
                                      EmptyString)])]));
     globalThis_internal :=
       Some (RProxy 0 [],
             fresh_instance
               (VObject [("users",
                          VObject [("get",
                                    createFunctionProxy get_internal
                                      EmptyString)])]));
     deploymentName := "frugal-fox-192" |}.

End Samples.

(** * More of the library and of the shell *)

(** ** Strings, continued *)

Module StrMore.

(** Every code unit of [s] is white space. *)
Fixpoint all_space (s : string) : bool :=
match s with
| EmptyString => true
| String c s' => Str.is_space c && all_space s'
end.

Definition first_char (s : string) : option ascii :=
match s with
| EmptyString => None
| String c _ => Some c
end.

Fixpoint last_char (s : string) : option ascii :=
match s with
| EmptyString => None
| String c s' =>
    match last_char s' with
    | Some d => Some d
    | None => Some c
    end
end.

(** The code unit, if there is one, is not white space. *)
Definition not_space (c : option ascii) : Prop :=
match c with
| Some c => Str.is_space c = false
| None => True
end.

(** The line feed, as a code unit. *)
Definition line_feed : ascii := Ascii.ascii_of_nat 10.

(** The number of occurrences of [c] in [s]. *)
Fixpoint count (c : ascii) (s : string) : nat :=
match s with
| EmptyString => 0
| String d s' => (if Ascii.eqb d c then 1 else 0) + count c s'
end.

(** The digit of a value below 16, in lower case. *)
Definition hex_digit (n : nat) : ascii :=
if Nat.ltb n 10 then Ascii.ascii_of_nat (48 + n)
else Ascii.ascii_of_nat (87 + n).

(** The escape [JSON.stringify] writes for one code unit of a string: the
  short escapes, [\u00xx] for the other control characters, the code unit
  itself otherwise. *)
Definition quote_char (c : ascii) : string :=
let n := Ascii.nat_of_ascii c in
let backslash := Ascii.ascii_of_nat 92 in
let escaped (d : ascii) := String backslash (String d EmptyString) in
if Nat.eqb n 8 then escaped "b"%char
else if Nat.eqb n 9 then escaped "t"%char
else if Nat.eqb n 10 then escaped "n"%char
else if Nat.eqb n 12 then escaped "f"%char
else if Nat.eqb n 13 then escaped "r"%char
else if Nat.eqb n 34 then escaped (Ascii.ascii_of_nat 34)
else if Nat.eqb n 92 then escaped backslash
else if Nat.ltb n 32
     then String backslash
            (String "u"%char
               (String "0"%char
                  (String "0"%char
                     (String (hex_digit (n / 16))
                        (String (hex_digit (n mod 16)) EmptyString)))))
     else String c EmptyString.

Fixpoint quote_chars (s : string) : string :=
match s with
| EmptyString => EmptyString
| String c s' => quote_char c +:+ quote_chars s'
end.

(** [JSON.stringify(s, null, 2)] for a string [s]: the quoted string; the
  indentation does not apply to a string. *)
Definition JSON_stringify_string (s : string) : string :=
dquote +:+ quote_chars s +:+ dquote.

End StrMore.

(** ** Signatures *)

(** [FieldType]: the tag and, for a reference, the table; both may be
    missing. *)
Record FieldType := {
  type : option string;
  tableName : option string
}.

Record FunctionArg := {
  fieldType : FieldType;
  optional : bool
}.

(** A template literal renders a missing value as [undefined]. *)
Definition interpolate (v : option string) : string :=
  match v with
  | Some s => s
  | None => "undefined"
  end.

(** Format argument type for display. *)
Definition formatArgType (arg : FunctionArg) : string :=
  let tag := type (fieldType arg) in
  let tagged (s : string) :=
    match tag with
    | Some t => String.eqb t s
    | None => false
    end in
  let typeStr :=
    if tagged "id"
    then "Id<" +:+ dquote +:+ interpolate (tableName (fieldType arg))
         +:+ dquote +:+ ">"
    else if tagged "string" then "string"
    else if tagged "number" then "number"
    else if tagged "boolean" then "boolean"
    else if tagged "array" then "array"
    else if tagged "object" then "object"
    else if tagged "union" then "union"
    else if tagged "literal" then "literal"
    else match tag with
         | Some t => if String.eqb t EmptyString then "any" else t
         | None => "any"
         end in
  if optional arg then typeStr +:+ "?" else typeStr.

Definition functionTypeName (t : FunctionType) : string :=
  match t with
  | Query => "Query"
  | Mutation => "Mutation"
  | Action => "Action"
  end.

Section Signature.
(** The return schema [spec.returns], its [type] field and
  [JSON.stringify] of it. *)
Context {Schema : Type}.
Variable schema_type : Schema → jsval.
Variable JSON_stringify : Schema → string.

(** Format return type for display. *)
Definition formatReturnType (returns : Schema) : string :=
if strict_eq (schema_type returns) "any" then "any"
else JSON_stringify returns.

(** The lines of the argument list, joined by line feeds; [args] are the
  entries of [spec.args.value] as [Object.entries] yields them. *)
Definition argsList (args : list (string * FunctionArg)) : string :=
Str.join newline
  (map (λ entry, "  " +:+ entry.1 +:+ ": " +:+ formatArgType entry.2) args).

(** The [toString] method of a leaf: [functionType] and [returns] are read
  from the descriptor of the leaf, [runPath] from its closure. *)
Definition signature (functionType : FunctionType) (runPath : string)
(args : list (string * FunctionArg)) (returns : Schema) : string :=
"[" +:+ functionTypeName functionType +:+ "] ---- " +:+ runPath
+:+ newline +:+ "Args: {" +:+ newline
+:+ StrMore.JSON_stringify_string (argsList args)
+:+ newline +:+ "}" +:+ newline
+:+ "Returns: " +:+ formatReturnType returns.
End Signature.


(** ** The tree, continued *)




(** The value of a decimal digit. *)
Definition digit_of (c : ascii) : option N :=
  let n := Ascii.N_of_ascii c in
  if (48 <=? n)%N && (n <=? 57)%N then Some (n - 48)%N else None.

(** The number a string of decimal digits writes. *)
Fixpoint decimal (acc : N) (s : string) : option N :=
  match s with
  | EmptyString => Some acc
  | String c s' =>
      match digit_of c with
      | Some d => decimal (10 * acc + d) s'
      | None => None
      end
  end.

(** The array index a key writes, if it is one: the key is the decimal
    form, without sign or leading zero, of a number below [2^32 - 1]. *)
Definition array_index (k : string) : option N :=
  match k with
  | EmptyString => None
  | String c rest =>
      if Ascii.eqb c "0" && negb (String.eqb rest EmptyString) then None
      else match decimal 0 k with
           | Some n => if (n <? 4294967295)%N then Some n else None
           | None => None
           end
  end.

Definition is_index (k : string) : bool :=
  match array_index k with
  | Some _ => true
  | None => false
  end.

(** The keys that are array indices, each with its number. *)
Definition indexed (keys : list string) : list (N * string) :=
  omap (λ k, (λ n, (n, k)) <$> array_index k) keys.

Definition index_le : relation (N * string) := λ a b, (a.1 ≤ b.1)%N.

#[export] Instance index_le_dec : RelDecision index_le :=
  λ a b, decide (a.1 ≤ b.1)%N.

(** The order in which the engine lists own string keys: the array indices
    first, by ascending number, then the other keys in the order of their
    creation. *)
Definition key_order (keys : list string) : list string :=
  (merge_sort index_le (indexed keys)).*2
  ++ List.filter (λ k, negb (is_index k)) keys.

(** The enumerable own string keys of an object of the tree, in the order
    of their creation.  A leaf function has the three that
    [createFunctionProxy] assigned and the ones the loop wrote; its
    built-in own properties are not enumerable. *)
Definition enumerable_keys (v : value) : list string :=
  match v with
  | VObject ps => map fst ps
  | VFunction _ ps => [ "toString"; "spec"; "runPath" ] ++ map fst ps
  end.

(** [Object.keys] of the object at [obj], directly or through its proxy:
    the [ownKeys] trap hands out the own keys of the target and the
    [getOwnPropertyDescriptor] trap reports each one with its own
    descriptor, marked enumerable. *)
Definition Object_keys (inst : TreeInstance) (obj : list string)
  : list string :=
  match node_at (tree inst) obj with
  | Some v => key_order (enumerable_keys v)
  | None => []
  end.

(** ** help *)

(** The order of [Array.prototype.sort] without a comparison function:
    strings compared code unit by code unit. *)
Definition code_unit_le : relation string := λ a b, String.leb a b = true.

#[export] Instance code_unit_le_dec : RelDecision code_unit_le :=
  λ a b, decide (String.leb a b = true).

(** [keys.sort()].  The order is total and antisymmetric, so there is one
    sorted arrangement of the keys, whatever the algorithm. *)
Definition sort_keys (keys : list string) : list string :=
  merge_sort code_unit_le keys.

(** The block [help] prints for a list of keys that is not empty. *)
Definition listing (name heading : string) (keys : list string)
  : list event :=
  match keys with
  | [] => []
  | _ :: _ =>
      Log (newline +:+ heading)
      :: map (λ key, Log ("  " +:+ name +:+ "." +:+ key)) (sort_keys keys)
  end.

(** The block for one of the two globals; [update] stores proxies only, and
    the global is [undefined] before the first [update]. *)
Definition module_lines (name heading : string)
  (ns : option (ref * TreeInstance)) : list event :=
  match ns with
  | Some (RProxy _ obj, inst) => listing name heading (Object_keys inst obj)
  | _ => []
  end.

Definition help_commands (isProd : bool) : list event :=
  let deploymentType := if isProd then "PRODUCTION" else "dev" in
  [ Log (newline +:+ "=== Convex Shell Help ===" +:+ newline);
    Log ("Deployment: " +:+ deploymentType);
    Log (newline +:+ "Available commands:");
    Log "  update()     - Refresh function list from Convex";
    Log "  help()       - Show this help message";
    Log "  .exit        - Exit the shell";
    Log (newline +:+ "Available objects:");
    Log "  api          - Public functions";
    Log "  internal     - Internal functions" ].

Definition help_tips : list event :=
  [ Log (newline +:+ "Tips:");
    Log "  - Use Tab for autocomplete";
    Log "  - Type a function name to see its signature";
    Log "  - Call functions with: functionName({arg1: value1, ...})";
    Log "  - Example: internal.utils.actions.helloWorld({})";
    Log EmptyString ].

(** Helper function to list available top-level modules. *)
Definition help (isProd : bool) (g : Globals) : list event :=
  help_commands isProd
  ++ module_lines "api" "Public modules (api):" (globalThis_api g)
  ++ module_lines "internal" "Internal modules (internal):"
       (globalThis_internal g)
  ++ help_tips.


(** ** Property reads, continued *)

(** The diagnostic of the [get] trap for a property its target does not
    have; [path] is the path the proxy was created with, the place of its
    target in the tree. *)
Definition not_found (path : list string) (prop : string) : event :=
  Log ("Property '" +:+ prop +:+ "' not found at path: "
       +:+ Str.join "." path).

(** What [r[prop]] prints.  Only the [get] trap of a proxy prints; a read on
    a leaf function, or on an object below one, is an ordinary read. *)
Definition get_trace (inst : TreeInstance) (r : ref) (prop : string)
  : list event :=
  match r with
  | RProxy _ target =>
      if mem prop hidden_keys then []
      else match node_at (tree inst) target with
           | Some obj =>
               match get_prop obj prop with
               | Undefined => [not_found target prop]
               | _ => []
               end
           | None => []
           end
  | _ => []
  end.

(** What the lookup [r.k1.k2...] prints. *)
Fixpoint navigate_trace (inst : TreeInstance) (r : ref) (path : list string)
  : list event :=
  match path with
  | [] => []
  | prop :: path' =>
      get_trace inst r prop ++
      match get inst r prop with
      | Returns ri => navigate_trace ri.2 ri.1 path'
      | _ => []
      end
  end.

(** The object at [q] and every object on the way to it is a namespace. *)
Definition namespaces_to (t : value) (q : list string) : Prop :=
  ∀ p, p `prefix_of` q → kind_at t p = Some None.



(** A descriptor whose module is named like a key the [get] trap hides. *)
Definition inspect_run : FunctionSpec :=
  {| identifier := "inspect.js:run";
     functionType := Action;
     visibility := Some {| kind := JSString "public" |};
     nullish := JSUndefined |}.

(** ** update, continued *)

(** The names [onUpdate] was called with, in the order of the calls. *)
Fixpoint callbacks (logs : list event) : list string :=
  match logs with
  | [] => []
  | Callback name :: logs' => name :: callbacks logs'
  | _ :: logs' => callbacks logs'
  end.

(** The descriptor passes the visibility test of [update] and is counted
    neither as public nor as internal. *)
Definition other_kind (f : FunctionSpec) : bool :=
  has_visibility f && negb (has_kind "public" f)
  && negb (has_kind "internal" f).

(** * The shell (shell.ts) *)

(** [deploymentFlag], read off the command line: [--prod] chooses the
    production deployment. *)
Definition shell_flag (isProd : bool) : string :=
  if isProd then "--prod" else EmptyString.

(** The state of the shell module: its own [deploymentName], the prompt of
    [globalThis.replServer] ([None] until the REPL has started), and the
    state of the library module. *)
Record Shell := {
  shellDeploymentName : string;
  replServer : option string;
  library : Globals
}.

Definition initial_shell : Shell :=
  {| shellDeploymentName := "unknown";
     replServer := None;
     library := initial_globals |}.

(** What the terminal shows: a console call of the library or of the shell,
    or the prompt of the REPL. *)
Inductive output :=
| Console (e : event)
| Prompt (text : string).

(** The prompt text for a deployment name. *)
Definition prompt_of (isProd : bool) (deploymentName : string) : string :=
  deploymentName +:+ ":" +:+ (if isProd then "prod" else "dev") +:+ "> ".

(** Helper function to update the REPL prompt. *)
Definition updatePrompt (isProd : bool) (sh : Shell) : list output * Shell :=
  match replServer sh with
  | Some _ =>
      let text := prompt_of isProd (shellDeploymentName sh) in
      ([Prompt text],
       {| shellDeploymentName := shellDeploymentName sh;
          replServer := Some text;
          library := library sh |})
  | None => ([], sh)
  end.

(** The callback [shellUpdate] hands to [update] as [onUpdate]. *)
Definition on_update (isProd : bool) (name : string) (sh : Shell)
  : list output * Shell :=
  updatePrompt isProd
    {| shellDeploymentName := name;
       replServer := replServer sh;
       library := library sh |}.

(** The events of a call of [update], as the shell sees them: a console
    line is shown, a call of [onUpdate] runs the callback.  The callback
    touches the shell's own state only, which [update] does not read. *)
Fixpoint play (isProd : bool) (logs : list event) (sh : Shell)
  : list output * Shell :=
  match logs with
  | [] => ([], sh)
  | Callback name :: logs' =>
      let shown := on_update isProd name sh in
      let rest := play isProd logs' shown.2 in
      (shown.1 ++ rest.1, rest.2)
  | e :: logs' =>
      let rest := play isProd logs' sh in
      (Console e :: rest.1, rest.2)
  end.

(** The prompts among the things shown. *)
Fixpoint prompts (out : list output) : list string :=
  match out with
  | [] => []
  | Prompt text :: out' => text :: prompts out'
  | Console _ :: out' => prompts out'
  end.

(** The shell's name for the deployment is the library's, and the prompt of
    a started REPL shows it. *)
Definition in_sync (isProd : bool) (sh : Shell) : Prop :=
  shellDeploymentName sh = deploymentName (library sh) ∧
  ∀ text, replServer sh = Some text →
          text = prompt_of isProd (shellDeploymentName sh).

(** The options [shellUpdate] calls [update] with; [onUpdate] is given. *)
Definition shell_options (isProd : bool) : UpdateOptions :=
  Build_UpdateOptions (shell_flag isProd) isProd true.

Section Shell.
Variable execSync : string → Error + string.
Variable JSON_parse : string → Error + ConvexFunctionSpec.
Variable isProd : bool.

(** Wrapper for update function that works with the shell. *)
Definition shellUpdate (sh : Shell)
: list output * result UpdateResult * Shell :=
let outcome :=
  update execSync JSON_parse (shell_options isProd) (library sh) in
let played := play isProd outcome.1.1 sh in
(played.1, outcome.1.2,
 {| shellDeploymentName := shellDeploymentName played.2;
    replServer := replServer played.2;
    library := outcome.2 |}).

(** Wrapper for help function that works with the shell. *)
Definition shellHelp (sh : Shell) : list output :=
map Console (help isProd (library sh)).

(** The three lines [startRepl] prints before the REPL starts. *)
Definition banner : list output :=
[ Console (Log "Convex Shell - Interactive Function Explorer");
  Console (Log "===========================================");
  Console (Log ("Deployment: " +:+ (if isProd then "PRODUCTION" else "dev")
                +:+ newline)) ].

(** Function to start the REPL: the first [update], the banner, and the
  REPL with its first prompt.  The completer and the bindings of the REPL
  context are apart. *)
Definition startRepl (sh : Shell) : list output * result unit * Shell :=
let updated := shellUpdate sh in
match updated.1.2 with
| Returns result =>
    let name := resultDeploymentName result in
    let text := prompt_of isProd name in
    (updated.1.1 ++ banner ++ [Prompt text],
     Returns tt,
     {| shellDeploymentName := name;
        replServer := Some text;
        library := library updated.2 |})
| Throws error => (updated.1.1, Throws error, updated.2)
| Unmodelled => (updated.1.1, Unmodelled, updated.2)
end.
End Shell.

(** ** The completer *)

(** Default completions for top-level commands. *)
Definition topLevelCompletions : list string :=
  [ "api"; "internal"; "update"; "help" ].

Module Regex.

Definition in_range (lo hi : nat) (c : ascii) : bool :=
let n := Ascii.nat_of_ascii c in Nat.leb lo n && Nat.leb n hi.

(** [[a-zA-Z]] and [[0-9]]. *)
Definition letter (c : ascii) : bool := in_range 65 90 c || in_range 97 122 c.
Definition digit (c : ascii) : bool := in_range 48 57 c.

(** A word character of [\b]: [[A-Za-z0-9_]]. *)
Definition word_char (c : ascii) : bool :=
letter c || digit c || Ascii.eqb c "_".

(** [[a-zA-Z_$]] and [[a-zA-Z0-9_$]]. *)
Definition ident_start (c : ascii) : bool :=
letter c || Ascii.eqb c "_" || Ascii.eqb c "$".
Definition ident_char (c : ascii) : bool := ident_start c || digit c.

(** [s.slice(0, n)]. *)
Fixpoint take (n : nat) (s : string) : string :=
match n, s with
| O, _ => EmptyString
| S _, EmptyString => EmptyString
| S n', String c s' => String c (take n' s')
end.

(** Where the matcher stands in the part of the pattern after the root
  name (a greedy run of members, each a dot and a name, then a dot):
  after the root name, where only a dot can follow; after a dot, where a
  member name has to start; or in a member name. *)
Inductive place :=
| AfterRoot
| AfterDot
| InName.

(** The dot that ends the match of the run of members and the final dot,
  as the number of code units before it.  The run is greedy and a name
  is taken whole, so the match ends at the last dot that follows the root
  or a name in an unbroken run of members: the dot after the run if there
  is one, else (by backtracking over the last member) the dot that starts
  the last member.  [seen] is the last such dot passed, [at'] the number
  of code units read. *)
Fixpoint last_dot (p : place) (at' : nat) (seen : option nat) (s : string)
: option nat :=
match s with
| EmptyString => seen
| String c s' =>
    match p with
    | AfterRoot =>
        if Ascii.eqb c "." then last_dot AfterDot (S at') (Some at') s'
        else seen
    | AfterDot =>
        if ident_start c then last_dot InName (S at') seen s' else seen
    | InName =>
        if Ascii.eqb c "." then last_dot AfterDot (S at') (Some at') s'
        else if ident_char c then last_dot InName (S at') seen s'
        else seen
    end
end.

(** The match of the pattern at the start of [s], for one root name: the
  first group and the whole match. *)
Definition access_of (root s : string) : option (string * string) :=
if String.prefix root s then
  let rest := Str.drop (String.length root) s in
  match last_dot AfterRoot 0 None rest with
  | Some n =>
      let expr := root +:+ take n rest in
      Some (expr, expr +:+ ".")
  | None => None
  end
else None.

Definition access_here (s : string) : option (string * string) :=
match access_of "api" s with
| Some m => Some m
| None => access_of "internal" s
end.

(** [line.match(...)] for the pattern of the completer: a word boundary,
  [api] or [internal], members [.name] with a name of
  [[a-zA-Z_$][a-zA-Z0-9_$]...], and a dot.  The match is the leftmost
  one; the boundary holds where the code unit before is not a word
  character ([after_word] tells whether it is one).  The result is
  [match[1]] and [match[0]]. *)
Fixpoint access (after_word : bool) (s : string) : option (string * string) :=
match s with
| EmptyString => None
| String c s' =>
    match (if after_word then None else access_here s) with
    | Some m => Some m
    | None => access (word_char c) s'
    end
end.

(** Some code unit of [s] is white space. *)
Fixpoint any_space (s : string) : bool :=
match s with
| EmptyString => false
| String c s' => Str.is_space c || any_space s'
end.

(** [line.split(/\s+/).pop() || '']: the text after the last white space,
  the whole line when it has none. *)
Fixpoint last_token (s : string) : string :=
match s with
| EmptyString => EmptyString
| String _ s' => if any_space s then last_token s' else s
end.

End Regex.

(** [hits.length ? hits : all]. *)
Definition hits_or (hits all : list string) : list string :=
  match hits with
  | [] => all
  | _ :: _ => hits
  end.

(** [keys.filter(k => k.startsWith(token))], or every key when none
    starts with the token. *)
Definition completions (token : string) (keys : list string) : list string :=
  hits_or (List.filter (String.prefix token) keys) keys.

Section Completer.
(** [eval(expr)] in the scope of the completer, the test
  [obj && typeof obj === 'object'] and [Object.keys(obj)]: the keys of an
  object, [None] for a value that is not an object, or the error
  thrown. *)
Variable eval_keys : string → Error + option (list string).

(** Handle partial top-level completions. *)
Definition topLevel (line : string) : list string * string :=
let lastToken := Regex.last_token line in
(completions lastToken topLevelCompletions, lastToken).

(** Custom completer function for better proxy object support. *)
Definition customCompleter (line : string) : list string * string :=
if String.eqb line EmptyString || String.eqb (Str.trim line) EmptyString
then (topLevelCompletions, line)
else
  match Regex.access false line with
  | Some (expr, prefix) =>
      match eval_keys expr with
      | inl _ => ([], EmptyString)
      | inr (Some keys) =>
          let afterDot := Str.drop (String.length prefix) line in
          (completions afterDot keys, afterDot)
      | inr None => topLevel line
      end
  | None => topLevel line
  end.
End Completer.

(** A member name of the pattern: one of [[a-zA-Z_$]], then any number of
    [[a-zA-Z0-9_$]]. *)
Fixpoint all_ident_chars (s : string) : bool :=
  match s with
  | EmptyString => true
  | String c s' => Regex.ident_char c && all_ident_chars s'
  end.

Definition member_name (s : string) : bool :=
  match s with
  | EmptyString => false
  | String c s' => Regex.ident_start c && all_ident_chars s'
  end.

(** The text [.name1.name2...] of a chain of member names. *)
Fixpoint members (names : list string) : string :=
  match names with
  | [] => EmptyString
  | name :: names' => "." +:+ name +:+ members names'
  end.

(** No code unit of [s] starts one of the two root names. *)
Fixpoint no_root_start (s : string) : bool :=
  match s with
  | EmptyString => true
  | String c s' =>
      negb (Ascii.eqb c "a") && negb (Ascii.eqb c "i") && no_root_start s'
  end.

(** The text ends where a word can begin: it is empty or its last code unit
    is not a word character. *)
Definition ends_at_boundary (s : string) : bool :=
  match StrMore.last_char s with
  | Some c => negb (Regex.word_char c)
  | None => true
  end.

(** ** The inspection text of a proxy *)

(** The function the [get] trap answers with for the inspection symbol of
    the REPL: the first ten keys of the target, in the order of
    [Object.keys], and a mark when there are more. *)
Definition inspect_custom (inst : TreeInstance) (obj : list string) : string :=
  let keys := Object_keys inst obj in
  match keys with
  | [] => "{}"
  | _ :: _ =>
      "{ " +:+ Str.join ", " (take 10 keys)
      +:+ (if Nat.ltb 10 (length keys) then ", ..." else EmptyString)
      +:+ " }"
  end.

(** ** Errors of createProxyTree and update, continued *)

(** The first descriptor of the list whose [visibility] is [undefined] or
    [null]: which of the two it is. *)
Fixpoint first_nullish (fs : list FunctionSpec) : option Nullish :=
  match fs with
  | [] => None
  | f :: fs' =>
      match visibility f with
      | None => Some (nullish f)
      | Some _ => first_nullish fs'
      end
  end.

(** A descriptor whose [visibility] is [null]. *)
Definition null_visibility : FunctionSpec :=
  {| identifier := "jobs.js:stop";
     functionType := Action;
     visibility := None;
     nullish := JSNull |}.

(** Whatever the spec command prints, if it parses, it parses to a spec (an
    object of the declared shape) whose path segments are ordinary keys. *)
Definition ordinary_output (execSync : string → Error + string)
  (JSON_parse : string → Error + ConvexFunctionSpec)
  (options : UpdateOptions) : Prop :=
  ∀ output spec,
    execSync (spec_command options) = inr output →
    JSON_parse output = inr spec →
    ordinary_paths (functions spec).

(** ** update, with what the callback does *)

Section UpdateCalling.
Variable execSync : string → Error + string.
Variable JSON_parse : string → Error + ConvexFunctionSpec.
(** What the call [onUpdate(deploymentName)] does when a callback was
  given: it returns ([None]) or throws an error. *)
Variable callback : string → option Error.

(** Main update function, for any callback.  The call of [onUpdate] is
  inside the [try] block and comes after the assignments to [globalThis]:
  when it throws, the [catch] block reports the error and throws it
  again, and the new trees and the new label stay.  [update] above is
  this function for a callback that returns. *)
Definition update_calling (options : UpdateOptions) (g : Globals)
: list event * result UpdateResult * Globals :=
let fetching := [fetching_line options] in
let cmd := spec_command options in
match execSync cmd with
| inl error => failed fetching error g
| inr output =>
    match JSON_parse output with
    | inl error => failed fetching error g
    | inr spec =>
        let name := label_after g spec in
        let g1 := {| globalThis_api := globalThis_api g;
                     globalThis_internal := globalThis_internal g;
                     deploymentName := name |} in
        let validFunctions := validFunctions spec in
        attempt (heading_lines options spec) g1
          (filter_kind "public" validFunctions)
          (λ publics,
        attempt (heading_lines options spec) g1
          (filter_kind "internal" validFunctions)
          (λ internals,
        let logs :=
          summary_lines options spec (length publics) (length internals) in
        attempt logs g1
          (createProxyTree validFunctions "public" (deploymentFlag options))
          (λ apiProxy,
        attempt logs g1
          (createProxyTree validFunctions "internal" (deploymentFlag options))
          (λ internalProxy,
        let g2 := {| globalThis_api := Some apiProxy;
                     globalThis_internal := Some internalProxy;
                     deploymentName := name |} in
        match (if onUpdate options then callback name else None) with
        | Some error => failed (logs ++ [Callback name]) error g2
        | None =>
            (logs ++ ready_lines options name,
             Returns {| api := apiProxy;
                        internal := internalProxy;
                        resultDeploymentName := name |},
             g2)
        end))))
    end
end.
End UpdateCalling.

(** * Properties *)

(** ** Facts about the string operations *)

Module StrFacts.
Import Str.

#[local] Arguments String.append : simpl nomatch.

Lemma app_assoc (a b c : string) : (a +:+ b) +:+ c = a +:+ (b +:+ c).
Proof. induction a as [|x a IH]; simpl; [done | by rewrite IH]. Qed.

Lemma app_empty_r (a : string) : a +:+ EmptyString = a.
Proof. induction a as [|x a IH]; simpl; [done | by rewrite IH]. Qed.

Lemma app_cons x (a b : string) : String x a +:+ b = String x (a +:+ b).
Proof. reflexivity. Qed.

Lemma app_nil_l (b : string) : EmptyString +:+ b = b.
Proof. reflexivity. Qed.

Lemma replace_first_cons pat rep c (s : string) :
replace_first pat rep (String c s)
= if String.prefix pat (String c s)
  then rep +:+ drop (String.length pat) (String c s)
  else String c (replace_first pat rep s).
Proof. reflexivity. Qed.

Lemma occurs_app c (a b : string) :
occurs c (a +:+ b) = occurs c a || occurs c b.
Proof.
induction a as [|x a IH]; simpl; [done |].
destruct (Ascii.eqb x c); [done | apply IH].
Qed.

Lemma occurs_cons_false c x (s : string) :
occurs c (String x s) = false → x ≠ c ∧ occurs c s = false.
Proof.
simpl. destruct (Ascii.eqb_spec x c); [done | by intros ->].
Qed.

(** A pattern of four code units is a prefix of [s] exactly when [s]
  starts with these four. *)
Lemma prefix4_inv p0 p1 p2 p3 (s : string) :
String.prefix (String p0 (String p1 (String p2 (String p3 EmptyString)))) s
= true →
∃ r, s = String p0 (String p1 (String p2 (String p3 r))).
Proof.
destruct s as [|c0 [|c1 [|c2 [|c3 r]]]]; simpl; try done;
  repeat (destruct (ascii_dec _ _); try done).
intros _. subst. eauto.
Qed.

(** A prefix starts with its first code units. *)
Lemma prefix8_inv (p s : string) :
String.prefix (String "h" (String "t" (String "t" (String "p" (String "s" p))))) s
= true →
∃ r, s = String "h" (String "t" (String "t" (String "p" (String "s" r)))).
Proof.
destruct s as [|c0 [|c1 [|c2 [|c3 [|c4 r']]]]]; cbn [String.prefix];
  try done; repeat (destruct (ascii_dec _ _); try done).
all: intros _; subst; eauto.
Qed.

Lemma prefix_app (p r : string) : String.prefix p (p +:+ r) = true.
Proof.
induction p as [|x p IH]; simpl; [by destruct r |].
by destruct (ascii_dec x x).
Qed.

Lemma drop_app (p r : string) : drop (String.length p) (p +:+ r) = r.
Proof. induction p as [|x p IH]; simpl; [by destruct r | done]. Qed.

(** The only place where a pattern ending in a colon can start in
  [m +:+ marker +:+ f] is the marker when [m] holds no colon. *)
Lemma marker_not_before p0 p1 p2 x y c (m f : string) :
x ≠ ":"%char → y ≠ ":"%char →
occurs ":" (String c m) = false →
String.prefix (String p0 (String p1 (String p2 (String ":" EmptyString))))
  (String c (m +:+ marker x y +:+ f)) = false.
Proof.
intros Hx Hy Hm.
destruct (String.prefix _ _) eqn:Hp; [exfalso | done].
apply prefix4_inv in Hp as [r Hr].
apply occurs_cons_false in Hm as [Hc Hm].
destruct m as [|c1 [|c2 [|c3 m]]]; simpl in Hr; simplify_eq.
apply occurs_cons_false in Hm as [_ Hm].
apply occurs_cons_false in Hm as [_ Hm].
apply occurs_cons_false in Hm as [? _]. done.
Qed.

(** [replace] with a marker pattern rewrites the marker that follows a
  colon-free module path. *)
Lemma replace_first_marker x y rep (m f : string) :
x ≠ ":"%char → y ≠ ":"%char →
occurs ":" m = false →
replace_first (marker x y) rep (m +:+ marker x y +:+ f) = m +:+ rep +:+ f.
Proof.
intros Hx Hy. induction m as [|c m IH]; intros Hm.
- change (EmptyString +:+ marker x y +:+ f) with (marker x y +:+ f).
  destruct f; simpl; repeat (destruct (ascii_dec _ _); try done).
- rewrite !app_cons, replace_first_cons.
  unfold marker at 1.
  rewrite (marker_not_before "." x y x y c m f) by done.
  f_equal. apply IH.
  by apply occurs_cons_false in Hm as [_ Hm].
Qed.

(** A pattern that holds a colon does not occur in a colon-free string. *)
Lemma replace_first_no_colon p0 p1 p2 rep (s : string) :
occurs ":" s = false →
replace_first (String p0 (String p1 (String p2 (String ":" EmptyString))))
  rep s = s.
Proof.
induction s as [|c s IH]; intros Hs; [done |].
rewrite replace_first_cons.
destruct (String.prefix _ _) eqn:Hp.
- apply prefix4_inv in Hp as [r Hr]. rewrite Hr in Hs.
  simpl in Hs. repeat (destruct (Ascii.eqb _ ":"); try done).
- f_equal. apply IH. by apply occurs_cons_false in Hs as [_ Hs].
Qed.


(** In a string with one colon a marker pattern can only match at the
  three code units before that colon. *)
Lemma replace_first_one_colon p0 p1 p2 rep (a f : string) :
occurs ":" a = false → occurs ":" f = false →
¬ ends_with (String p0 (String p1 (String p2 EmptyString))) a →
replace_first (String p0 (String p1 (String p2 (String ":" EmptyString))))
  rep (a +:+ ":" +:+ f) = a +:+ ":" +:+ f.
Proof.
intros Ha Hf. induction a as [|c a IH]; intros Hend.
- rewrite app_nil_l, app_cons, app_nil_l, replace_first_cons.
  destruct (String.prefix _ _) eqn:Hp.
  + apply prefix4_inv in Hp as [r Hr]. simplify_eq.
    simpl in Hf. repeat (destruct (Ascii.eqb _ ":"); try done).
  + f_equal. by apply replace_first_no_colon.
- apply occurs_cons_false in Ha as [Hc Ha].
  rewrite !app_cons, replace_first_cons.
  destruct (String.prefix _ _) eqn:Hp.
  + exfalso. apply prefix4_inv in Hp as [r Hr].
    destruct a as [|c1 [|c2 [|c3 a]]]; simpl in Hr; simplify_eq.
    all: try (apply Hend; by exists EmptyString).
    all: simpl in Hf, Ha; repeat (destruct (Ascii.eqb _ ":"); try done).
  + f_equal. apply IH; [done |].
    intros [pre ->]. apply Hend. by exists (String c pre).
Qed.

Lemma ends_withb_spec (suf s : string) :
ends_withb suf s = true ↔ ends_with suf s.
Proof.
split.
- induction s as [|c s IH]; cbn [ends_withb].
  + rewrite orb_false_r. intros ->%String.eqb_eq. by exists EmptyString.
  + intros [->%String.eqb_eq | Hs]%orb_prop; [by exists EmptyString |].
    destruct (IH Hs) as [pre ->]. by exists (String c pre).
- intros [pre ->]. induction pre as [|c pre IH].
  + rewrite app_nil_l. destruct suf; cbn [ends_withb]; by rewrite String.eqb_refl.
  + rewrite app_cons. cbn [ends_withb]. rewrite IH. apply orb_true_r.
Qed.

Lemma ends_withb_false (suf s : string) :
ends_withb suf s = false → ¬ ends_with suf s.
Proof. intros Hb Hs%ends_withb_spec. congruence. Qed.

(** The last three code units of a string are determined by it. *)
Lemma app_suffix3_inj x0 x1 x2 y0 y1 y2 (a b : string) :
a +:+ String x0 (String x1 (String x2 EmptyString))
= b +:+ String y0 (String y1 (String y2 EmptyString)) →
a = b ∧ x0 = y0 ∧ x1 = y1 ∧ x2 = y2.
Proof.
revert b. induction a as [|c a IH]; intros b Heq.
- destruct b as [|b0 [|b1 [|b2 [|b3 b]]]]; simpl in Heq; by simplify_eq.
- destruct b as [|d b].
  + destruct a as [|a0 [|a1 [|a2 a]]]; simpl in Heq; by simplify_eq.
  + rewrite !app_cons in Heq. simplify_eq.
    destruct (IH b) as (-> & ? & ? & ?); done.
Qed.

Lemma prefix1_cons p c (s : string) :
String.prefix (String p EmptyString) (String c s) = Ascii.eqb p c.
Proof.
cbn [String.prefix]. destruct (ascii_dec p c) as [-> | Hne].
- rewrite Ascii.eqb_refl. by destruct s.
- by apply Ascii.eqb_neq in Hne as ->.
Qed.

(** The one-character pattern [":"] first matches at the first colon. *)
Lemma replace_first_colon rep (m f : string) :
occurs ":" m = false →
replace_first ":" rep (m +:+ ":" +:+ f) = m +:+ rep +:+ f.
Proof.
induction m as [|c m IH]; intros Hm.
- by rewrite !app_nil_l, app_cons, app_nil_l, replace_first_cons,
    prefix1_cons.
- apply occurs_cons_false in Hm as [Hc Hm].
  rewrite !app_cons, replace_first_cons, prefix1_cons.
  destruct (Ascii.eqb_spec ":" c) as [<- | _]; [done |].
  f_equal. by apply IH.
Qed.





End StrFacts.

(** ** The identifier transforms on well-formed identifiers *)

Section Transforms.
Import Str StrFacts.

Lemma js_marker : extension_marker Js = marker "j" "s".
Proof. reflexivity. Qed.

Lemma ts_marker : extension_marker Ts = marker "t" "s".
Proof. reflexivity. Qed.

(** The invocation path of a well-formed identifier: the marker becomes a
    colon, whichever extension it names. *)
Lemma identifierToRunPath_well_formed e (m f : string) :
  well_formed e m f →
  identifierToRunPath (make_identifier e m f) = m +:+ ":" +:+ f.
Proof.
  intros (Hm & Hf & Hsingle). unfold identifierToRunPath, make_identifier.
  destruct e.
  - change (replace_first ".ts:" ":"
              (replace_first (marker "j" "s") ":" (m +:+ marker "j" "s" +:+ f))
            = m +:+ ":" +:+ f).
    rewrite replace_first_marker by done.
    apply (replace_first_one_colon "." "t" "s"); [done | done |].
    by apply ends_withb_false, Hsingle.
  - change (extension_marker Ts +:+ f) with (".ts" +:+ ":" +:+ f).
    rewrite <- (StrFacts.app_assoc m).
    rewrite (replace_first_one_colon "." "j" "s" ":" (m +:+ ".ts") f).
    + rewrite (StrFacts.app_assoc m).
      change (replace_first (marker "t" "s") ":" (m +:+ marker "t" "s" +:+ f)
              = m +:+ ":" +:+ f).
      by rewrite replace_first_marker.
    + by rewrite occurs_app, Hm.
    + done.
    + intros [pre Hpre]. by apply app_suffix3_inj in Hpre as (_ & _ & ? & _).
Qed.


(** The marker is put back where the colon is. *)
Lemma runPathToIdentifier_colon e (m f : string) :
  occurs ":" m = false →
  runPathToIdentifier e (m +:+ ":" +:+ f) = make_identifier e m f.
Proof. intros Hm. by apply replace_first_colon. Qed.
End Transforms.

(** The examples of the source comments. *)
Example identifierToApiPath_example :
  identifierToApiPath "namespaceGrants/mutations.js:addNamespaceGrant"
  = "namespaceGrants.mutations.addNamespaceGrant".
Proof. reflexivity. Qed.

Example identifierToRunPath_example :
  identifierToRunPath "namespaceGrants/mutations.js:addNamespaceGrant"
  = "namespaceGrants/mutations:addNamespaceGrant".
Proof. reflexivity. Qed.

(** A module path that ends in [.ts] loses that ending as well. *)
Example identifierToRunPath_second_marker :
  identifierToRunPath "dir/foo.ts.js:fn" = "dir/foo:fn".
Proof. reflexivity. Qed.




(** C2, as the code has it.  [identifierToRunPath] drops the extension and
    nothing else: among well-formed identifiers with the same extension it
    is injective, and [runPathToIdentifier] recovers the identifier from the
    invocation path and the extension. *)
Theorem identifierToRunPath_reversible_given_extension
  (e : Extension) (m f m' f' : string) :
  well_formed e m f → well_formed e m' f' →
  runPathToIdentifier e (identifierToRunPath (make_identifier e m f))
  = make_identifier e m f
  ∧ (identifierToRunPath (make_identifier e m f)
     = identifierToRunPath (make_identifier e m' f') →
     make_identifier e m f = make_identifier e m' f').
Proof.
  intros Hwf Hwf'.
  assert (∀ m f, well_formed e m f →
    runPathToIdentifier e (identifierToRunPath (make_identifier e m f))
    = make_identifier e m f) as Hinv.
  { intros m0 f0 Hwf0. rewrite identifierToRunPath_well_formed by done.
    apply runPathToIdentifier_colon, Hwf0. }
  split; [by apply Hinv |].
  intros Heq. rewrite <- (Hinv m f), <- (Hinv m' f') by done. by rewrite Heq.
Qed.

Lemma identifierToRunPath_reversible_given_extension_witness :
  runPathToIdentifier Js (identifierToRunPath "messages/chat.js:send")
  = "messages/chat.js:send"
  ∧ (identifierToRunPath "messages/chat.js:send"
     = identifierToRunPath "messages/chat.js:send" →
     "messages/chat.js:send" = "messages/chat.js:send").
Proof.
  apply (identifierToRunPath_reversible_given_extension
           Js "messages/chat" "send" "messages/chat" "send").
  - repeat split; reflexivity.
  - repeat split; reflexivity.
Defined.

(** C2 as stated fails: two distinct identifiers share one invocation
    path. *)
Lemma identifierToRunPath_not_injective :
  ¬ (∀ i j : string, i ≠ j → identifierToRunPath i ≠ identifierToRunPath j).
Proof.
  intros Hinj. by apply (Hinj "messages.js:list" "messages.ts:list").
Qed.

(** ** The insertion loop *)

Section Insertion.

Lemma split_nonempty sep (s : string) : Str.split sep s ≠ [].
Proof.
  induction s as [|c s IH]; simpl; [done |].
  destruct (Ascii.eqb c sep); [done |].
  by destruct (Str.split sep s).
Qed.

Lemma parts_of_nonempty (f : FunctionSpec) : parts_of f ≠ [].
Proof. apply split_nonempty. Qed.

Lemma own_get_own_set k k' v ps :
  own_get k' (own_set k v ps) = if decide (k = k') then Some v else own_get k' ps.
Proof.
  induction ps as [|[k0 v0] ps IH]; simpl.
  - destruct (String.eqb_spec k k'); by case_decide.
  - destruct (String.eqb_spec k0 k) as [-> | Hne]; simpl.
    + destruct (String.eqb_spec k k'); by case_decide.
    + rewrite IH. destruct (String.eqb_spec k0 k'); [| done].
      case_decide; congruence.
Qed.

Lemma props_of_with_prop t k v :
  props_of (with_prop t k v) = own_set k v (props_of t).
Proof. by destruct t. Qed.

Lemma kind_at_with_prop_nil t k v :
  kind_at (with_prop t k v) [] = kind_at t [].
Proof. by destruct t. Qed.

Lemma kind_at_nil_is_Some t : ∃ k, kind_at t [] = Some k.
Proof. destruct t; simpl; eauto. Qed.

Lemma kind_at_with_prop_cons t k v k' q :
  kind_at (with_prop t k v) (k' :: q)
  = if decide (k = k') then kind_at v q else kind_at t (k' :: q).
Proof.
  unfold kind_at. simpl. rewrite props_of_with_prop, own_get_own_set.
  by case_decide.
Qed.

Lemma kind_at_cons t k q :
  kind_at t (k :: q)
  = match own_get k (props_of t) with
    | Some v => kind_at v q
    | None => None
    end.
Proof. unfold kind_at. simpl. by destruct (own_get k (props_of t)). Qed.

Lemma kind_at_fresh_leaf l q :
  kind_at (VFunction l []) q = if decide (q = []) then Some (Some l) else None.
Proof. by destruct q. Qed.

Lemma kind_at_fresh_object q :
  kind_at (VObject []) q = if decide (q = []) then Some None else None.
Proof. by destruct q. Qed.

Lemma after_insert_cons k p l q before :
  after_insert (k :: p) l (k :: q) before = after_insert p l q before.
Proof.
  unfold after_insert.
  repeat case_decide; simplify_eq; try done.
  all: exfalso;
    eauto using prefix_cons, prefix_cons_inv_2.
Qed.

Lemma after_insert_cons_ne k k' p l q before :
  k ≠ k' → after_insert (k :: p) l (k' :: q) before = before.
Proof.
  intros Hne. unfold after_insert.
  repeat case_decide; simplify_eq; try done.
  all: exfalso; eauto using prefix_cons_inv_1, eq_sym.
Qed.

Lemma after_insert_nil p l before :
  p ≠ [] → after_insert p l [] before = Some (default None before).
Proof.
  intros Hne. unfold after_insert.
  repeat case_decide; simplify_eq; try done.
  - by apply prefix_nil_inv in H0.
  - exfalso. apply H1, prefix_nil.
Qed.

Lemma set_prop_returns t k v t' :
  set_prop t k v = Returns t' → t' = with_prop t k v.
Proof.
  unfold set_prop. destruct t.
  - destruct (String.eqb k "__proto__"); intros; by simplify_eq.
  - destruct (mem k function_keys); intros; by simplify_eq.
Qed.

Lemma bind_returns {A B} (m : result A) (f : A → result B) b :
  m ≫= f = Returns b → ∃ a, m = Returns a ∧ f a = Returns b.
Proof. destruct m; [eauto | done | done]. Qed.

Lemma insertLeaf_last part leaf t :
  insertLeaf [part] leaf t = set_prop t part leaf.
Proof. reflexivity. Qed.

Lemma insertLeaf_step part rest leaf t :
  rest ≠ [] →
  insertLeaf (part :: rest) leaf t
  = match get_prop t part with
    | Foreign => Unmodelled
    | Found child =>
        child' ← insertLeaf rest leaf child;
        mret (with_prop t part child')
    | Undefined =>
        child' ← insertLeaf rest leaf (VObject []);
        mret (with_prop t part child')
    end.
Proof. by destruct rest. Qed.

(** One step of the walk: the child that is entered is the one found
    under the key, or a new empty object. *)
Lemma insertLeaf_step_inv part rest leaf t t' :
  rest ≠ [] →
  insertLeaf (part :: rest) leaf t = Returns t' →
  ∃ child child',
    insertLeaf rest leaf child = Returns child' ∧
    t' = with_prop t part child' ∧
    (own_get part (props_of t) = Some child ∨
     own_get part (props_of t) = None ∧ child = VObject []).
Proof.
  intros Hrest. rewrite insertLeaf_step by done.
  unfold get_prop. destruct t as [ps | lf ps]; cbn [props_of].
  - destruct (own_get part ps) as [child |].
    + intros (child' & ? & [= <-])%bind_returns.
      eexists _, _. split_and!; eauto.
    + destruct (mem part object_prototype_keys); [done |].
      intros (child' & ? & [= <-])%bind_returns.
      eexists _, _. split_and!; eauto.
  - destruct (mem part function_keys); [done |].
    destruct (own_get part ps) as [child |].
    + intros (child' & ? & [= <-])%bind_returns.
      eexists _, _. split_and!; eauto.
    + intros (child' & ? & [= <-])%bind_returns.
      eexists _, _. split_and!; eauto.
Qed.

Lemma after_insert_fresh_object p l q :
  p ≠ [] →
  after_insert p l q (if decide (q = []) then Some None else None)
  = after_insert p l q None.
Proof.
  intros Hp. unfold after_insert.
  repeat case_decide; simplify_eq; try done.
  all: exfalso; eauto using prefix_nil, prefix_nil_inv.
Qed.

(** What sits at every path after one insertion. *)
Lemma insertLeaf_kind_at p l t t' q :
  p ≠ [] →
  insertLeaf p (VFunction l []) t = Returns t' →
  kind_at t' q = after_insert p l q (kind_at t q).
Proof.
  revert t t' q. induction p as [|part rest IH]; intros t t' q Hne Hins;
    [done |].
  destruct (decide (rest = [])) as [-> | Hrest].
  - rewrite insertLeaf_last in Hins. apply set_prop_returns in Hins as ->.
    destruct q as [|k q].
    + rewrite after_insert_nil, kind_at_with_prop_nil by done.
      by destruct (kind_at_nil_is_Some t) as [kt ->].
    + rewrite kind_at_with_prop_cons. case_decide as Hk.
      * subst k. rewrite after_insert_cons, kind_at_fresh_leaf.
        unfold after_insert. destruct q as [|k' q]; [done |].
        rewrite !decide_False by done.
        rewrite decide_True; [done | apply prefix_nil].
      * by rewrite after_insert_cons_ne.
  - apply insertLeaf_step_inv in Hins
      as (child & child' & Hrec & -> & Hchild); [| done].
    destruct q as [|k q].
    + rewrite after_insert_nil, kind_at_with_prop_nil by done.
      by destruct (kind_at_nil_is_Some t) as [kt ->].
    + rewrite kind_at_with_prop_cons. case_decide as Hk.
      * subst k. rewrite after_insert_cons, (IH _ _ q Hrest Hrec).
        rewrite (kind_at_cons t).
        destruct Hchild as [-> | [-> ->]]; [done |].
        rewrite kind_at_fresh_object. by apply after_insert_fresh_object.
      * by rewrite after_insert_cons_ne.
Qed.

End Insertion.

(** ** The loop over the descriptors *)

Section Loop.
Variable deploymentFlag : string.

Lemma after_all_cons q k f fs :
  after_all deploymentFlag q k (f :: fs)
  = after_all deploymentFlag q
      (after_insert (parts_of f) (leaf_for f deploymentFlag) q k) fs.
Proof. reflexivity. Qed.


Lemma insertAll_kind_at fs t t' q :
  insertAll deploymentFlag fs t = Returns t' →
  kind_at t' q = after_all deploymentFlag q (kind_at t q) fs.
Proof.
  revert t. induction fs as [|f fs IH]; intros t Hall.
  - by injection Hall as <-.
  - cbn [insertAll] in Hall.
    apply bind_returns in Hall as (t1 & Hone & Hrest).
    rewrite after_all_cons.
    rewrite <- (insertLeaf_kind_at _ _ _ _ q (parts_of_nonempty f) Hone).
    by apply IH.
Qed.

Lemma get_prop_ordinary t k : ordinary k → get_prop t k ≠ Foreign.
Proof.
  unfold ordinary, reserved_keys, function_keys, mem.
  rewrite !existsb_app, !orb_false_iff. intros (_ & Hfn & Hobj).
  unfold get_prop, function_keys, mem. destruct t as [ps | l ps].
  - rewrite Hobj. by destruct (own_get k ps).
  - rewrite existsb_app, Hfn, Hobj. by destruct (own_get k ps).
Qed.

Lemma set_prop_ordinary t k v :
  ordinary k → set_prop t k v = Returns (with_prop t k v).
Proof.
  unfold ordinary, reserved_keys, function_keys, mem.
  rewrite !existsb_app, !orb_false_iff. intros (_ & Hfn & Hobj).
  unfold set_prop, function_keys, mem. destruct t as [ps | l ps].
  - destruct (String.eqb_spec k "__proto__") as [-> | _]; [done | done].
  - by rewrite existsb_app, Hfn, Hobj.
Qed.

(** The walk stays inside the tree when the segments are ordinary. *)
Lemma insertLeaf_returns p leaf t :
  p ≠ [] → Forall ordinary p → ∃ t', insertLeaf p leaf t = Returns t'.
Proof.
  revert t. induction p as [|part rest IH]; intros t Hne Hord; [done |].
  apply Forall_cons in Hord as [Hpart Hrest].
  destruct (decide (rest = [])) as [-> | Hrest_ne].
  - rewrite insertLeaf_last, set_prop_ordinary by done. eauto.
  - rewrite insertLeaf_step by done.
    pose proof (get_prop_ordinary t part Hpart) as Hget.
    destruct (get_prop t part) as [child | |]; [| | done].
    + destruct (IH child Hrest_ne Hrest) as [child' ->]. simpl. eauto.
    + destruct (IH (VObject []) Hrest_ne Hrest) as [child' ->]. simpl. eauto.
Qed.

Lemma insertAll_returns fs t :
  ordinary_paths fs → ∃ t', insertAll deploymentFlag fs t = Returns t'.
Proof.
  revert t. induction fs as [|f fs IH]; intros t Hord; [simpl; eauto |].
  apply Forall_cons in Hord as [Hf Hfs]. cbn [insertAll].
  destruct (insertLeaf_returns (parts_of f)
              (createFunctionProxy f deploymentFlag) t) as [t1 ->];
    [apply parts_of_nonempty | done |].
  simpl. by apply IH.
Qed.



(** Every leaf of the tree comes from a descriptor that was inserted at
    its path. *)
Lemma after_all_origin q k fs l :
  after_all deploymentFlag q k fs = Some (Some l) →
  k = Some (Some l) ∨
  ∃ f, f ∈ fs ∧ l = leaf_for f deploymentFlag ∧ parts_of f = q.
Proof.
  revert k. induction fs as [|f fs IH]; intros k Hall; [by left |].
  rewrite after_all_cons in Hall.
  apply IH in Hall as [Hstep | (f' & Hin & Hl & Hq)].
  - unfold after_insert in Hstep. repeat case_decide; simplify_eq.
    + right. exists f. split_and!; [left | done | done].
    + destruct k as [[?|]|]; simplify_eq/=. by left.
    + by left.
  - right. exists f'. split_and!; [by right | done | done].
Qed.

End Loop.

(** ** Insertion order *)

Section Order.
Variable deploymentFlag : string.





End Order.

(** ** Lookups through the proxies *)

Section Navigation.

Lemma node_at_app t a b :
  node_at t (a ++ b) = node_at t a ≫= λ v, node_at v b.
Proof.
  revert t. induction a as [|k a IH]; intros t; simpl; [done |].
  destruct (own_get k (props_of t)) as [v |]; simpl; [apply IH | done].
Qed.

Lemma node_at_snoc t a k :
  node_at t (a ++ [k]) = node_at t a ≫= λ v, own_get k (props_of v).
Proof.
  rewrite node_at_app. destruct (node_at t a) as [v |]; simpl; [| done].
  by destruct (own_get k (props_of v)).
Qed.

Lemma get_prop_found obj k v :
  ordinary k → own_get k (props_of obj) = Some v → get_prop obj k = Found v.
Proof.
  unfold ordinary, reserved_keys, mem. rewrite existsb_app, orb_false_iff.
  intros [_ Hfn] Hv. unfold get_prop, mem.
  destruct obj as [ps | l ps]; cbn [props_of] in Hv; by rewrite ?Hfn, Hv.
Qed.

Lemma ordinary_not_hidden k : ordinary k → mem k hidden_keys = false.
Proof.
  unfold ordinary, reserved_keys, function_keys, object_prototype_keys,
    hidden_keys, mem.
  cbn [existsb app]. rewrite !orb_false_iff. tauto.
Qed.

Lemma createProxy_tree inst a :
  tree (createProxy inst a).2 = tree inst.
Proof. unfold createProxy. by destruct (proxyCache inst !! a). Qed.

Lemma createProxy_denotes inst a : denotes (createProxy inst a).1 a.
Proof. unfold createProxy. by destruct (proxyCache inst !! a). Qed.

(** A read never changes the tree. *)
Lemma get_tree inst r k r' inst' :
  get inst r k = Returns (r', inst') → tree inst' = tree inst.
Proof.
  destruct r as [id target | a | a |]; simpl; [| | | done].
  - unfold proxy_get. destruct (mem k hidden_keys); [by intros [= _ <-] |].
    destruct (node_at (tree inst) target) as [obj |]; [| done].
    destruct (get_prop obj k) as [[ps | l ps] | |]; intros Heq;
      simplify_eq; try done.
    pose proof (createProxy_tree inst (target ++ [k])) as Htree.
    by rewrite Heq in Htree.
  - intros (r1 & _ & Heq)%bind_returns. by injection Heq as <- <-.
  - intros (r1 & _ & Heq)%bind_returns. by injection Heq as <- <-.
Qed.

Lemma navigate_tree inst r path r' inst' :
  navigate inst r path = Returns (r', inst') → tree inst' = tree inst.
Proof.
  revert inst r. induction path as [|k path IH]; intros inst r.
  - intros Heq. by injection Heq as <- <-.
  - cbn [navigate]. intros ([r1 inst1] & Hget & Hnav)%bind_returns.
    apply IH in Hnav. apply get_tree in Hget. simpl in Hnav. congruence.
Qed.

(** A read of an ordinary key that exists returns a reference to the
    child, a leaf as the function itself. *)
Lemma get_ordinary inst r a k v :
  denotes r a → ordinary k →
  node_at (tree inst) (a ++ [k]) = Some v →
  ∃ r' inst',
    get inst r k = Returns (r', inst') ∧ denotes r' (a ++ [k]) ∧
    (∀ l ps, v = VFunction l ps → r' = RFunction (a ++ [k])).
Proof.
  intros Hr Hk. rewrite node_at_snoc.
  destruct (node_at (tree inst) a) as [obj |] eqn:Hobj; [| done].
  simpl. intros Hv. pose proof (get_prop_found obj k v Hk Hv) as Hget.
  destruct r as [id target | b | b |]; simpl in Hr; [| | | done]; subst.
  - simpl. unfold proxy_get.
    rewrite ordinary_not_hidden, Hobj, Hget by done.
    destruct v as [ps | l ps].
    + eexists _, _. split; [by rewrite <- surjective_pairing |].
      split; [apply createProxy_denotes | done].
    + eexists _, _. split_and!; [done | done |]. by intros.
  - simpl. unfold raw_get. rewrite Hobj, Hget.
    destruct v as [ps | l ps]; simpl;
      eexists _, _; split_and!; try done; by intros.
  - simpl. unfold raw_get. rewrite Hobj, Hget.
    destruct v as [ps | l ps]; simpl;
      eexists _, _; split_and!; try done; by intros.
Qed.

(** The lookup of an existing path of ordinary keys ends at the object of
    that path, a leaf as the function itself. *)
Lemma navigate_ordinary inst r a path v :
  denotes r a → Forall ordinary path →
  node_at (tree inst) (a ++ path) = Some v →
  ∃ r' inst',
    navigate inst r path = Returns (r', inst') ∧
    denotes r' (a ++ path) ∧
    (path ≠ [] → ∀ l ps, v = VFunction l ps → r' = RFunction (a ++ path)).
Proof.
  revert inst r a. induction path as [|k path IH];
    intros inst r a Hr Hord Hv.
  { exists r, inst. rewrite app_nil_r. by split_and!. }
  apply Forall_cons in Hord as [Hk Hpath].
  assert (∃ child, node_at (tree inst) (a ++ [k]) = Some child)
    as [child Hchild].
  { rewrite (cons_middle k a path), app_assoc in Hv.
    rewrite node_at_app in Hv.
    destruct (node_at (tree inst) (a ++ [k])); [eauto | done]. }
  destruct (get_ordinary inst r a k child Hr Hk Hchild)
    as (r1 & inst1 & Hget & Hr1 & Hleaf).
  cbn [navigate]. rewrite Hget. simpl.
  rewrite (cons_middle k a path), app_assoc in Hv |- *.
  destruct (IH inst1 r1 (a ++ [k])) as (r' & inst' & Hnav & Hr' & Hfn);
    [done | done | by rewrite (get_tree _ _ _ _ _ Hget) |].
  exists r', inst'. split_and!; [done | done |].
  intros _ l ps ->. destruct (decide (path = [])) as [-> | Hne].
  - rewrite app_nil_r in *. injection Hnav as <- <-.
    rewrite Hchild in Hv. injection Hv as ->. eauto.
  - eauto.
Qed.

(** *** The proxy cache *)

Lemma extends_refl inst : extends inst inst.
Proof. by split. Qed.

Lemma extends_trans inst1 inst2 inst3 :
  extends inst1 inst2 → extends inst2 inst3 → extends inst1 inst3.
Proof.
  intros [Ht1 Hc1] [Ht2 Hc2]. split; [congruence | by etrans].
Qed.

(** Once [createProxy] has answered for an object, it gives the same
    answer in every later state, and makes no new proxy. *)
Lemma createProxy_stable inst a r inst' :
  createProxy inst a = (r, inst') →
  extends inst inst' ∧
  ∀ inst'', extends inst' inst'' → createProxy inst'' a = (r, inst'').
Proof.
  unfold createProxy.
  destruct (proxyCache inst !! a) as [cached |] eqn:Hcache;
    intros Heq; simplify_eq.
  - split; [apply extends_refl |]. intros inst'' [_ Hsub].
    by rewrite (lookup_weaken _ _ _ _ Hcache Hsub).
  - split; [split; [done | by apply insert_subseteq] |].
    intros inst'' [_ Hsub]. simpl in Hsub.
    by rewrite (lookup_weaken _ _ a (allocated inst)
                  (lookup_insert_eq _ _ _) Hsub).
Qed.

Lemma get_stable inst r k r' inst' :
  get inst r k = Returns (r', inst') →
  extends inst inst' ∧
  ∀ inst'', extends inst' inst'' → get inst'' r k = Returns (r', inst'').
Proof.
  destruct r as [id target | a | a |]; simpl; [| | | done].
  - unfold proxy_get. destruct (mem k hidden_keys).
    { intros Heq. injection Heq as <- <-.
      split; [apply extends_refl | done]. }
    destruct (node_at (tree inst) target) as [obj |] eqn:Hobj; [| done].
    destruct (get_prop obj k) as [[ps | l ps] | |] eqn:Hget;
      intros Heq; simplify_eq.
    + apply createProxy_stable in Heq as [Hext Hlater].
      split; [done |]. intros inst'' Hext''.
      destruct (extends_trans _ _ _ Hext Hext'') as [-> _].
      by rewrite Hobj, Hget, (Hlater inst'' Hext'').
    + split; [apply extends_refl |]. intros inst'' [-> _].
      by rewrite Hobj, Hget.
    + split; [apply extends_refl |]. intros inst'' [-> _].
      by rewrite Hobj, Hget.
  - intros (r1 & Hraw & Heq)%bind_returns. injection Heq as <- <-.
    split; [apply extends_refl |]. intros inst'' [Htree _].
    unfold raw_get in *. rewrite Htree. by rewrite Hraw.
  - intros (r1 & Hraw & Heq)%bind_returns. injection Heq as <- <-.
    split; [apply extends_refl |]. intros inst'' [Htree _].
    unfold raw_get in *. rewrite Htree. by rewrite Hraw.
Qed.

(** A lookup that has returned returns the same reference in every later
    state of the instance, and leaves that state as it is. *)
Lemma navigate_stable inst r path r' inst' :
  navigate inst r path = Returns (r', inst') →
  extends inst inst' ∧
  ∀ inst'', extends inst' inst'' →
    navigate inst'' r path = Returns (r', inst'').
Proof.
  revert inst r. induction path as [|k path IH]; intros inst r.
  - intros Heq. injection Heq as <- <-. split; [apply extends_refl | done].
  - cbn [navigate]. intros ([r1 inst1] & Hget & Hnav)%bind_returns.
    apply get_stable in Hget as [Hext1 Hget].
    apply IH in Hnav as [Hext2 Hnav]. simpl in *.
    split; [by eapply extends_trans |].
    intros inst'' Hext''.
    rewrite (Hget inst'') by (by eapply extends_trans). simpl.
    by apply Hnav.
Qed.

End Navigation.

(** ** createProxyTree *)

Section Tree.
Variable deploymentFlag : string.

Lemma filter_kind_returns vis fs :
  Forall has_visibility_field fs →
  filter_kind vis fs = Returns (List.filter (has_kind vis) fs).
Proof.
  induction 1 as [|f fs [v Hv] _ IH]; [done |].
  cbn [filter_kind List.filter]. unfold kind_is, has_kind.
  rewrite Hv, IH. simpl. by destruct (strict_eq (kind v) vis).
Qed.

Lemma filter_kind_inv vis fs filtered :
  filter_kind vis fs = Returns filtered →
  filtered = List.filter (has_kind vis) fs.
Proof.
  revert filtered. induction fs as [|f fs IH]; intros filtered.
  - by intros [= <-].
  - cbn [filter_kind List.filter].
    intros (b & Hb & (rest & Hrest & Heq)%bind_returns)%bind_returns.
    injection Heq as <-. rewrite <- (IH rest Hrest).
    unfold kind_is in Hb. unfold has_kind.
    destruct (visibility f); [| done]. by injection Hb as ->.
Qed.

Lemma ordinary_paths_filter (p : FunctionSpec → bool) fs :
  ordinary_paths fs → ordinary_paths (List.filter p fs).
Proof.
  induction 1 as [|f fs Hf _ IH]; simpl; [constructor |].
  destruct (p f); [by constructor | done].
Qed.

Lemma valid_have_visibility fs :
  Forall has_visibility_field (List.filter has_visibility fs).
Proof.
  induction fs as [|f fs IH]; simpl; [constructor |].
  destruct (has_visibility f) eqn:Hf; [| done].
  constructor; [| done]. unfold has_visibility in Hf.
  unfold has_visibility_field. by destruct (visibility f).
Qed.

Lemma createProxyTree_inv fs vis root inst :
  createProxyTree fs vis deploymentFlag = Returns (root, inst) →
  insertAll deploymentFlag (List.filter (has_kind vis) fs) (VObject [])
  = Returns (tree inst)
  ∧ root = RProxy 0 [] ∧ inst = fresh_instance (tree inst).
Proof.
  unfold createProxyTree.
  intros (filtered & Hfilter & (t & Hall & Heq)%bind_returns)%bind_returns.
  apply filter_kind_inv in Hfilter as ->.
  injection Heq as <- <-. by rewrite Hall.
Qed.

(** [createProxyTree] returns when every descriptor has a visibility and
    the path segments are ordinary keys. *)
Lemma createProxyTree_returns fs vis :
  Forall has_visibility_field fs → ordinary_paths fs →
  ∃ t,
    insertAll deploymentFlag (List.filter (has_kind vis) fs) (VObject [])
    = Returns t
    ∧ createProxyTree fs vis deploymentFlag
      = Returns (RProxy 0 [], fresh_instance t).
Proof.
  intros Hvis Hord.
  destruct (insertAll_returns deploymentFlag
              (List.filter (has_kind vis) fs) (VObject [])) as [t Ht];
    [by apply ordinary_paths_filter |].
  exists t. split; [done |].
  unfold createProxyTree. rewrite filter_kind_returns by done. simpl.
  by rewrite Ht.
Qed.

(** What sits at a path of the tree built from [fs]. *)
Lemma built_kind_at fs t q :
  insertAll deploymentFlag fs (VObject []) = Returns t →
  kind_at t q
  = after_all deploymentFlag q (if decide (q = []) then Some None else None) fs.
Proof.
  intros Hall. rewrite (insertAll_kind_at _ _ _ _ q Hall).
  by rewrite kind_at_fresh_object.
Qed.

(** A leaf of the built tree is the leaf of a descriptor of the list,
    at the path of that descriptor. *)
Lemma built_leaf fs t q l :
  insertAll deploymentFlag fs (VObject []) = Returns t →
  kind_at t q = Some (Some l) →
  ∃ f, f ∈ fs ∧ l = leaf_for f deploymentFlag ∧ parts_of f = q.
Proof.
  intros Hall. rewrite (built_kind_at _ _ _ Hall).
  intros [Hk | Hf]%after_all_origin; [| done].
  by case_decide.
Qed.

(** A leaf that a lookup returns sits in the tree. *)
Lemma reaches_kind_at root inst path l :
  reaches (root, inst) path l →
  ∃ a, kind_at (tree inst) a = Some (Some l).
Proof.
  intros (r & inst' & Hnav & Hleaf). simpl in Hnav.
  apply navigate_tree in Hnav. unfold leaf_of in Hleaf.
  destruct r as [| | a |]; try done. exists a. unfold kind_at.
  rewrite <- Hnav.
  destruct (node_at (tree inst') a) as [[ps | l' ps] |]; by simplify_eq.
Qed.


End Tree.

(** ** Claims about createProxyTree *)

(** A leaf written below an earlier leaf, and the same two descriptors in
    the other order. *)
Example insert_below_leaf :
  insertAll EmptyString [Samples.x_a; Samples.x_a_b] (VObject [])
  = Returns
      (VObject
         [("x",
           VObject
             [("a",
               VFunction (leaf_for Samples.x_a EmptyString)
                 [("b", createFunctionProxy Samples.x_a_b EmptyString)])])]).
Proof. reflexivity. Qed.

Example insert_over_namespace :
  insertAll EmptyString [Samples.x_a_b; Samples.x_a] (VObject [])
  = Returns
      (VObject
         [("x", VObject [("a", createFunctionProxy Samples.x_a EmptyString)])]).
Proof. reflexivity. Qed.

(** A segment that names an inherited property leads out of the tree. *)
Example insert_through_prototype :
  insertAll EmptyString
    [Samples.descriptor "toString/a.js:b" Query "public"] (VObject [])
  = Unmodelled.
Proof. reflexivity. Qed.



(** The tree of the two descriptors of [users.list]: the later one is the
    leaf. *)
Example users_list_overwritten :
  insertAll "--prod" [Samples.list_query; Samples.list_mutation] (VObject [])
  = Returns
      (VObject
         [("users",
           VObject
             [("list", createFunctionProxy Samples.list_mutation "--prod")])]).
Proof. reflexivity. Qed.





(** C6.  For every tree instance returned by [createProxyTree], in every
    later state of the instance: a lookup of a sub-path from the root that
    has returned a reference returns the very same reference when it is
    repeated, at once or after other lookups, and makes no new proxy; and
    the lookup of every path of ordinary keys that exists in the tree does
    return a reference to the object at that path. *)
Theorem lookups_are_reference_identical
  (fs : list FunctionSpec) (vis flag : string) (root : ref)
  (inst : TreeInstance) :
  createProxyTree fs vis flag = Returns (root, inst) →
  (∀ inst0 path r inst1,
     extends inst inst0 →
     navigate inst0 root path = Returns (r, inst1) →
     navigate inst1 root path = Returns (r, inst1) ∧
     ∀ inst2, extends inst1 inst2 →
              navigate inst2 root path = Returns (r, inst2)) ∧
  (∀ inst0 path v,
     extends inst inst0 →
     Forall ordinary path → node_at (tree inst) path = Some v →
     ∃ r inst1, navigate inst0 root path = Returns (r, inst1) ∧ denotes r path).
Proof.
  intros (_ & -> & _)%createProxyTree_inv. split.
  - intros inst0 path r inst1 _ Hnav.
    apply navigate_stable in Hnav as [_ Hlater].
    split; [apply Hlater, extends_refl | exact Hlater].
  - intros inst0 path v [Htree _] Hord Hv.
    destruct (navigate_ordinary inst0 (RProxy 0 []) [] path v)
      as (r & inst1 & Hnav & Hr & _); [done | done | by rewrite Htree |].
    eauto.
Qed.

Lemma lookups_are_reference_identical_witness :
  (∀ inst0 path r inst1,
     extends (fresh_instance Samples.admin_tree) inst0 →
     navigate inst0 (RProxy 0 []) path = Returns (r, inst1) →
     navigate inst1 (RProxy 0 []) path = Returns (r, inst1) ∧
     ∀ inst2, extends inst1 inst2 →
              navigate inst2 (RProxy 0 []) path = Returns (r, inst2)) ∧
  (∀ inst0 path v,
     extends (fresh_instance Samples.admin_tree) inst0 →
     Forall ordinary path → node_at Samples.admin_tree path = Some v →
     ∃ r inst1,
       navigate inst0 (RProxy 0 []) path = Returns (r, inst1) ∧
       denotes r path).
Proof.
  apply (lookups_are_reference_identical [Samples.admin_list] "public"
           EmptyString (RProxy 0 []) (fresh_instance Samples.admin_tree)).
  reflexivity.
Defined.

(** Two lookups of [api.admin.users]: the first makes the proxies 1 and 2,
    the second returns proxy 2 again. *)
Example lookup_admin_users_twice :
  ∃ inst1,
    navigate (fresh_instance Samples.admin_tree) (RProxy 0 [])
      ["admin"; "users"] = Returns (RProxy 2 ["admin"; "users"], inst1) ∧
    allocated inst1 = 3 ∧
    navigate inst1 (RProxy 0 []) ["admin"; "users"]
    = Returns (RProxy 2 ["admin"; "users"], inst1).
Proof. eexists. split_and!; reflexivity. Qed.

(** ** update *)

Section UpdateFacts.
Variable execSync : string → Error + string.
Variable JSON_parse : string → Error + ConvexFunctionSpec.
Variable options : UpdateOptions.

(** What [update] does once the spec command has printed a spec whose
    path segments are ordinary keys: both trees are built from the valid
    descriptors and bound. *)
Lemma update_returns g output spec :
  execSync (spec_command options) = inr output →
  JSON_parse output = inr spec →
  ordinary_paths (functions spec) →
  ∃ tapi tint,
    insertAll (deploymentFlag options) (List.filter (has_kind "public") (validFunctions spec))
      (VObject []) = Returns tapi ∧
    insertAll (deploymentFlag options) (List.filter (has_kind "internal") (validFunctions spec))
      (VObject []) = Returns tint ∧
    update execSync JSON_parse options g
    = (summary_lines options spec
         (length (List.filter (has_kind "public") (validFunctions spec)))
         (length (List.filter (has_kind "internal") (validFunctions spec)))
       ++ ready_lines options (label_after g spec),
       Returns {| api := (RProxy 0 [], fresh_instance tapi);
                  internal := (RProxy 0 [], fresh_instance tint);
                  resultDeploymentName := label_after g spec |},
       {| globalThis_api := Some (RProxy 0 [], fresh_instance tapi);
          globalThis_internal := Some (RProxy 0 [], fresh_instance tint);
          deploymentName := label_after g spec |}).
Proof.
  intros Hexec Hparse Hord.
  pose proof (valid_have_visibility (functions spec)) as Hvis.
  assert (ordinary_paths (validFunctions spec)) as Hord'
    by by apply ordinary_paths_filter.
  destruct (createProxyTree_returns (deploymentFlag options) (validFunctions spec) "public"
              Hvis Hord') as (tapi & Hapi & Hcreate_api).
  destruct (createProxyTree_returns (deploymentFlag options) (validFunctions spec) "internal"
              Hvis Hord') as (tint & Hint & Hcreate_int).
  exists tapi, tint. split_and!; [done | done |].
  unfold update. rewrite Hexec, Hparse.
  rewrite !filter_kind_returns by done. cbn [attempt].
  by rewrite Hcreate_api, Hcreate_int.
Qed.

(** A returned [update] has built both trees from the valid
    descriptors. *)
Lemma update_inv g output spec logs r g' :
  execSync (spec_command options) = inr output →
  JSON_parse output = inr spec →
  update execSync JSON_parse options g = (logs, Returns r, g') →
  ∃ tapi tint,
    insertAll (deploymentFlag options)
      (List.filter (has_kind "public") (validFunctions spec))
      (VObject []) = Returns tapi ∧
    insertAll (deploymentFlag options)
      (List.filter (has_kind "internal") (validFunctions spec))
      (VObject []) = Returns tint ∧
    logs = summary_lines options spec
             (length (List.filter (has_kind "public") (validFunctions spec)))
             (length (List.filter (has_kind "internal") (validFunctions spec)))
           ++ ready_lines options (label_after g spec) ∧
    r = {| api := (RProxy 0 [], fresh_instance tapi);
           internal := (RProxy 0 [], fresh_instance tint);
           resultDeploymentName := label_after g spec |} ∧
    g' = {| globalThis_api := Some (RProxy 0 [], fresh_instance tapi);
            globalThis_internal := Some (RProxy 0 [], fresh_instance tint);
            deploymentName := label_after g spec |}.
Proof.
  intros Hexec Hparse. unfold update. rewrite Hexec, Hparse.
  pose proof (valid_have_visibility (functions spec)) as Hvis.
  fold (validFunctions spec) in Hvis.
  rewrite !filter_kind_returns by done. cbn [attempt].
  destruct (createProxyTree (validFunctions spec) "public" _)
    as [[root inst] | |] eqn:Hapi; cbn [attempt]; [| done | done].
  destruct (createProxyTree (validFunctions spec) "internal" _)
    as [[root' inst'] | |] eqn:Hint; cbn [attempt]; [| done | done].
  apply createProxyTree_inv in Hapi as (Hapi & -> & Hinst).
  apply createProxyTree_inv in Hint as (Hint & -> & Hinst').
  intros Heq. injection Heq as <- <- <-.
  exists (tree inst), (tree inst'). rewrite <- Hinst, <- Hinst'.
  by split_and!.
Qed.

(** What [update] does when the spec command or the parse throws. *)
Lemma update_throws g error :
  execSync (spec_command options) = inl error ∨
  (∃ output, execSync (spec_command options) = inr output ∧
             JSON_parse output = inl error) →
  update execSync JSON_parse options g
  = (fetching_line options :: report "Error fetching function specs:" error,
     Throws error, g).
Proof.
  unfold update. intros [-> | (output & -> & ->)]; reflexivity.
Qed.

End UpdateFacts.

Lemma has_kind_visible_as vis f : has_kind vis f = true ↔ visible_as vis f.
Proof.
  unfold has_kind, visible_as. destruct (visibility f) as [[k] |]; simpl.
  - destruct k as [s | b]; simpl.
    + destruct (String.eqb_spec s vis); split; intros; by simplify_eq.
    + split; intros; by simplify_eq.
  - split; intros; by simplify_eq.
Qed.

(** A descriptor bound in a tree built for a visibility is one of the
    descriptors of that visibility. *)
Lemma bound_in_built flag fs vis t f :
  insertAll flag (List.filter (has_kind vis) fs) (VObject []) = Returns t →
  bound_in (RProxy 0 [], fresh_instance t) f →
  f ∈ fs ∧ visible_as vis f.
Proof.
  intros Hall (path & l & Hreach & Hspec).
  apply reaches_kind_at in Hreach as [a Hkind]. simpl in Hkind.
  apply (built_leaf _ _ _ _ _ Hall) in Hkind as (f' & Hin & -> & _).
  simpl in Hspec. subst f'.
  apply list_elem_of_In, filter_In in Hin as [Hin Hkind].
  split; [by apply list_elem_of_In | by apply has_kind_visible_as].
Qed.

(** ** Claims about update *)






(** C4.  Whatever the trees were: when the spec command fails (it exits
    with a status other than zero, so that [execSync] throws) or its output
    does not parse, [update] throws that very error, reports its message,
    and leaves the module state, hence [api] and [internal], as it was. *)
Theorem update_failure_keeps_trees
  (execSync : string → Error + string)
  (JSON_parse : string → Error + ConvexFunctionSpec)
  (options : UpdateOptions) (g : Globals) (error : Error) :
  execSync (spec_command options) = inl error ∨
  (∃ output, execSync (spec_command options) = inr output ∧
             JSON_parse output = inl error) →
  ∃ logs g',
    update execSync JSON_parse options g = (logs, Throws error, g') ∧
    LogError ("Error fetching function specs: " +:+ message error) ∈ logs ∧
    g' = g ∧
    globalThis_api g' = globalThis_api g ∧
    globalThis_internal g' = globalThis_internal g.
Proof.
  intros Hfail. eexists _, _.
  split; [by apply update_throws |].
  split_and!; [| done | done | done].
  right. left.
Qed.

Lemma update_failure_keeps_trees_witness :
  ∃ logs g',
    update Samples.exits_non_zero (Samples.reads_as Samples.mixed_spec)
      Samples.options Samples.loaded_globals
    = (logs, Throws Samples.exit_1, g') ∧
    LogError ("Error fetching function specs: " +:+ message Samples.exit_1)
      ∈ logs ∧
    g' = Samples.loaded_globals ∧
    globalThis_api g' = globalThis_api Samples.loaded_globals ∧
    globalThis_internal g' = globalThis_internal Samples.loaded_globals.
Proof.
  apply (update_failure_keeps_trees Samples.exits_non_zero
           (Samples.reads_as Samples.mixed_spec) Samples.options
           Samples.loaded_globals Samples.exit_1).
  left. reflexivity.
Defined.

(** The same for output that is not JSON. *)
Example update_invalid_json_keeps_trees :
  (update (Samples.prints "oops") Samples.not_json Samples.options
     Samples.loaded_globals).2 = Samples.loaded_globals
  ∧ (update (Samples.prints "oops") Samples.not_json Samples.options
       Samples.loaded_globals).1.2 = Throws Samples.syntax_error.
Proof. split; reflexivity. Qed.

(** ** The deployment label *)

Section Label.
Import Str StrFacts.
#[local] Arguments String.append : simpl nomatch.

Lemma url_match_unfold (s : string) :
  url_match s
  = match match_here s with
    | Some label => Some label
    | None =>
        match s with
        | EmptyString => None
        | String _ s' => url_match s'
        end
    end.
Proof. by destruct s. Qed.

Lemma before_dot_label (label rest : string) :
  occurs "." label = false →
  before_dot (label +:+ "." +:+ rest) = Some label.
Proof.
  induction label as [|c label IH]; intros Hdot; [done |].
  apply occurs_cons_false in Hdot as [Hc Hdot].
  rewrite app_cons. cbn [before_dot].
  apply Ascii.eqb_neq in Hc as ->. by rewrite IH.
Qed.

Lemma capture_label (label rest : string) :
  label ≠ EmptyString → occurs "." label = false →
  capture (label +:+ "." +:+ rest) = Some label.
Proof.
  intros Hne Hdot. unfold capture. rewrite before_dot_label by done.
  by destruct label.
Qed.

(** The pattern matches a URL of the form [scheme://label.rest] at its
    start, and captures the label. *)
Lemma url_match_label (scheme label rest : string) :
  scheme = "http" ∨ scheme = "https" →
  label ≠ EmptyString → occurs "." label = false →
  url_match (deployment_url scheme label rest) = Some label.
Proof.
  intros Hscheme Hne Hdot. rewrite url_match_unfold.
  pose proof (capture_label label rest Hne Hdot) as Hcapture.
  unfold deployment_url, match_here.
  destruct Hscheme as [-> | ->].
  - change ("http" +:+ "://" +:+ label +:+ "." +:+ rest)
      with ("http://" +:+ (label +:+ "." +:+ rest)).
    replace (String.prefix "https://" _) with false
      by (symmetry; apply not_true_is_false;
          by intros [r Hr]%prefix8_inv).
    rewrite prefix_app.
    change 7 with (String.length "http://"). by rewrite drop_app, Hcapture.
  - change ("https" +:+ "://" +:+ label +:+ "." +:+ rest)
      with ("https://" +:+ (label +:+ "." +:+ rest)).
    rewrite prefix_app.
    change 8 with (String.length "https://"). by rewrite drop_app, Hcapture.
Qed.
End Label.

(** C9, as the code has it.  After a successful [update] the deployment
    label is the capture group of the pattern: for a URL
    [scheme://label.rest] with scheme [http] or [https] and a label that is
    not empty and holds no dot, it is [label].  When the pattern does not
    match, the label keeps the value it had before the call; that value is
    the placeholder ["unknown"] as long as no earlier call has matched.
    [update] returns when the spec command has printed a spec whose path
    segments are ordinary keys. *)
Theorem update_deployment_label
  (execSync : string → Error + string)
  (JSON_parse : string → Error + ConvexFunctionSpec)
  (options : UpdateOptions) (g : Globals)
  (output : string) (spec : ConvexFunctionSpec) :
  execSync (spec_command options) = inr output →
  JSON_parse output = inr spec →
  (ordinary_paths (functions spec) →
   ∃ logs r g', update execSync JSON_parse options g = (logs, Returns r, g')) ∧
  (∀ logs r g',
     update execSync JSON_parse options g = (logs, Returns r, g') →
     deploymentName g' = resultDeploymentName r ∧
     (∀ scheme label rest,
        scheme = "http" ∨ scheme = "https" →
        label ≠ EmptyString → Str.occurs "." label = false →
        url spec = deployment_url scheme label rest →
        resultDeploymentName r = label) ∧
     (url_match (url spec) = None →
      resultDeploymentName r = deploymentName g ∧
      (g = initial_globals → resultDeploymentName r = "unknown"))).
Proof.
  intros Hexec Hparse. split.
  { intros Hord.
    destruct (update_returns execSync JSON_parse options g output spec
                Hexec Hparse Hord) as (tapi & tint & _ & _ & Hupdate).
    eauto. }
  intros logs r g' Hupdate.
  destruct (update_inv execSync JSON_parse options g output spec logs r g'
              Hexec Hparse Hupdate) as (tapi & tint & _ & _ & _ & -> & ->).
  cbn [deploymentName resultDeploymentName]. split_and!; [done | |].
  - intros scheme label rest Hscheme Hne Hdot Hurl.
    unfold label_after. by rewrite Hurl, url_match_label.
  - intros Hnone. unfold label_after. rewrite Hnone.
    split; [done | by intros ->].
Qed.

Lemma update_deployment_label_witness :
  (ordinary_paths (functions Samples.mixed_spec) →
   ∃ logs r g',
     update (Samples.prints "{...}") (Samples.reads_as Samples.mixed_spec)
       Samples.options initial_globals = (logs, Returns r, g')) ∧
  (∀ logs r g',
     update (Samples.prints "{...}") (Samples.reads_as Samples.mixed_spec)
       Samples.options initial_globals = (logs, Returns r, g') →
     deploymentName g' = resultDeploymentName r ∧
     (∀ scheme label rest,
        scheme = "http" ∨ scheme = "https" →
        label ≠ EmptyString → Str.occurs "." label = false →
        url Samples.mixed_spec = deployment_url scheme label rest →
        resultDeploymentName r = label) ∧
     (url_match (url Samples.mixed_spec) = None →
      resultDeploymentName r = deploymentName initial_globals ∧
      (initial_globals = initial_globals →
       resultDeploymentName r = "unknown"))).
Proof.
  apply (update_deployment_label
           (Samples.prints "{...}") (Samples.reads_as Samples.mixed_spec)
           Samples.options initial_globals "{...}" Samples.mixed_spec).
  - reflexivity.
  - reflexivity.
Defined.

(** The label of the sample deployment, and of the first update. *)
Example frugal_fox_label :
  url Samples.mixed_spec = deployment_url "https" "frugal-fox-192" "convex.cloud"
  ∧ label_after initial_globals Samples.mixed_spec = "frugal-fox-192"
  ∧ label_after initial_globals Samples.local_spec = "unknown".
Proof. split_and!; reflexivity. Qed.

Example deployment_label_of_comment :
  url_match "https://frugal-fox-192.convex.cloud" = Some "frugal-fox-192".
Proof. reflexivity. Qed.

(** C9 as stated fails: after an update that matched, an update whose URL
    does not match keeps the earlier label instead of the placeholder. *)
Lemma update_keeps_stale_label :
  ¬ (∀ execSync JSON_parse options g output spec logs r g',
       execSync (spec_command options) = inr output →
       JSON_parse output = inr spec →
       update execSync JSON_parse options g = (logs, Returns r, g') →
       url_match (url spec) = None →
       resultDeploymentName r = "unknown").
Proof.
  intros Hclaim.
  destruct (update_returns (Samples.prints "{...}")
              (Samples.reads_as Samples.mixed_spec) Samples.options
              initial_globals "{...}" Samples.mixed_spec)
    as (tapi & tint & _ & _ & Hfirst);
    [reflexivity | reflexivity | repeat constructor |].
  set (g1 := (update (Samples.prints "{...}")
                (Samples.reads_as Samples.mixed_spec) Samples.options
                initial_globals).2).
  assert (deploymentName g1 = "frugal-fox-192") as Hname
    by (unfold g1; by rewrite Hfirst).
  destruct (update_returns (Samples.prints "{...}")
              (Samples.reads_as Samples.local_spec) Samples.options
              g1 "{...}" Samples.local_spec)
    as (tapi' & tint' & _ & _ & Hsecond);
    [reflexivity | reflexivity | constructor |].
  specialize (Hclaim _ _ _ _ _ _ _ _ _ eq_refl eq_refl Hsecond eq_refl).
  cbn [resultDeploymentName] in Hclaim. unfold label_after in Hclaim.
  change (url_match (url Samples.local_spec)) with (@None string) in Hclaim.
  rewrite Hname in Hclaim. discriminate Hclaim.
Qed.

(** ** Descriptors of another kind *)

Lemma filter_length_complement {A} (p : A → bool) (l : list A) :
  length l - length (List.filter p l)
  = length (List.filter (λ x, negb (p x)) l).
Proof.
  assert (length (List.filter p l)
          + length (List.filter (λ x, negb (p x)) l) = length l) as Hsum.
  { induction l as [|x l IH]; simpl; [done |].
    destruct (p x); simpl; lia. }
  lia.
Qed.

Lemma invalidCount_without_visibility spec :
  invalidCount spec = without_visibility (functions spec).
Proof. apply filter_length_complement. Qed.

Lemma neither_kind_has_visibility f :
  neither_kind f → has_visibility f = true.
Proof. intros (v & Hv & Htruthy & _). unfold has_visibility. by rewrite Hv. Qed.

Lemma without_visibility_app fs1 fs2 :
  without_visibility (fs1 ++ fs2)
  = without_visibility fs1 + without_visibility fs2.
Proof. unfold without_visibility. by rewrite List.filter_app, length_app. Qed.

Lemma without_visibility_cons f fs :
  without_visibility (f :: fs)
  = (if has_visibility f then 0 else 1) + without_visibility fs.
Proof.
  unfold without_visibility. cbn [List.filter].
  by destruct (has_visibility f).
Qed.

(** C10.  A descriptor whose visibility has a truthy kind that is neither
    ["public"] nor ["internal"] is bound in neither tree, and the skipped
    count that [update] reports is the number of the other descriptors that
    fail the visibility test: it does not include this descriptor, whereas
    a descriptor without visibility in its place adds one to the count.
    [update] returns when the spec command has printed a spec whose path
    segments are ordinary keys. *)
Theorem other_kind_vanishes_uncounted
  (execSync : string → Error + string)
  (JSON_parse : string → Error + ConvexFunctionSpec)
  (options : UpdateOptions) (g : Globals)
  (output : string) (spec : ConvexFunctionSpec)
  (before : list FunctionSpec) (f : FunctionSpec) (after : list FunctionSpec) :
  execSync (spec_command options) = inr output →
  JSON_parse output = inr spec →
  functions spec = before ++ f :: after →
  neither_kind f →
  (ordinary_paths (functions spec) →
   ∃ logs r g', update execSync JSON_parse options g = (logs, Returns r, g')) ∧
  (∀ logs r g',
     update execSync JSON_parse options g = (logs, Returns r, g') →
     (∃ publicCount internalCount : nat,
        logs = heading_lines options spec ++
               skipped_lines (invalidCount spec) ++
               [Log ("  - " +:+ pretty publicCount
                     +:+ " public functions (api)");
                Log ("  - " +:+ pretty internalCount
                     +:+ " internal functions (internal)")] ++
               ready_lines options (label_after g spec)) ∧
     ¬ bound_in (api r) f ∧ ¬ bound_in (internal r) f) ∧
  invalidCount spec = without_visibility (before ++ after) ∧
  (∀ f0, visibility f0 = None →
     invalidCount {| url := url spec; functions := before ++ f0 :: after |}
     = S (without_visibility (before ++ after))).
Proof.
  intros Hexec Hparse Hsplit (v & Hv & Htruthy & Hpublic & Hinternal).
  split_and!.
  - intros Hord.
    destruct (update_returns execSync JSON_parse options g output spec
                Hexec Hparse Hord) as (tapi & tint & _ & _ & Hupdate).
    eauto.
  - intros logs r g' Hupdate.
    destruct (update_inv execSync JSON_parse options g output spec logs r g'
                Hexec Hparse Hupdate)
      as (tapi & tint & Hapi & Hint & -> & -> & _).
    cbn [api internal]. split_and!.
    + eexists _, _. unfold summary_lines. by rewrite <- !app_assoc.
    + intros [_ Hkind%has_kind_visible_as]%(bound_in_built _ _ _ _ _ Hapi).
      unfold has_kind in Hkind. rewrite Hv in Hkind. congruence.
    + intros [_ Hkind%has_kind_visible_as]%(bound_in_built _ _ _ _ _ Hint).
      unfold has_kind in Hkind. rewrite Hv in Hkind. congruence.
  - rewrite invalidCount_without_visibility, Hsplit.
    rewrite !without_visibility_app, without_visibility_cons.
    by rewrite (neither_kind_has_visibility f) by (by exists v).
  - intros f0 Hf0. rewrite invalidCount_without_visibility. cbn [functions].
    rewrite !without_visibility_app, without_visibility_cons.
    unfold has_visibility. rewrite Hf0. lia.
Qed.

Lemma other_kind_vanishes_uncounted_witness :
  (ordinary_paths (functions Samples.mixed_spec) →
   ∃ logs r g',
     update (Samples.prints "{...}") (Samples.reads_as Samples.mixed_spec)
       Samples.options initial_globals = (logs, Returns r, g')) ∧
  (∀ logs r g',
     update (Samples.prints "{...}") (Samples.reads_as Samples.mixed_spec)
       Samples.options initial_globals = (logs, Returns r, g') →
     (∃ publicCount internalCount : nat,
        logs = heading_lines Samples.options Samples.mixed_spec ++
               skipped_lines (invalidCount Samples.mixed_spec) ++
               [Log ("  - " +:+ pretty publicCount
                     +:+ " public functions (api)");
                Log ("  - " +:+ pretty internalCount
                     +:+ " internal functions (internal)")] ++
               ready_lines Samples.options
                 (label_after initial_globals Samples.mixed_spec)) ∧
     ¬ bound_in (api r) Samples.odd_kind ∧
     ¬ bound_in (internal r) Samples.odd_kind) ∧
  invalidCount Samples.mixed_spec
  = without_visibility
      ([Samples.list_query] ++ [Samples.no_visibility; Samples.get_internal]) ∧
  (∀ f0, visibility f0 = None →
     invalidCount
       {| url := url Samples.mixed_spec;
          functions := [Samples.list_query] ++
                       f0 :: [Samples.no_visibility; Samples.get_internal] |}
     = S (without_visibility
            ([Samples.list_query] ++
             [Samples.no_visibility; Samples.get_internal]))).
Proof.
  apply (other_kind_vanishes_uncounted
           (Samples.prints "{...}") (Samples.reads_as Samples.mixed_spec)
           Samples.options initial_globals "{...}" Samples.mixed_spec
           [Samples.list_query] Samples.odd_kind
           [Samples.no_visibility; Samples.get_internal]).
  - reflexivity.
  - reflexivity.
  - reflexivity.
  - eexists. split_and!; reflexivity.
Defined.

(** The lines the update of the sample spec prints: one skipped entry, the
    descriptor without visibility; the descriptor of another kind is in no
    count. *)
Example mixed_spec_lines :
  (update (Samples.prints "{...}") (Samples.reads_as Samples.mixed_spec)
     Samples.options initial_globals).1.1
  = [Log "Fetching function specs from Convex (dev)...";
     Log "Loaded 4 functions from https://frugal-fox-192.convex.cloud";
     Log "  (skipped 1 functions without visibility information)";
     Log "  - 1 public functions (api)";
     Log "  - 1 internal functions (internal)";
     Log (newline +:+ "Ready! Type help() for usage information or use Tab for autocomplete." +:+ newline)].
Proof. reflexivity. Qed.

(** The sample spec holds one descriptor of another kind and one without
    visibility: one skipped entry is reported. *)
Example mixed_spec_skipped_line :
  skipped_lines (invalidCount Samples.mixed_spec)
  = [Log "  (skipped 1 functions without visibility information)"].
Proof. reflexivity. Qed.

(** ** Calling a leaf *)

(** *** White space *)

Section Trim.
Import Str StrFacts StrMore.
#[local] Arguments String.append : simpl nomatch.

Lemma trim_start_spec (s : string) :
∃ pre, s = pre +:+ trim_start s ∧ all_space pre = true ∧
       not_space (first_char (trim_start s)).
Proof.
induction s as [|c s (pre & Hs & Hpre & Hfirst)]; [by exists EmptyString |].
cbn [trim_start]. destruct (is_space c) eqn:Hc.
- exists (String c pre). rewrite app_cons, <- Hs. simpl. by rewrite Hc.
- by exists EmptyString.
Qed.

Lemma trim_end_cons c (s : string) :
trim_end (String c s)
= match trim_end s with
  | EmptyString => if is_space c then EmptyString else String c EmptyString
  | String d t => String c (String d t)
  end.
Proof. reflexivity. Qed.

Lemma trim_end_spec (s : string) :
∃ post, s = trim_end s +:+ post ∧ all_space post = true ∧
        not_space (last_char (trim_end s)).
Proof.
induction s as [|c s (post & Hs & Hpost & Hlast)]; [by exists EmptyString |].
rewrite trim_end_cons. destruct (trim_end s) as [|d t] eqn:Ht.
- rewrite app_nil_l in Hs. subst post. destruct (is_space c) eqn:Hc.
  + exists (String c s). simpl. by rewrite Hc.
  + exists s. by split_and!.
- exists post. rewrite app_cons, <- Hs. split_and!; [done | done |].
  cbn [last_char] in *. by destruct (last_char t).
Qed.

Lemma trim_end_first (s : string) :
not_space (first_char s) → not_space (first_char (trim_end s)).
Proof.
destruct s as [|c s]; [done |]. rewrite trim_end_cons. simpl. intros Hc.
destruct (trim_end s); [by rewrite Hc | done].
Qed.

(** [trim] removes white space at both ends and nothing else. *)
Lemma trim_spec (s : string) :
∃ pre post,
  s = pre +:+ trim s +:+ post ∧
  all_space pre = true ∧ all_space post = true ∧
  not_space (first_char (trim s)) ∧ not_space (last_char (trim s)).
Proof.
destruct (trim_start_spec s) as (pre & Hs & Hpre & Hfirst).
destruct (trim_end_spec (trim_start s)) as (post & Ht & Hpost & Hlast).
exists pre, post. unfold trim. rewrite <- Ht.
split_and!; [done | done | done | by apply trim_end_first | done].
Qed.

Lemma trim_start_fixed (s : string) :
not_space (first_char s) → trim_start s = s.
Proof. destruct s as [|c s]; [done |]. simpl. by intros ->. Qed.

Lemma trim_end_fixed (s : string) :
not_space (last_char s) → trim_end s = s.
Proof.
induction s as [|c s IH]; [done |]. rewrite trim_end_cons.
cbn [last_char]. destruct (last_char s) as [d |] eqn:Hlast.
- intros Hd. rewrite IH by done. destruct s; [done | done].
- intros Hc. destruct s as [|e s]; [simpl in *; by rewrite Hc |].
  simpl in Hlast. by destruct (last_char s).
Qed.

Lemma trim_idempotent (s : string) : trim (trim s) = trim s.
Proof.
destruct (trim_spec s) as (_ & _ & _ & _ & _ & Hfirst & Hlast).
unfold trim at 1. by rewrite trim_start_fixed, trim_end_fixed.
Qed.
End Trim.

(** C7.  When the run command succeeds, the call returns the parsed value
    if its output parses as JSON and the trimmed output text if it does not:
    both are returned values, and the choice depends on the parse alone.
    The trimmed text is the output without the white space at its two ends:
    the output is white space, the text, white space, and the text neither
    starts nor ends with white space. *)
Theorem callLeaf_parsed_or_text
  {JSValue : Type} (JSON_stringify : JSValue → string)
  (JSON_parse : string → option JSValue)
  (execSync : string → Error + string)
  (l : Leaf) (args : JSValue) (output : string) :
  execSync (run_command JSON_stringify l args) = inr output →
  (∀ v, JSON_parse output = Some v →
        (callLeaf JSON_stringify JSON_parse execSync l args).2
        = Returns (Parsed v)) ∧
  (JSON_parse output = None →
   ∃ text pre post,
     (callLeaf JSON_stringify JSON_parse execSync l args).2
     = Returns (Text text) ∧
     output = pre +:+ text +:+ post ∧
     StrMore.all_space pre = true ∧ StrMore.all_space post = true ∧
     StrMore.not_space (StrMore.first_char text) ∧
     StrMore.not_space (StrMore.last_char text)).
Proof.
  intros Hexec. unfold callLeaf. rewrite Hexec. split.
  - by intros v ->.
  - intros ->.
    destruct (trim_spec output) as (pre & post & Hout & Hpre & Hpost & Hf & Hl).
    by exists (Str.trim output), pre, post.
Qed.

Lemma callLeaf_parsed_or_text_witness :
  (callLeaf Samples.stringify_example Samples.parse_example
     (Samples.prints Samples.ok_text)
     (leaf_for Samples.list_query EmptyString) (Samples.JObject [])).2
  = Returns (Parsed Samples.ok_value)
  ∧ ∃ text pre post,
      (callLeaf Samples.stringify_example Samples.parse_example
         (Samples.prints (" done" +:+ newline))
         (leaf_for Samples.list_query EmptyString) (Samples.JObject [])).2
      = Returns (Text text) ∧
      " done" +:+ newline = pre +:+ text +:+ post ∧
      StrMore.all_space pre = true ∧ StrMore.all_space post = true ∧
      StrMore.not_space (StrMore.first_char text) ∧
      StrMore.not_space (StrMore.last_char text).
Proof.
  split.
  - apply (proj1 (callLeaf_parsed_or_text Samples.stringify_example
                    Samples.parse_example (Samples.prints Samples.ok_text)
                    (leaf_for Samples.list_query EmptyString)
                    (Samples.JObject []) Samples.ok_text eq_refl)
             Samples.ok_value eq_refl).
  - apply (proj2 (callLeaf_parsed_or_text Samples.stringify_example
                    Samples.parse_example
                    (Samples.prints (" done" +:+ newline))
                    (leaf_for Samples.list_query EmptyString)
                    (Samples.JObject []) (" done" +:+ newline) eq_refl)
             eq_refl).
Defined.

(** The two examples of the specification: the output [{"ok":true}] gives the
    object, the output [done] gives the string. *)
Example callLeaf_ok :
  (callLeaf Samples.stringify_example Samples.parse_example
     (Samples.prints Samples.ok_text)
     (leaf_for Samples.list_query EmptyString) (Samples.JObject [])).2
  = Returns (Parsed Samples.ok_value).
Proof. reflexivity. Qed.

Example callLeaf_done :
  (callLeaf Samples.stringify_example Samples.parse_example
     (Samples.prints ("done" +:+ newline))
     (leaf_for Samples.list_query EmptyString) (Samples.JObject [])).2
  = Returns (Text "done").
Proof. reflexivity. Qed.

(** A failed run command is thrown again, after the report. *)
Example callLeaf_failure :
  callLeaf Samples.stringify_example Samples.parse_example
    Samples.exits_non_zero
    (leaf_for Samples.list_query EmptyString) (Samples.JObject [])
  = ([Log ("Running: npx convex run  " +:+ dquote +:+ "users:list" +:+ dquote
           +:+ " '{}'");
      LogError "Error running function: Command failed: npx convex function-spec";
      LogError "stderr: No CONVEX_DEPLOYMENT set"],
     Throws Samples.exit_1).
Proof. reflexivity. Qed.

(** * Further properties *)

(** ** White space *)


(** X1.  When the run command succeeds and its output does not parse, the
    text the call returns is the output without its leading and trailing
    white space: the output is white space, the text, white space, and the
    text neither starts nor ends with white space. *)
Theorem callLeaf_text_is_trimmed
  {JSValue : Type} (JSON_stringify : JSValue → string)
  (JSON_parse : string → option JSValue)
  (execSync : string → Error + string)
  (l : Leaf) (args : JSValue) (output : string) :
  execSync (run_command JSON_stringify l args) = inr output →
  JSON_parse output = None →
  ∃ text pre post,
    (callLeaf JSON_stringify JSON_parse execSync l args).2
    = Returns (Text text) ∧
    output = pre +:+ text +:+ post ∧
    StrMore.all_space pre = true ∧ StrMore.all_space post = true ∧
    StrMore.not_space (StrMore.first_char text) ∧
    StrMore.not_space (StrMore.last_char text) ∧
    Str.trim text = text.
Proof.
  intros Hexec Hparse.
  destruct (trim_spec output) as (pre & post & Hout & Hpre & Hpost & Hf & Hl).
  exists (Str.trim output), pre, post.
  unfold callLeaf. rewrite Hexec, Hparse.
  split_and!; try done. apply trim_idempotent.
Qed.

Lemma callLeaf_text_is_trimmed_witness :
  ∃ text pre post,
    (callLeaf Samples.stringify_example Samples.parse_example
       (Samples.prints (" done" +:+ newline))
       (leaf_for Samples.list_query EmptyString) (Samples.JObject [])).2
    = Returns (Text text) ∧
    " done" +:+ newline = pre +:+ text +:+ post ∧
    StrMore.all_space pre = true ∧ StrMore.all_space post = true ∧
    StrMore.not_space (StrMore.first_char text) ∧
    StrMore.not_space (StrMore.last_char text) ∧
    Str.trim text = text.
Proof.
  apply (callLeaf_text_is_trimmed Samples.stringify_example
           Samples.parse_example (Samples.prints (" done" +:+ newline))
           (leaf_for Samples.list_query EmptyString) (Samples.JObject [])
           (" done" +:+ newline)).
  - reflexivity.
  - reflexivity.
Defined.

(** ** Path segments *)

Section Parts.
Import Str StrFacts.
#[local] Arguments String.append : simpl nomatch.

Lemma split_cons sep c (s : string) :
split sep (String c s)
= if Ascii.eqb c sep then EmptyString :: split sep s
  else match split sep s with
       | h :: t => String c h :: t
       | [] => [String c EmptyString]
       end.
Proof. reflexivity. Qed.

Lemma join_cons sep p q (ps : list string) :
join sep (p :: q :: ps) = p +:+ sep +:+ join sep (q :: ps).
Proof. reflexivity. Qed.

(** Joining the parts with the separator gives the string back. *)
Lemma join_split sep (s : string) :
join (String sep EmptyString) (split sep s) = s.
Proof.
induction s as [|c s IH]; [done |]. rewrite split_cons.
pose proof (split_nonempty sep s) as Hne.
destruct (split sep s) as [|h t]; [done |].
destruct (Ascii.eqb_spec c sep) as [-> | Hc].
- rewrite join_cons, IH. reflexivity.
- destruct t as [|q t].
  + simpl in *. by rewrite IH.
  + rewrite join_cons in *. by rewrite app_cons, IH.
Qed.

(** No part holds the separator. *)
Lemma split_separator_free sep (s : string) :
Forall (λ p, occurs sep p = false) (split sep s).
Proof.
induction s as [|c s IH]; [by repeat constructor |]. rewrite split_cons.
destruct (Ascii.eqb c sep) eqn:Hc; [by constructor |].
destruct (split sep s) as [|h t]; [constructor; [simpl; by rewrite Hc | done] |].
apply Forall_cons in IH as [Hh Ht].
constructor; [simpl; by rewrite Hc | done].
Qed.

(** A code unit that is absent from the string is absent from its parts. *)
Lemma split_absent c sep (s : string) :
occurs c s = false → Forall (λ p, occurs c p = false) (split sep s).
Proof.
induction s as [|x s IH]; [by repeat constructor |].
intros [Hx Hs]%occurs_cons_false. rewrite split_cons.
specialize (IH Hs).
destruct (Ascii.eqb x sep); [by constructor |].
destruct (split sep s) as [|h t].
- constructor; [| done]. simpl. by apply Ascii.eqb_neq in Hx as ->.
- apply Forall_cons in IH as [Hh Ht].
  constructor; [| done]. simpl. by apply Ascii.eqb_neq in Hx as ->.
Qed.

(** The parts are one more than the separators. *)
Lemma split_length sep (s : string) :
length (split sep s) = S (StrMore.count sep s).
Proof.
induction s as [|c s IH]; [done |]. rewrite split_cons. simpl.
destruct (Ascii.eqb c sep); simpl; [by rewrite IH |].
destruct (split sep s); simpl in *; lia.
Qed.

Lemma replace_all_removes c d (s : string) :
c ≠ d → occurs c (replace_all c d s) = false.
Proof.
intros Hcd. induction s as [|x s IH]; [done |]. simpl.
destruct (Ascii.eqb_spec x c) as [-> | Hx].
- destruct (Ascii.eqb_spec d c); [congruence | done].
- by apply Ascii.eqb_neq in Hx as ->.
Qed.
End Parts.

(** X2.  The segments of a descriptor are the namespace path cut at the
    dots: joined with dots they give [identifierToApiPath] back, there is at
    least one of them, and no segment holds a dot or a slash, whatever the
    identifier is. *)
Theorem parts_of_round_trip (f : FunctionSpec) :
  Str.join "." (parts_of f) = identifierToApiPath (identifier f) ∧
  parts_of f ≠ [] ∧
  Forall (λ p, Str.occurs "." p = false ∧ Str.occurs "/" p = false)
    (parts_of f).
Proof.
  split_and!.
  - apply (join_split ".").
  - apply parts_of_nonempty.
  - apply Forall_and. split; [apply split_separator_free |].
    apply split_absent. by apply replace_all_removes.
Qed.

(** X3.  An identifier without a colon carries no marker: the invocation
    path is the identifier itself, and the namespace path is the identifier
    with its slashes turned into dots. *)
Theorem identifier_without_colon (id : string) :
  Str.occurs ":" id = false →
  identifierToRunPath id = id ∧
  identifierToApiPath id = Str.replace_all "/" "." id.
Proof.
  intros Hid. unfold identifierToRunPath, identifierToApiPath.
  rewrite !(StrFacts.replace_first_no_colon "." "j" "s") by done.
  by rewrite !(StrFacts.replace_first_no_colon "." "t" "s").
Qed.

Lemma identifier_without_colon_witness :
  identifierToRunPath "users/list" = "users/list" ∧
  identifierToApiPath "users/list" = Str.replace_all "/" "." "users/list".
Proof. apply (identifier_without_colon "users/list"). reflexivity. Defined.

(** ** The deployment label, continued *)

Section LabelMore.
Import Str StrFacts.
#[local] Arguments String.append : simpl nomatch.

Lemma prefix_drop (p s : string) :
String.prefix p s = true → s = p +:+ drop (String.length p) s.
Proof.
revert s. induction p as [|c p IH]; intros s; [by destruct s |].
destruct s as [|d s]; [done |]. cbn [String.prefix].
destruct (ascii_dec c d) as [<- | _]; [| done].
intros Hp. rewrite app_cons. simpl. f_equal. by apply IH.
Qed.

Lemma before_dot_Some (s label : string) :
before_dot s = Some label →
occurs "." label = false ∧ ∃ rest, s = label +:+ "." +:+ rest.
Proof.
revert label. induction s as [|c s IH]; intros label; [done |].
cbn [before_dot]. destruct (Ascii.eqb_spec c ".") as [-> | Hc].
- intros [= <-]. split; [done | by exists s].
- destruct (before_dot s) as [l |]; [| done]. intros [= <-].
  destruct (IH l eq_refl) as [Hl [rest ->]].
  split; [simpl; by apply Ascii.eqb_neq in Hc as -> | by exists rest].
Qed.

Lemma capture_Some (s label : string) :
capture s = Some label →
label ≠ EmptyString ∧ occurs "." label = false ∧
∃ rest, s = label +:+ "." +:+ rest.
Proof.
unfold capture. destruct (before_dot s) as [[|c l] |] eqn:Hs; [done | | done].
intros [= <-]. by apply before_dot_Some in Hs as [? ?].
Qed.

Lemma match_here_Some (s label : string) :
match_here s = Some label →
label ≠ EmptyString ∧ occurs "." label = false ∧
∃ scheme rest,
  (scheme = "http" ∨ scheme = "https") ∧
  s = deployment_url scheme label rest.
Proof.
unfold match_here, deployment_url.
destruct (String.prefix "https://" s) eqn:Hs.
- intros (Hne & Hdot & rest & Hrest)%capture_Some.
  split_and!; [done | done |]. exists "https", rest. split; [by right |].
  apply prefix_drop in Hs.
  change (String.length "https://") with 8 in Hs.
  rewrite Hrest in Hs. exact Hs.
- destruct (String.prefix "http://" s) eqn:Hp; [| done].
  intros (Hne & Hdot & rest & Hrest)%capture_Some.
  split_and!; [done | done |]. exists "http", rest. split; [by left |].
  apply prefix_drop in Hp.
  change (String.length "http://") with 7 in Hp.
  rewrite Hrest in Hp. exact Hp.
Qed.

(** When the pattern matches, the URL holds [scheme://label.] somewhere,
  and the label is not empty and holds no dot. *)
Lemma url_match_Some (s label : string) :
url_match s = Some label →
label ≠ EmptyString ∧ occurs "." label = false ∧
∃ before scheme rest,
  (scheme = "http" ∨ scheme = "https") ∧
  s = before +:+ deployment_url scheme label rest.
Proof.
induction s as [|c s IH]; rewrite url_match_unfold.
- by destruct (match_here EmptyString) eqn:Hm.
- destruct (match_here (String c s)) as [l |] eqn:Hm.
  + intros [= <-].
    apply match_here_Some in Hm as (Hne & Hdot & scheme & rest & Hs & ->).
    split_and!; [done | done |]. by exists EmptyString, scheme, rest.
  + intros (Hne & Hdot & before & scheme & rest & Hs & ->)%IH.
    split_and!; [done | done |]. by exists (String c before), scheme, rest.
Qed.
End LabelMore.

(** X4.  The deployment label a returned [update] leaves is either the one
    the module had before (the pattern did not match), or a text that is not
    empty, holds no dot, and stands in the URL between [http://] or
    [https://] and a dot. *)
Theorem update_label_comes_from_url
  (execSync : string → Error + string)
  (JSON_parse : string → Error + ConvexFunctionSpec)
  (options : UpdateOptions) (g : Globals)
  (output : string) (spec : ConvexFunctionSpec)
  (logs : list event) (r : UpdateResult) (g' : Globals) :
  execSync (spec_command options) = inr output →
  JSON_parse output = inr spec →
  update execSync JSON_parse options g = (logs, Returns r, g') →
  (url_match (url spec) = None ∧ resultDeploymentName r = deploymentName g) ∨
  (resultDeploymentName r ≠ EmptyString ∧
   Str.occurs "." (resultDeploymentName r) = false ∧
   ∃ before scheme rest,
     (scheme = "http" ∨ scheme = "https") ∧
     url spec
     = before +:+ deployment_url scheme (resultDeploymentName r) rest).
Proof.
  intros Hexec Hparse Hupdate.
  destruct (update_inv execSync JSON_parse options g output spec logs r g'
              Hexec Hparse Hupdate) as (tapi & tint & _ & _ & _ & -> & _).
  cbn [resultDeploymentName]. unfold label_after.
  destruct (url_match (url spec)) as [label |] eqn:Hmatch; [right | by left].
  by apply url_match_Some.
Qed.

Lemma update_label_comes_from_url_witness :
  ∃ logs r g',
    update (Samples.prints "{...}") (Samples.reads_as Samples.mixed_spec)
      Samples.options initial_globals = (logs, Returns r, g') ∧
    ((url_match (url Samples.mixed_spec) = None ∧
      resultDeploymentName r = deploymentName initial_globals) ∨
     (resultDeploymentName r ≠ EmptyString ∧
      Str.occurs "." (resultDeploymentName r) = false ∧
      ∃ before scheme rest,
        (scheme = "http" ∨ scheme = "https") ∧
        url Samples.mixed_spec
        = before +:+ deployment_url scheme (resultDeploymentName r) rest)).
Proof.
  eexists _, _, _. split; [reflexivity |].
  eapply (update_label_comes_from_url
           (Samples.prints "{...}") (Samples.reads_as Samples.mixed_spec)
           Samples.options initial_globals "{...}" Samples.mixed_spec);
    reflexivity.
Defined.

(** A local backend: the pattern takes the first octet for the label. *)
Example local_backend_label :
  url_match "http://127.0.0.1:3210" = Some "127".
Proof. reflexivity. Qed.

(** ** Signatures *)

(** X5.  [formatArgType] shows the tag of a field type as it is: apart from
    [id], which is shown as [Id<"table">], every tag is rendered by itself
    (the named branches change nothing) and a missing or empty tag as [any];
    an optional argument gets a question mark.  The result is never empty. *)
Theorem formatArgType_shows_tag (arg : FunctionArg) :
  formatArgType arg
  = match type (fieldType arg) with
    | Some t =>
        if String.eqb t "id"
        then "Id<" +:+ dquote +:+ interpolate (tableName (fieldType arg))
             +:+ dquote +:+ ">"
        else if String.eqb t EmptyString then "any" else t
    | None => "any"
    end +:+ (if optional arg then "?" else EmptyString)
  ∧ formatArgType arg ≠ EmptyString.
Proof.
  assert (∀ s : string, s ≠ EmptyString →
            (if optional arg then s +:+ "?" else s)
            = s +:+ (if optional arg then "?" else EmptyString)
            ∧ (if optional arg then s +:+ "?" else s) ≠ EmptyString) as Hsuffix.
  { intros s Hs. destruct (optional arg).
    - split; [done |]. by destruct s.
    - by rewrite StrFacts.app_empty_r. }
  unfold formatArgType. destruct (type (fieldType arg)) as [t |].
  - destruct (String.eqb_spec t "id") as [-> | _]; [by apply Hsuffix |].
    repeat match goal with
           | |- context [String.eqb t ?s] =>
               destruct (String.eqb_spec t s) as [-> | ?];
               [by apply Hsuffix |]
           end.
    destruct (String.eqb_spec t EmptyString) as [-> | Hne]; by apply Hsuffix.
  - by apply Hsuffix.
Qed.

(** The argument of the specification's example, and a reference without
    table. *)
Example formatArgType_id :
  formatArgType
    {| fieldType := {| type := Some "id"; tableName := Some "users" |};
       optional := true |}
  = "Id<" +:+ dquote +:+ "users" +:+ dquote +:+ ">?"
  ∧ formatArgType
      {| fieldType := {| type := Some "id"; tableName := None |};
         optional := false |}
    = "Id<" +:+ dquote +:+ "undefined" +:+ dquote +:+ ">".
Proof. split; reflexivity. Qed.

Section SignatureFacts.
Import Str StrFacts StrMore.
#[local] Arguments String.append : simpl nomatch.

(** No escape holds a line feed. *)
Lemma quote_char_one_line (c : ascii) :
occurs line_feed (quote_char c) = false.
Proof. destruct c as [[] [] [] [] [] [] [] []]; reflexivity. Qed.

Lemma quote_chars_one_line (s : string) :
occurs line_feed (quote_chars s) = false.
Proof.
induction s as [|c s IH]; [done |]. cbn [quote_chars].
by rewrite occurs_app, quote_char_one_line, IH.
Qed.

(** A quoted string is one line, whatever the string holds. *)
Lemma JSON_stringify_string_one_line (s : string) :
occurs line_feed (JSON_stringify_string s) = false.
Proof.
unfold JSON_stringify_string.
by rewrite !occurs_app, quote_chars_one_line.
Qed.

Lemma split_one_part sep (s : string) :
occurs sep s = false → split sep s = [s].
Proof.
induction s as [|c s IH]; [done |].
intros [Hc Hs]%occurs_cons_false. rewrite split_cons, IH by done.
by apply Ascii.eqb_neq in Hc as ->.
Qed.

Lemma split_first_part sep (a b : string) :
occurs sep a = false →
split sep (a +:+ String sep b) = a :: split sep b.
Proof.
induction a as [|c a IH].
- intros _. by rewrite app_nil_l, split_cons, Ascii.eqb_refl.
- intros [Hc Ha]%occurs_cons_false.
  rewrite app_cons, split_cons, IH by done.
  by apply Ascii.eqb_neq in Hc as ->.
Qed.

Lemma newline_app (s : string) : newline +:+ s = String line_feed s.
Proof. reflexivity. Qed.

Lemma split_five_lines (l1 l2 l3 l4 l5 : string) :
occurs line_feed l1 = false → occurs line_feed l2 = false →
occurs line_feed l3 = false → occurs line_feed l4 = false →
occurs line_feed l5 = false →
split line_feed
  (l1 +:+ newline +:+ l2 +:+ newline +:+ l3 +:+ newline +:+ l4
   +:+ newline +:+ l5)
= [l1; l2; l3; l4; l5].
Proof.
intros H1 H2 H3 H4 H5.
rewrite !newline_app, !split_first_part by done.
by rewrite split_one_part.
Qed.
End SignatureFacts.

(** X6.  The text [toString] gives for a leaf has five lines when the
    invocation path and the rendered return type hold no line feed: the
    heading, [Args: {], the argument list, [}] and the return type.  The
    argument list is one line however many arguments there are: it is
    written as one quoted JSON string, in which the line feeds between the
    arguments are escaped. *)
Theorem signature_has_five_lines
  {Schema : Type} (schema_type : Schema → jsval)
  (JSON_stringify : Schema → string)
  (functionType : FunctionType) (runPath : string)
  (args : list (string * FunctionArg)) (returns : Schema) :
  Str.occurs StrMore.line_feed runPath = false →
  Str.occurs StrMore.line_feed
    (formatReturnType schema_type JSON_stringify returns) = false →
  Str.split StrMore.line_feed
    (signature schema_type JSON_stringify functionType runPath args returns)
  = [ "[" +:+ functionTypeName functionType +:+ "] ---- " +:+ runPath;
      "Args: {";
      StrMore.JSON_stringify_string (argsList args);
      "}";
      "Returns: " +:+ formatReturnType schema_type JSON_stringify returns ].
Proof.
  intros Hpath Hreturns.
  set (header := "[" +:+ functionTypeName functionType +:+ "] ---- "
                 +:+ runPath).
  assert (signature schema_type JSON_stringify functionType runPath args
            returns
          = header +:+ newline +:+ "Args: {" +:+ newline
            +:+ StrMore.JSON_stringify_string (argsList args) +:+ newline
            +:+ "}" +:+ newline
            +:+ ("Returns: "
                 +:+ formatReturnType schema_type JSON_stringify returns))
    as ->.
  { unfold signature, header. by rewrite !StrFacts.app_assoc. }
  apply split_five_lines.
  - unfold header. rewrite !StrFacts.occurs_app, Hpath.
    by destruct functionType.
  - reflexivity.
  - apply JSON_stringify_string_one_line.
  - reflexivity.
  - by rewrite StrFacts.occurs_app, Hreturns.
Qed.

Lemma signature_has_five_lines_witness :
  Str.split StrMore.line_feed
    (signature (λ _ : string, JSString "any") (λ s : string, s)
       Query "users:list"
       [("id", {| fieldType := {| type := Some "id";
                                  tableName := Some "users" |};
                  optional := false |});
        ("limit", {| fieldType := {| type := Some "number";
                                     tableName := None |};
                     optional := true |})]
       "{}")
  = [ "[" +:+ functionTypeName Query +:+ "] ---- " +:+ "users:list";
      "Args: {";
      StrMore.JSON_stringify_string
        (argsList
           [("id", {| fieldType := {| type := Some "id";
                                      tableName := Some "users" |};
                      optional := false |});
            ("limit", {| fieldType := {| type := Some "number";
                                         tableName := None |};
                         optional := true |})]);
      "}";
      "Returns: "
      +:+ formatReturnType (λ _ : string, JSString "any") (λ s : string, s)
            "{}" ].
Proof.
  apply (signature_has_five_lines (λ _ : string, JSString "any")
           (λ s : string, s) Query "users:list"); reflexivity.
Defined.

(** The argument line of that signature. *)
Example signature_argument_line :
  StrMore.JSON_stringify_string
    (argsList
       [("id", {| fieldType := {| type := Some "id";
                                  tableName := Some "users" |};
                  optional := false |});
        ("limit", {| fieldType := {| type := Some "number";
                                     tableName := None |};
                     optional := true |})])
  = dquote +:+ "  id: Id<" +:+ String (Ascii.ascii_of_nat 92) dquote
    +:+ "users" +:+ String (Ascii.ascii_of_nat 92) dquote +:+ ">"
    +:+ String (Ascii.ascii_of_nat 92) "n" +:+ "  limit: number?" +:+ dquote.
Proof. reflexivity. Qed.

(** ** Errors of createProxyTree *)

Section Throwing.
Variable deploymentFlag : string.

Lemma set_prop_no_throw t k v e : set_prop t k v ≠ Throws e.
Proof.
unfold set_prop. destruct t.
- by destruct (String.eqb k "__proto__").
- by destruct (mem k function_keys).
Qed.

(** The embedding of the insertion loop has no step that throws: where the
  source does (a write to a read-only property of a leaf function), the
  embedding is [Unmodelled]. *)
Lemma insertLeaf_no_throw p leaf t e : insertLeaf p leaf t ≠ Throws e.
Proof.
revert t. induction p as [|part rest IH]; intros t.
- apply set_prop_no_throw.
- destruct (decide (rest = [])) as [-> | Hrest].
  + rewrite insertLeaf_last. apply set_prop_no_throw.
  + rewrite insertLeaf_step by done.
    destruct (get_prop t part) as [child | |]; [| | done].
    * specialize (IH child).
      by destruct (insertLeaf rest leaf child).
    * specialize (IH (VObject [])).
      by destruct (insertLeaf rest leaf (VObject [])).
Qed.

Lemma insertAll_no_throw fs t e : insertAll deploymentFlag fs t ≠ Throws e.
Proof.
revert t. induction fs as [|f fs IH]; intros t; [done |].
cbn [insertAll].
pose proof (insertLeaf_no_throw (parts_of f)
              (createFunctionProxy f deploymentFlag) t) as Hone.
destruct (insertLeaf _ _ t) as [t1 | e1 |]; simpl; [apply IH | | done].
by destruct (Hone e1).
Qed.

(** The visibility filter throws at the first descriptor whose visibility
  is [undefined] or [null], and keeps the descriptors of the kind when
  there is none. *)
Lemma filter_kind_cases vis fs :
filter_kind vis fs
= match first_nullish fs with
  | Some n => Throws (cannot_read n "kind")
  | None => Returns (List.filter (has_kind vis) fs)
  end.
Proof.
induction fs as [|f fs IH]; [done |].
cbn [filter_kind first_nullish List.filter]. unfold kind_is, has_kind.
destruct (visibility f) as [v |]; [| done]. cbn [mbind result_bind].
rewrite IH. by destruct (first_nullish fs).
Qed.

Lemma first_nullish_None fs :
first_nullish fs = None ↔ Forall has_visibility_field fs.
Proof.
unfold has_visibility_field. induction fs as [|f fs IH]; [done |].
cbn [first_nullish]. rewrite Forall_cons, <- IH.
destruct (visibility f) as [v |]; split.
- intros Hrest. split; [by eexists | done].
- by intros [_ Hrest].
- done.
- by intros [[v [=]] _].
Qed.
(** With ordinary keys and a visibility to read on every descriptor, the
  call returns. *)
Lemma createProxyTree_total fs vis :
ordinary_paths (List.filter (has_kind vis) fs) →
Forall has_visibility_field fs →
∃ t,
  insertAll deploymentFlag (List.filter (has_kind vis) fs) (VObject [])
  = Returns t ∧
  createProxyTree fs vis deploymentFlag
  = Returns (RProxy 0 [], fresh_instance t).
Proof.
intros Hord Hvis%first_nullish_None.
unfold createProxyTree. rewrite filter_kind_cases, Hvis.
destruct (insertAll_returns deploymentFlag _ (VObject []) Hord) as [t Hall].
cbn [mbind result_bind]. rewrite Hall. by exists t.
Qed.
End Throwing.

(** X7.  For a descriptor list whose inserted paths are made of ordinary
    keys, [createProxyTree] throws exactly when the [visibility] of some
    descriptor is [undefined] or [null]: the error is the [TypeError] of
    reading [kind] of that value, for the first such descriptor of the
    list, raised by the visibility filter before anything is inserted;
    with no such descriptor the call returns the root proxy of the tree
    the loop built.  A [visibility] that is any other value, falsy or not,
    does not make the call throw. *)
Theorem createProxyTree_throws_iff
  (fs : list FunctionSpec) (vis flag : string) :
  ordinary_paths (List.filter (has_kind vis) fs) →
  match first_nullish fs with
  | Some n => createProxyTree fs vis flag = Throws (cannot_read n "kind")
  | None =>
      ∃ inst,
        createProxyTree fs vis flag = Returns (RProxy 0 [], inst) ∧
        insertAll flag (List.filter (has_kind vis) fs) (VObject [])
        = Returns (tree inst)
  end
  ∧ (first_nullish fs = None ↔ ∀ f, f ∈ fs → is_Some (visibility f)).
Proof.
  intros Hord. split.
  - destruct (first_nullish fs) as [n |] eqn:Hfirst.
    + unfold createProxyTree. by rewrite filter_kind_cases, Hfirst.
    + destruct (createProxyTree_total flag fs vis Hord) as (t & Hall & ->);
        [by apply first_nullish_None |].
      by exists (fresh_instance t).
  - rewrite first_nullish_None, Forall_forall. done.
Qed.

Lemma createProxyTree_throws_iff_witness :
  createProxyTree [Samples.list_query; null_visibility; Samples.no_visibility]
    "public" EmptyString
  = Throws (TypeError "Cannot read properties of null (reading 'kind')")
  ∧ (first_nullish
       [Samples.list_query; null_visibility; Samples.no_visibility] = None
     ↔ ∀ f, f ∈ [Samples.list_query; null_visibility; Samples.no_visibility] →
            is_Some (visibility f)).
Proof.
  apply (createProxyTree_throws_iff
           [Samples.list_query; null_visibility; Samples.no_visibility]
           "public" EmptyString).
  by repeat constructor.
Defined.

Example createProxyTree_without_visibility :
  createProxyTree [Samples.list_query; Samples.no_visibility] "public"
    EmptyString
  = Throws (TypeError "Cannot read properties of undefined (reading 'kind')").
Proof. reflexivity. Qed.

(** A [visibility] that is a falsy value other than [undefined] and [null]
    (here [0]) has no kind, and the filter passes over it. *)
Example createProxyTree_falsy_visibility :
  ∃ inst,
    createProxyTree
      [ {| identifier := "jobs.js:stop"; functionType := Action;
           visibility := Some {| kind := JSOther false |};
           nullish := JSUndefined |} ]
      "public" EmptyString
    = Returns (RProxy 0 [], inst) ∧ tree inst = VObject [].
Proof. by eexists. Qed.

(** ** Namespaces lead to functions *)

Section Namespaces.
Variable deploymentFlag : string.


End Namespaces.



(** ** The keys of a namespace and [help] *)

Section Keys.
Variable deploymentFlag : string.












End Keys.

Section Sorting.

Lemma ascii_compare_lt_trans a b c :
Ascii.compare a b = Lt → Ascii.compare b c = Lt → Ascii.compare a c = Lt.
Proof.
unfold Ascii.compare. rewrite !N.compare_lt_iff. lia.
Qed.

Lemma string_compare_lt_trans s1 s2 s3 :
String.compare s1 s2 = Lt → String.compare s2 s3 = Lt →
String.compare s1 s3 = Lt.
Proof.
revert s2 s3. induction s1 as [|c1 s1 IH]; intros [|c2 s2] [|c3 s3];
  simpl; try done.
destruct (Ascii.compare c1 c2) eqn:H12; [| | done];
  destruct (Ascii.compare c2 c3) eqn:H23; try done.
- apply Ascii.compare_eq_iff in H12 as ->, H23 as ->.
  rewrite (proj2 (N.compare_eq_iff _ _) eq_refl : Ascii.compare c3 c3 = Eq).
  apply IH.
- apply Ascii.compare_eq_iff in H12 as ->. by rewrite H23.
- apply Ascii.compare_eq_iff in H23 as ->. by rewrite H12.
- by rewrite (ascii_compare_lt_trans _ _ _ H12 H23).
Qed.

Lemma string_compare_refl s : String.compare s s = Eq.
Proof.
induction s as [|c s IH]; [done |]. simpl.
by rewrite (proj2 (N.compare_eq_iff _ _) eq_refl : Ascii.compare c c = Eq).
Qed.

Lemma code_unit_le_cases a b :
code_unit_le a b ↔ a = b ∨ String.compare a b = Lt.
Proof.
unfold code_unit_le, String.leb. split.
- destruct (String.compare a b) eqn:Hc; [| by right | done].
  left. by apply String.compare_eq_iff.
- intros [-> | ->]; [by rewrite string_compare_refl | done].
Qed.

#[export] Instance code_unit_le_trans : Transitive code_unit_le.
Proof.
intros a b c. rewrite !code_unit_le_cases.
intros [-> | Hab] [-> | Hbc]; eauto using string_compare_lt_trans.
Qed.

#[export] Instance code_unit_le_antisym : AntiSymm eq code_unit_le.
Proof. intros a b. apply String.leb_antisym. Qed.

#[export] Instance code_unit_le_total : Total code_unit_le.
Proof. intros a b. apply String.leb_total. Qed.

Lemma sort_keys_sorted keys : Sorted code_unit_le (sort_keys keys).
Proof. apply Sorted_merge_sort, _. Qed.



(** The sorted list depends on the set of keys only. *)
Lemma sort_keys_unique keys1 keys2 :
NoDup keys1 → NoDup keys2 → (∀ k, k ∈ keys1 ↔ k ∈ keys2) →
sort_keys keys1 = sort_keys keys2.
Proof.
intros Hnd1 Hnd2 Hsame.
apply (Sorted_unique code_unit_le); try apply sort_keys_sorted.
unfold sort_keys. rewrite !merge_sort_Permutation.
by apply list.NoDup_Permutation.
Qed.

End Sorting.

Section HelpFacts.
Variable execSync : string → Error + string.
Variable JSON_parse : string → Error + ConvexFunctionSpec.
Variable options : UpdateOptions.




End HelpFacts.



Example help_after_mixed_spec :
  help false
    (update (Samples.prints Samples.ok_text)
       (Samples.reads_as Samples.mixed_spec) Samples.options
       initial_globals).2
  = help_commands false
    ++ [ Log (newline +:+ "Public modules (api):"); Log "  api.users";
         Log (newline +:+ "Internal modules (internal):");
         Log "  internal.users" ]
    ++ help_tips.
Proof. vm_compute. reflexivity. Qed.

(** Modules named by array indices: whatever the order of the keys of the
    root, [help] lists them by code units. *)
Example help_sorts_index_keys :
  Object_keys
    (fresh_instance
       (VObject [("b", VObject []); ("10", VObject []); ("9", VObject [])])) []
  = ["9"; "10"; "b"]
  ∧ sort_keys ["9"; "10"; "b"] = ["10"; "9"; "b"].
Proof. by vm_compute. Qed.

Section HelpOrder.

End HelpOrder.



(** ** Property reads that find nothing *)

Section Reads.

Lemma navigate_app inst r p1 p2 :
navigate inst r (p1 ++ p2)
= navigate inst r p1 ≫= λ ri, navigate ri.2 ri.1 p2.
Proof.
revert inst r. induction p1 as [|k p1 IH]; intros inst r; [done |].
cbn [app navigate].
destruct (get inst r k) as [[r1 inst1] | |]; simpl; [apply IH | done | done].
Qed.

Lemma navigate_trace_app inst r p1 p2 :
navigate_trace inst r (p1 ++ p2)
= navigate_trace inst r p1 ++
  match navigate inst r p1 with
  | Returns ri => navigate_trace ri.2 ri.1 p2
  | _ => []
  end.
Proof.
revert inst r. induction p1 as [|k p1 IH]; intros inst r; [done |].
cbn [app navigate navigate_trace]. rewrite <- app_assoc. f_equal.
destruct (get inst r k) as [[r1 inst1] | |]; simpl; [apply IH | done | done].
Qed.

Lemma kind_at_namespace t q :
kind_at t q = Some None ↔ ∃ ps, node_at t q = Some (VObject ps).
Proof.
unfold kind_at. destruct (node_at t q) as [[ps | l ps] |]; split;
  try done; eauto; by intros [? ?].
Qed.



Lemma createProxy_proxy inst a :
∃ id, (createProxy inst a).1 = RProxy id a.
Proof. unfold createProxy. destruct (proxyCache inst !! a); simpl; eauto. Qed.

(** Through namespaces the lookup hands out proxies and prints nothing. *)
Lemma navigate_namespaces inst id a path :
Forall ordinary path →
(∀ p, p `prefix_of` path → kind_at (tree inst) (a ++ p) = Some None) →
∃ id' inst',
  navigate inst (RProxy id a) path = Returns (RProxy id' (a ++ path), inst')
  ∧ tree inst' = tree inst
  ∧ navigate_trace inst (RProxy id a) path = [].
Proof.
revert inst id a. induction path as [|k path IH]; intros inst id a Hord Hns.
{ exists id, inst. by rewrite app_nil_r. }
apply Forall_cons in Hord as [Hk Hpath].
pose proof (Hns [] (prefix_nil _)) as Ha. rewrite app_nil_r in Ha.
apply kind_at_namespace in Ha as [ps Ha].
assert ([k] `prefix_of` k :: path) as Hpre by (by exists path).
pose proof (Hns [k] Hpre) as Hak.
apply kind_at_namespace in Hak as [ps' Hak].
rewrite node_at_snoc, Ha in Hak. simpl in Hak.
pose proof (get_prop_found (VObject ps) k _ Hk Hak) as Hget.
destruct (createProxy_proxy inst (a ++ [k])) as [id1 Hid1].
assert (get inst (RProxy id a) k
        = Returns (RProxy id1 (a ++ [k]), (createProxy inst (a ++ [k])).2))
  as Hstep.
{ simpl. unfold proxy_get. rewrite ordinary_not_hidden, Ha, Hget by done.
  by rewrite <- Hid1, <- surjective_pairing. }
destruct (IH (createProxy inst (a ++ [k])).2 id1 (a ++ [k]) Hpath)
  as (id' & inst' & Hnav & Htree & Htrace).
{ intros p Hp. rewrite createProxy_tree, <- app_assoc. apply Hns.
  by apply prefix_cons. }
assert (get_trace inst (RProxy id a) k = []) as Hquiet.
{ unfold get_trace. by rewrite ordinary_not_hidden, Ha, Hget. }
exists id', inst'. cbn [navigate navigate_trace].
rewrite Hquiet, Hstep. cbn [mbind result_bind fst snd app].
rewrite Hnav, Htrace, Htree, createProxy_tree, <- app_assoc.
by split_and!.
Qed.



End Reads.





(** ** Hidden keys and the proxy cache *)

Section Hidden.

Lemma get_hidden inst id target h :
h ∈ hidden_keys → get inst (RProxy id target) h = Returns (RUndefined, inst).
Proof.
intros Hh. simpl. unfold proxy_get.
replace (mem h hidden_keys) with true; [done |].
unfold hidden_keys in Hh.
apply elem_of_cons in Hh as [-> | Hh]; [done |].
apply list_elem_of_singleton in Hh as ->. done.
Qed.

Lemma get_trace_hidden inst id target h :
h ∈ hidden_keys → get_trace inst (RProxy id target) h = [].
Proof.
intros Hh. unfold get_trace.
replace (mem h hidden_keys) with true; [done |].
unfold hidden_keys in Hh.
apply elem_of_cons in Hh as [-> | Hh]; [done |].
apply list_elem_of_singleton in Hh as ->. done.
Qed.




End Hidden.

(** X13.  Below namespaces, a path that goes through a key the [get] trap
    hides ([inspect] or [constructor]) reaches no leaf, whatever the tree
    holds there: the read of the hidden key gives [undefined] without a
    diagnostic, and the read of a further key [k] throws the [TypeError] of
    reading [k] of [undefined].  A module named [inspect] is such a case:
    its leaf is in the tree and its name among the keys of the root. *)
Theorem hidden_key_blocks_lookup
  (fs : list FunctionSpec) (vis flag : string)
  (root : ref) (inst : TreeInstance)
  (q : list string) (h : string) :
  createProxyTree fs vis flag = Returns (root, inst) →
  Forall ordinary q → namespaces_to (tree inst) q →
  h ∈ hidden_keys →
  (∀ rest l, ¬ reaches (root, inst) (q ++ h :: rest) l) ∧
  navigate_trace inst root (q ++ [h]) = [] ∧
  (∃ inst', navigate inst root (q ++ [h]) = Returns (RUndefined, inst')) ∧
  (∀ k rest,
     navigate inst root (q ++ h :: k :: rest)
     = Throws (cannot_read JSUndefined k)).
Proof.
  intros (_ & -> & _)%createProxyTree_inv Hq Hns Hh.
  destruct (navigate_namespaces inst 0 [] q Hq)
    as (id & inst' & Hnav & Htree & Htrace); [done |].
  simpl in Hnav.
  pose proof (get_hidden inst' id q h Hh) as Hstep.
  assert (∀ k rest,
            navigate inst (RProxy 0 []) (q ++ h :: k :: rest)
            = Throws (cannot_read JSUndefined k)) as Hthrows.
  { intros k rest. rewrite navigate_app, Hnav.
    cbn [mbind result_bind fst snd navigate]. by rewrite Hstep. }
  assert (navigate inst (RProxy 0 []) (q ++ [h]) = Returns (RUndefined, inst'))
    as Hhidden.
  { rewrite navigate_app, Hnav.
    cbn [mbind result_bind fst snd navigate]. by rewrite Hstep. }
  split_and!; [| | by exists inst' | done].
  - intros rest l (r & inst1 & Hreach & Hleaf). simpl in Hreach.
    destruct rest as [|k rest].
    + rewrite Hhidden in Hreach. by injection Hreach as <- <-.
    + by rewrite Hthrows in Hreach.
  - rewrite navigate_trace_app, Hnav, Htrace.
    cbn [fst snd navigate_trace app]. by rewrite get_trace_hidden, Hstep.
Qed.

Lemma hidden_key_blocks_lookup_witness :
  ∃ inst,
    createProxyTree [inspect_run] "public" EmptyString
    = Returns (RProxy 0 [], inst) ∧
    "inspect" ∈ Object_keys inst [] ∧
    kind_at (tree inst) ["inspect"; "run"]
    = Some (Some (leaf_for inspect_run EmptyString)) ∧
    (∀ rest l, ¬ reaches (RProxy 0 [], inst) ([] ++ "inspect" :: rest) l) ∧
    navigate_trace inst (RProxy 0 []) ([] ++ ["inspect"]) = [] ∧
    (∃ inst',
       navigate inst (RProxy 0 []) ([] ++ ["inspect"])
       = Returns (RUndefined, inst')) ∧
    (∀ k rest,
       navigate inst (RProxy 0 []) ([] ++ "inspect" :: k :: rest)
       = Throws (cannot_read JSUndefined k)).
Proof.
  eexists.
  split; [reflexivity |]. split; [vm_compute; by left |].
  split; [reflexivity |].
  eapply (hidden_key_blocks_lookup [inspect_run] "public" EmptyString).
  - reflexivity.
  - constructor.
  - intros p ->%prefix_nil_inv. reflexivity.
  - by left.
Defined.

Example read_below_hidden_module :
  ∃ inst,
    createProxyTree [inspect_run] "public" EmptyString
    = Returns (RProxy 0 [], inst) ∧
    navigate inst (RProxy 0 []) ["inspect"; "run"]
    = Throws (TypeError "Cannot read properties of undefined (reading 'run')").
Proof. by eexists. Qed.



(** ** update, continued *)

Section UpdateMore.
Variable execSync : string → Error + string.
Variable JSON_parse : string → Error + ConvexFunctionSpec.
Variable options : UpdateOptions.

Lemma createProxyTree_no_throw fs vis flag e :
Forall has_visibility_field fs → createProxyTree fs vis flag ≠ Throws e.
Proof.
intros Hvis. unfold createProxyTree. rewrite filter_kind_returns by done.
cbn [mbind result_bind].
pose proof (insertAll_no_throw flag (List.filter (has_kind vis) fs)
              (VObject [])) as Hall.
destruct (insertAll flag _ (VObject [])) as [t | e1 |]; [done | | done].
by destruct (Hall e1).
Qed.

Lemma callbacks_app logs1 logs2 :
callbacks (logs1 ++ logs2) = callbacks logs1 ++ callbacks logs2.
Proof.
induction logs1 as [|[line | line | name] logs1 IH]; simpl; [done | done.. |].
by rewrite IH.
Qed.

Lemma callbacks_report what error : callbacks (report what error) = [].
Proof.
unfold report. simpl. destruct (stderr error) as [text |]; [| done].
by destruct (String.eqb text EmptyString).
Qed.

Lemma callbacks_summary spec publicCount internalCount :
callbacks (summary_lines options spec publicCount internalCount) = [].
Proof.
unfold summary_lines, heading_lines, skipped_lines.
rewrite !callbacks_app. simpl.
by destruct (Nat.ltb 0 (invalidCount spec)).
Qed.

Lemma callbacks_ready name :
callbacks (ready_lines options name)
= if onUpdate options then [name] else [].
Proof. unfold ready_lines. by destruct (onUpdate options). Qed.

(** The three ways [update] ends. *)
Lemma update_cases g :
let '(logs, res, g') := update execSync JSON_parse options g in
match res with
| Returns r =>
    ∃ output spec,
      execSync (spec_command options) = inr output ∧
      JSON_parse output = inr spec ∧
      logs = summary_lines options spec
               (length (List.filter (has_kind "public") (validFunctions spec)))
               (length (List.filter (has_kind "internal")
                          (validFunctions spec)))
             ++ ready_lines options (resultDeploymentName r)
| Throws e =>
    (execSync (spec_command options) = inl e ∨
     ∃ output, execSync (spec_command options) = inr output ∧
               JSON_parse output = inl e) ∧
    logs = fetching_line options :: report "Error fetching function specs:" e
    ∧ g' = g
| Unmodelled =>
    ∃ publicCount internalCount output spec,
      execSync (spec_command options) = inr output ∧
      JSON_parse output = inr spec ∧
      logs = summary_lines options spec publicCount internalCount
end.
Proof.
destruct (update execSync JSON_parse options g) as [[logs res] g'] eqn:Hupdate.
destruct (execSync (spec_command options)) as [e | output] eqn:Hexec.
{ rewrite (update_throws execSync JSON_parse options g e) in Hupdate
    by (by left).
  injection Hupdate as <- <- <-. split_and!; [by left | done | done]. }
destruct (JSON_parse output) as [e | spec] eqn:Hparse.
{ rewrite (update_throws execSync JSON_parse options g e) in Hupdate
    by (right; eauto).
  injection Hupdate as <- <- <-. split_and!; [right; eauto | done | done]. }
destruct res as [r | e |].
- destruct (update_inv _ _ _ _ _ _ _ _ _ Hexec Hparse Hupdate)
    as (tapi & tint & _ & _ & -> & -> & _).
  by exists output, spec.
- exfalso. revert Hupdate. unfold update. rewrite Hexec, Hparse.
  pose proof (valid_have_visibility (functions spec)) as Hvis.
  fold (validFunctions spec) in Hvis.
  rewrite !filter_kind_returns by done. cbn [attempt].
  pose proof (createProxyTree_no_throw (validFunctions spec) "public"
                (deploymentFlag options)) as Hapi.
  pose proof (createProxyTree_no_throw (validFunctions spec) "internal"
                (deploymentFlag options)) as Hint.
  destruct (createProxyTree (validFunctions spec) "public" _)
    as [apiProxy | e1 |]; cbn [attempt]; [| by destruct (Hapi e1) | done].
  destruct (createProxyTree (validFunctions spec) "internal" _)
    as [internalProxy | e1 |]; cbn [attempt];
    [done | by destruct (Hint e1) | done].
- revert Hupdate. unfold update. rewrite Hexec, Hparse.
  pose proof (valid_have_visibility (functions spec)) as Hvis.
  fold (validFunctions spec) in Hvis.
  rewrite !filter_kind_returns by done. cbn [attempt].
  destruct (createProxyTree (validFunctions spec) "public" _)
    as [apiProxy | e1 |]; cbn [attempt failed]; [| done |].
  + destruct (createProxyTree (validFunctions spec) "internal" _)
      as [internalProxy | e1 |]; cbn [attempt failed]; [done | done |].
    intros [= <- _]. by eexists _, _, output, spec.
  + intros [= <- _]. by eexists _, _, output, spec.
Qed.

Lemma has_kind_has_visibility vis f :
vis ≠ EmptyString → has_kind vis f = true → has_visibility f = true.
Proof.
intros Hvis. unfold has_kind, has_visibility.
destruct (visibility f) as [[[s | b]] |]; simpl; try done.
intros ->%String.eqb_eq. by destruct vis.
Qed.

Lemma kinds_exclusive f :
has_kind "public" f = true → has_kind "internal" f = false.
Proof.
unfold has_kind. destruct (visibility f) as [[[s | b]] |]; simpl; try done.
by intros ->%String.eqb_eq.
Qed.

Lemma counts_add_up fs :
length (List.filter (has_kind "public") (List.filter has_visibility fs))
+ length (List.filter (has_kind "internal") (List.filter has_visibility fs))
+ length (List.filter other_kind fs)
+ without_visibility fs
= length fs.
Proof.
induction fs as [|f fs IH]; [done |].
rewrite without_visibility_cons. unfold other_kind in *. cbn [List.filter].
pose proof (has_kind_has_visibility "public" f) as Hpublic.
pose proof (has_kind_has_visibility "internal" f) as Hinternal.
pose proof (kinds_exclusive f) as Hexcl.
destruct (has_visibility f); cbn [List.filter andb negb].
- destruct (has_kind "public" f); cbn [List.filter andb negb length].
  + rewrite Hexcl by done. cbn [negb length]. lia.
  + destruct (has_kind "internal" f); cbn [negb length]; lia.
- destruct (has_kind "public" f); [by discriminate Hpublic |].
  destruct (has_kind "internal" f); [by discriminate Hinternal |].
  cbn [length]. lia.
Qed.

(** With ordinary keys in what the spec command prints, [update] stays
  within the embedding. *)
Lemma update_modelled g logs g' :
ordinary_output execSync JSON_parse options →
update execSync JSON_parse options g ≠ (logs, Unmodelled, g').
Proof.
intros Hord Hupdate.
pose proof (update_cases g) as Hcases. rewrite Hupdate in Hcases.
destruct Hcases as (_ & _ & output & spec & Hexec & Hparse & _).
destruct (update_returns execSync JSON_parse options g output spec Hexec
            Hparse (Hord output spec Hexec Hparse))
  as (tapi & tint & _ & _ & Hreturns).
congruence.
Qed.

Section Calling.
Variable callback : string → option Error.

(** [update_calling] is [update] up to the call of the callback. *)
Lemma update_calling_cases g :
  match update execSync JSON_parse options g with
  | (logs0, Returns r, g2) =>
  match (if onUpdate options then callback (resultDeploymentName r)
         else None) with
  | Some e =>
      ∃ before,
        logs0 = before ++ ready_lines options (resultDeploymentName r) ∧
        callbacks before = [] ∧
        update_calling execSync JSON_parse callback options g
        = (before ++ Callback (resultDeploymentName r)
             :: report "Error fetching function specs:" e,
           Throws e, g2)
  | None =>
      update_calling execSync JSON_parse callback options g
      = (logs0, Returns r, g2)
  end
  | other => update_calling execSync JSON_parse callback options g = other
  end.
Proof.
  unfold update, update_calling.
  destruct (execSync (spec_command options)) as [e | output]; [done |].
  destruct (JSON_parse output) as [e | spec]; [done |].
  pose proof (valid_have_visibility (functions spec)) as Hvis.
  fold (validFunctions spec) in Hvis.
  rewrite !filter_kind_returns by done. cbn [attempt].
  destruct (createProxyTree (validFunctions spec) "public" _)
as [apiProxy | e1 |]; cbn [attempt failed]; [| done | done].
  destruct (createProxyTree (validFunctions spec) "internal" _)
as [internalProxy | e1 |]; cbn [attempt failed]; [| done | done].
  cbn [resultDeploymentName].
  destruct (onUpdate options); [| done].
  destruct (callback (label_after g spec)) as [e |]; [| done].
  eexists. split; [reflexivity |]. split; [apply callbacks_summary |].
  unfold failed. by rewrite <- app_assoc.
Qed.
End Calling.
End UpdateMore.

(** X15.  What a call of [update] can end in, when whatever the spec
    command prints parses, if it parses, to a spec of the declared shape
    whose path segments are ordinary keys.  It returns; or it throws the
    error of the spec command or of the parser, having printed the line
    about fetching and the report, with the module state as it was; or it
    throws the error the callback threw, and then both trees and the label
    are already replaced: the state is the one a returned [update] leaves.
    Building the trees adds no error of its own for such a spec. *)
Theorem update_throws_only_collaborator_errors
  (execSync : string → Error + string)
  (JSON_parse : string → Error + ConvexFunctionSpec)
  (callback : string → option Error)
  (options : UpdateOptions) (g g' : Globals)
  (logs : list event) (res : result UpdateResult) :
  ordinary_output execSync JSON_parse options →
  update_calling execSync JSON_parse callback options g = (logs, res, g') →
  match res with
  | Returns r =>
      update execSync JSON_parse options g = (logs, Returns r, g') ∧
      (onUpdate options = true → callback (resultDeploymentName r) = None)
  | Throws e =>
      ((execSync (spec_command options) = inl e ∨
        ∃ output, execSync (spec_command options) = inr output ∧
                  JSON_parse output = inl e) ∧
       logs = fetching_line options
              :: report "Error fetching function specs:" e ∧
       g' = g)
      ∨
      (onUpdate options = true ∧
       ∃ logs0 r,
         update execSync JSON_parse options g = (logs0, Returns r, g') ∧
         callback (resultDeploymentName r) = Some e ∧
         globalThis_api g' = Some (api r) ∧
         globalThis_internal g' = Some (internal r) ∧
         deploymentName g' = resultDeploymentName r)
  | Unmodelled => False
  end.
Proof.
  intros Hord Hcalling.
  pose proof (update_calling_cases execSync JSON_parse options callback g)
    as Hcases.
  pose proof (update_cases execSync JSON_parse options g) as Hupdate.
  pose proof (update_modelled execSync JSON_parse options g) as Hmodelled.
  destruct (update execSync JSON_parse options g) as [[logs0 res0] g2]
    eqn:Hu.
  destruct res0 as [r | e |].
  - destruct Hupdate as (output & spec & Hexec & Hparse & _).
    destruct (update_inv _ _ _ _ _ _ _ _ _ Hexec Hparse Hu)
      as (tapi & tint & _ & _ & _ & Hr & Hg).
    destruct (onUpdate options) eqn:Hon.
    + destruct (callback (resultDeploymentName r)) as [e |] eqn:Hcall.
      * destruct Hcases as (before & _ & _ & Hcases).
        rewrite Hcases in Hcalling. injection Hcalling as <- <- <-.
        right. split; [done |]. exists logs0, r.
        split_and!; [done | done | by rewrite Hg, Hr..].
      * rewrite Hcases in Hcalling. injection Hcalling as <- <- <-.
        by split.
    + rewrite Hcases in Hcalling. injection Hcalling as <- <- <-. by split.
  - rewrite Hcases in Hcalling. injection Hcalling as <- <- <-.
    left. by destruct Hupdate as (Hsource & -> & ->).
  - by destruct (Hmodelled logs0 g2 Hord).
Qed.

Lemma update_throws_only_collaborator_errors_witness :
  let options :=
    {| deploymentFlag := EmptyString; isProd := false; onUpdate := true |} in
  let execSync := Samples.prints Samples.ok_text in
  let JSON_parse := Samples.reads_as Samples.mixed_spec in
  let callback : string → option Error := λ _, Some Samples.syntax_error in
  let outcome :=
    update_calling execSync JSON_parse callback options initial_globals in
  match outcome.1.2 with
  | Returns r =>
      update execSync JSON_parse options initial_globals
      = (outcome.1.1, Returns r, outcome.2) ∧
      (onUpdate options = true → callback (resultDeploymentName r) = None)
  | Throws e =>
      ((execSync (spec_command options) = inl e ∨
        ∃ output, execSync (spec_command options) = inr output ∧
                  JSON_parse output = inl e) ∧
       outcome.1.1 = fetching_line options
                     :: report "Error fetching function specs:" e ∧
       outcome.2 = initial_globals)
      ∨
      (onUpdate options = true ∧
       ∃ logs0 r,
         update execSync JSON_parse options initial_globals
         = (logs0, Returns r, outcome.2) ∧
         callback (resultDeploymentName r) = Some e ∧
         globalThis_api outcome.2 = Some (api r) ∧
         globalThis_internal outcome.2 = Some (internal r) ∧
         deploymentName outcome.2 = resultDeploymentName r)
  | Unmodelled => False
  end.
Proof.
  intros options execSync JSON_parse callback outcome.
  apply (update_throws_only_collaborator_errors execSync JSON_parse callback
           options initial_globals outcome.2 outcome.1.1 outcome.1.2).
  - intros output spec _ [= <-]. by repeat constructor.
  - reflexivity.
Defined.

(** A callback that throws: [update] throws its error, and the trees and
    the label are replaced all the same. *)
Example update_callback_throws :
  let outcome :=
    update_calling (Samples.prints Samples.ok_text)
      (Samples.reads_as Samples.mixed_spec) (λ _, Some Samples.syntax_error)
      {| deploymentFlag := EmptyString; isProd := false; onUpdate := true |}
      initial_globals in
  outcome.1.2 = Throws Samples.syntax_error ∧
  deploymentName outcome.2 = "frugal-fox-192" ∧
  is_Some (globalThis_api outcome.2) ∧
  callbacks outcome.1.1 = ["frugal-fox-192"].
Proof. split_and!; [reflexivity | reflexivity | by eexists | reflexivity]. Qed.

(** X16.  [onUpdate] is called at most once in a call of [update], and only
    after both trees and the label have been replaced: the module state at
    the end is then the one a returned [update] leaves, and the name handed
    over is its label.  Without a callback there is no call.  When [update]
    returns with a callback given, the call was made once, with the
    deployment name of the result, after the lines about the counts and
    before the line that says the shell is ready.  When the call throws,
    [update] throws that error and the ready line is not printed. *)
Theorem update_calls_back_once
  (execSync : string → Error + string)
  (JSON_parse : string → Error + ConvexFunctionSpec)
  (callback : string → option Error)
  (options : UpdateOptions) (g g' : Globals)
  (logs : list event) (res : result UpdateResult) :
  update_calling execSync JSON_parse callback options g = (logs, res, g') →
  (callbacks logs = [] ∨
   callbacks logs = [deploymentName g'] ∧ onUpdate options = true ∧
   ∃ logs0 r,
     update execSync JSON_parse options g = (logs0, Returns r, g') ∧
     match callback (deploymentName g') with
     | Some e =>
         res = Throws e ∧
         ∃ before,
           callbacks before = [] ∧
           logs = before ++ Callback (deploymentName g')
                    :: report "Error fetching function specs:" e
     | None => res = Returns r ∧ logs = logs0
     end) ∧
  (∀ r, res = Returns r →
        callbacks logs
        = (if onUpdate options then [resultDeploymentName r] else []) ∧
        ∃ before,
          callbacks before = [] ∧
          logs = before ++ ready_lines options (resultDeploymentName r)).
Proof.
  intros Hcalling.
  pose proof (update_calling_cases execSync JSON_parse options callback g)
    as Hcases.
  pose proof (update_cases execSync JSON_parse options g) as Hupdate.
  destruct (update execSync JSON_parse options g) as [[logs0 res0] g2]
    eqn:Hu.
  destruct res0 as [r | e |].
  - destruct Hupdate as (output & spec & Hexec & Hparse & Hlogs0).
    destruct (update_inv _ _ _ _ _ _ _ _ _ Hexec Hparse Hu)
      as (tapi & tint & _ & _ & _ & Hr & Hg).
    assert (deploymentName g2 = resultDeploymentName r) as Hname
      by (by rewrite Hg, Hr).
    destruct (onUpdate options) eqn:Hon.
    + destruct (callback (resultDeploymentName r)) as [e |] eqn:Hcall.
      * destruct Hcases as (before & Hbefore & Hquiet & Hcases).
        rewrite Hcases in Hcalling. injection Hcalling as <- <- <-.
        split; [| done]. right.
        assert (callbacks
                  (before ++ Callback (resultDeploymentName r)
                     :: report "Error fetching function specs:" e)
                = [resultDeploymentName r]) as Hcalls.
        { rewrite callbacks_app, Hquiet. cbn [callbacks app].
          by rewrite callbacks_report. }
        rewrite Hname. split_and!; [done | done |].
        exists logs0, r. split; [done |]. rewrite Hcall. split; [done |].
        by exists before.
      * rewrite Hcases in Hcalling. injection Hcalling as <- <- <-.
        assert (callbacks logs0 = [resultDeploymentName r]) as Hcalls.
        { by rewrite Hlogs0, callbacks_app, callbacks_summary,
            callbacks_ready, Hon. }
        split.
        -- right. rewrite Hname. split_and!; [done | done |].
           exists logs0, r. split; [done |]. by rewrite Hcall.
        -- intros r' [= <-]. split; [done |]. eexists.
           split; [apply callbacks_summary | exact Hlogs0].
    + rewrite Hcases in Hcalling. injection Hcalling as <- <- <-.
      assert (callbacks logs0 = []) as Hcalls.
      { by rewrite Hlogs0, callbacks_app, callbacks_summary,
          callbacks_ready, Hon. }
      split; [by left |]. intros r' [= <-]. split; [done |]. eexists.
      split; [apply callbacks_summary | exact Hlogs0].
  - rewrite Hcases in Hcalling. injection Hcalling as <- <- <-.
    split; [| done]. left. destruct Hupdate as (_ & -> & _).
    unfold fetching_line. cbn [callbacks]. apply callbacks_report.
  - rewrite Hcases in Hcalling. injection Hcalling as <- <- <-.
    split; [| done]. left.
    destruct Hupdate as (publicCount & internalCount & output & spec & _ & _ & ->).
    apply callbacks_summary.
Qed.

Lemma update_calls_back_once_witness :
  let options :=
    {| deploymentFlag := EmptyString; isProd := false; onUpdate := true |} in
  let execSync := Samples.prints Samples.ok_text in
  let JSON_parse := Samples.reads_as Samples.mixed_spec in
  let callback : string → option Error := λ _, None in
  let outcome :=
    update_calling execSync JSON_parse callback options initial_globals in
  (callbacks outcome.1.1 = [] ∨
   callbacks outcome.1.1 = [deploymentName outcome.2] ∧
   onUpdate options = true ∧
   ∃ logs0 r,
     update execSync JSON_parse options initial_globals
     = (logs0, Returns r, outcome.2) ∧
     match callback (deploymentName outcome.2) with
     | Some e =>
         outcome.1.2 = Throws e ∧
         ∃ before,
           callbacks before = [] ∧
           outcome.1.1 = before ++ Callback (deploymentName outcome.2)
                           :: report "Error fetching function specs:" e
     | None => outcome.1.2 = Returns r ∧ outcome.1.1 = logs0
     end) ∧
  (∀ r, outcome.1.2 = Returns r →
        callbacks outcome.1.1
        = (if onUpdate options then [resultDeploymentName r] else []) ∧
        ∃ before,
          callbacks before = [] ∧
          outcome.1.1
          = before ++ ready_lines options (resultDeploymentName r)).
Proof.
  intros options execSync JSON_parse callback outcome.
  apply (update_calls_back_once execSync JSON_parse callback options
           initial_globals outcome.2 outcome.1.1 outcome.1.2).
  reflexivity.
Defined.

Example update_calls_back_with_label :
  callbacks
    (update_calling (Samples.prints Samples.ok_text)
       (Samples.reads_as Samples.mixed_spec) (λ _, None)
       {| deploymentFlag := EmptyString; isProd := false; onUpdate := true |}
       initial_globals).1.1
  = ["frugal-fox-192"].
Proof. reflexivity. Qed.

(** X17.  The counts [update] prints add up: the public count, the internal
    count, the skipped count and the number of descriptors that pass the
    visibility test with another kind make the number of loaded
    descriptors; a descriptor is counted in one of the four only. *)
Theorem update_counts_add_up
  (execSync : string → Error + string)
  (JSON_parse : string → Error + ConvexFunctionSpec)
  (options : UpdateOptions) (g g' : Globals) (output : string)
  (spec : ConvexFunctionSpec) (logs : list event) (r : UpdateResult) :
  execSync (spec_command options) = inr output →
  JSON_parse output = inr spec →
  update execSync JSON_parse options g = (logs, Returns r, g') →
  ∃ publicCount internalCount : nat,
    logs = summary_lines options spec publicCount internalCount
           ++ ready_lines options (resultDeploymentName r) ∧
    (publicCount + internalCount + invalidCount spec
     + length (List.filter other_kind (functions spec))
     = length (functions spec))%nat.
Proof.
  intros Hexec Hparse Hupdate.
  destruct (update_inv _ _ _ _ _ _ _ _ _ Hexec Hparse Hupdate)
    as (tapi & tint & _ & _ & -> & -> & _).
  eexists _, _. split; [reflexivity |].
  rewrite invalidCount_without_visibility.
  pose proof (counts_add_up (functions spec)) as Hsum.
  unfold validFunctions. lia.
Qed.

Lemma update_counts_add_up_witness :
  ∃ publicCount internalCount : nat,
    (update (Samples.prints Samples.ok_text)
       (Samples.reads_as Samples.mixed_spec) Samples.options
       initial_globals).1.1
    = summary_lines Samples.options Samples.mixed_spec publicCount
        internalCount
      ++ ready_lines Samples.options "frugal-fox-192" ∧
    (publicCount + internalCount + invalidCount Samples.mixed_spec
     + length (List.filter other_kind (functions Samples.mixed_spec))
     = length (functions Samples.mixed_spec))%nat.
Proof.
  eapply (update_counts_add_up (Samples.prints Samples.ok_text)
            (Samples.reads_as Samples.mixed_spec) Samples.options
            initial_globals _ Samples.ok_text Samples.mixed_spec);
    reflexivity.
Defined.

(** * The shell *)

Section ShellFacts.
Variable execSync : string → Error + string.
Variable JSON_parse : string → Error + ConvexFunctionSpec.
Variable isProd : bool.

Lemma play_app logs1 logs2 sh :
play isProd (logs1 ++ logs2) sh
= ((play isProd logs1 sh).1
   ++ (play isProd logs2 (play isProd logs1 sh).2).1,
   (play isProd logs2 (play isProd logs1 sh).2).2).
Proof.
revert sh. induction logs1 as [|[line | line | name] logs1 IH]; intros sh;
  cbn [app play fst snd].
- by rewrite <- surjective_pairing.
- by rewrite IH.
- by rewrite IH.
- rewrite IH. cbn [fst snd]. by rewrite app_assoc.
Qed.

(** Without a call of the callback the shell only shows the lines. *)
Lemma play_quiet logs sh :
callbacks logs = [] → play isProd logs sh = (map Console logs, sh).
Proof.
induction logs as [|[line | line | name] logs IH]; cbn [callbacks play map];
  [done | | | done]; intros Hquiet; by rewrite IH.
Qed.

Lemma prompts_app out1 out2 :
prompts (out1 ++ out2) = prompts out1 ++ prompts out2.
Proof.
induction out1 as [|[e | text] out1 IH]; simpl; [done | done |].
by rewrite IH.
Qed.

Lemma prompts_console logs : prompts (map Console logs) = [].
Proof. by induction logs. Qed.

Lemma play_ready name sh :
play isProd (ready_lines (shell_options isProd) name) sh
= ((on_update isProd name sh).1
   ++ [Console (Log (newline +:+ "Ready! Type help() for usage information or use Tab for autocomplete." +:+ newline))],
   (on_update isProd name sh).2).
Proof. reflexivity. Qed.

(** What [shellUpdate] does, by the way [update] ends. *)
Lemma shellUpdate_cases sh :
let '(out, res, sh') := shellUpdate execSync JSON_parse isProd sh in
match res with
| Returns r =>
    shellDeploymentName sh' = resultDeploymentName r ∧
    deploymentName (library sh') = resultDeploymentName r ∧
    replServer sh'
    = (λ _, prompt_of isProd (resultDeploymentName r)) <$> replServer sh ∧
    prompts out
    = match replServer sh with
      | Some _ => [prompt_of isProd (resultDeploymentName r)]
      | None => []
      end
| Throws e => sh' = sh ∧ prompts out = []
| Unmodelled =>
    shellDeploymentName sh' = shellDeploymentName sh ∧
    replServer sh' = replServer sh ∧ prompts out = []
end.
Proof.
unfold shellUpdate.
pose proof (update_cases execSync JSON_parse (shell_options isProd)
              (library sh)) as Hcases.
destruct (update execSync JSON_parse (shell_options isProd) (library sh))
  as [[logs res] g'] eqn:Hupdate.
cbn [fst snd]. destruct res as [r | e |].
- destruct Hcases as (output & spec & Hexec & Hparse & Hlogs).
  destruct (update_inv _ _ _ _ _ _ _ _ _ Hexec Hparse Hupdate)
    as (tapi & tint & _ & _ & _ & Hr & Hg).
  rewrite Hlogs, play_app, play_quiet by apply callbacks_summary.
  cbn [fst snd]. rewrite play_ready. cbn [fst snd].
  rewrite !prompts_app, prompts_console. unfold on_update, updatePrompt.
  cbn [replServer shellDeploymentName library].
  rewrite Hg. cbn [deploymentName library]. rewrite Hr.
  cbn [resultDeploymentName].
  by destruct (replServer sh) as [text |].
- destruct Hcases as (_ & -> & ->).
  rewrite play_quiet
    by (unfold fetching_line; cbn [callbacks]; apply callbacks_report).
  cbn [fst snd]. split; [by destruct sh | apply prompts_console].
- destruct Hcases as (publicCount & internalCount & output & spec & _ & _ & ->).
  rewrite play_quiet by apply callbacks_summary.
  cbn [fst snd]. split_and!; [done | done | apply prompts_console].
Qed.
End ShellFacts.

(** X18.  The prompt follows the deployment, when whatever the spec command
    prints parses, if it parses, to a spec of the declared shape whose path
    segments are ordinary keys.  If the shell's name for the deployment is
    the library's and the prompt of a started REPL shows it, the same holds
    after [shellUpdate], which then returns or throws a collaborator's
    error.  When it returned, the name is the one of the result, and a
    started REPL has shown its new prompt once; when it threw, the shell is
    as it was and no prompt was shown. *)
Theorem shellUpdate_keeps_prompt_in_sync
  (execSync : string → Error + string)
  (JSON_parse : string → Error + ConvexFunctionSpec)
  (isProd : bool) (sh sh' : Shell) (out : list output)
  (res : result UpdateResult) :
  ordinary_output execSync JSON_parse (shell_options isProd) →
  in_sync isProd sh →
  shellUpdate execSync JSON_parse isProd sh = (out, res, sh') →
  in_sync isProd sh' ∧
  match res with
  | Returns r =>
      shellDeploymentName sh' = resultDeploymentName r ∧
      prompts out
      = match replServer sh with
        | Some _ => [prompt_of isProd (resultDeploymentName r)]
        | None => []
        end
  | Throws e =>
      (execSync (spec_command (shell_options isProd)) = inl e ∨
       ∃ output,
         execSync (spec_command (shell_options isProd)) = inr output ∧
         JSON_parse output = inl e) ∧
      sh' = sh ∧ prompts out = []
  | Unmodelled => False
  end.
Proof.
  intros Hord [Hname Hprompt] Hupdate.
  pose proof (shellUpdate_cases execSync JSON_parse isProd sh) as Hcases.
  pose proof (update_cases execSync JSON_parse (shell_options isProd)
                (library sh)) as Hsource.
  pose proof (update_modelled execSync JSON_parse (shell_options isProd)
                (library sh)) as Hmodelled.
  rewrite Hupdate in Hcases. unfold shellUpdate in Hupdate.
  destruct (update execSync JSON_parse (shell_options isProd) (library sh))
    as [[logs ures] g'] eqn:Hu.
  cbn [fst snd] in Hupdate. injection Hupdate as <- <- <-.
  destruct ures as [r | e |].
  - destruct Hcases as (Hname' & Hlib & Hrepl & Hshown).
    split; [| done]. split; [congruence |].
    intros text. rewrite Hrepl, Hname'.
    destruct (replServer sh); [by intros [= <-] | done].
  - destruct Hcases as [Hsame Hshown]. destruct Hsource as (Hsource & _ & _).
    rewrite Hsame. by split.
  - by destruct (Hmodelled logs g' Hord).
Qed.

Lemma shellUpdate_keeps_prompt_in_sync_witness :
  let sh :=
    {| shellDeploymentName := "unknown";
       replServer := Some "unknown:dev> ";
       library := initial_globals |} in
  let execSync := Samples.prints Samples.ok_text in
  let JSON_parse := Samples.reads_as Samples.mixed_spec in
  let outcome := shellUpdate execSync JSON_parse false sh in
  in_sync false outcome.2 ∧
  match outcome.1.2 with
  | Returns r =>
      shellDeploymentName outcome.2 = resultDeploymentName r ∧
      prompts outcome.1.1
      = match replServer sh with
        | Some _ => [prompt_of false (resultDeploymentName r)]
        | None => []
        end
  | Throws e =>
      (execSync (spec_command (shell_options false)) = inl e ∨
       ∃ output,
         execSync (spec_command (shell_options false)) = inr output ∧
         JSON_parse output = inl e) ∧
      outcome.2 = sh ∧ prompts outcome.1.1 = []
  | Unmodelled => False
  end.
Proof.
  intros sh execSync JSON_parse outcome.
  apply (shellUpdate_keeps_prompt_in_sync execSync JSON_parse false sh
           outcome.2 outcome.1.1 outcome.1.2).
  - intros output spec _ [= <-]. by repeat constructor.
  - split; [reflexivity |]. intros text [= <-]. reflexivity.
  - reflexivity.
Defined.

Example prompt_after_update :
  let outcome :=
    shellUpdate (Samples.prints Samples.ok_text)
      (Samples.reads_as Samples.mixed_spec) false
      {| shellDeploymentName := "unknown";
         replServer := Some "unknown:dev> ";
         library := initial_globals |} in
  replServer outcome.2 = Some "frugal-fox-192:dev> " ∧
  prompts outcome.1.1 = ["frugal-fox-192:dev> "].
Proof. by vm_compute. Qed.

(** X19.  [startRepl], when whatever the spec command prints parses, if it
    parses, to a spec of the declared shape whose path segments are
    ordinary keys.  It starts the REPL only when the first [update]
    returned: then the prompt of the REPL is the deployment name of the
    result with the mode, the shell's name is the library's, both trees are
    bound, and on a shell whose REPL had not started the first prompt is
    the last thing shown, after the banner.  Otherwise the first [update]
    threw a collaborator's error: [startRepl] throws the same error, the
    banner is not printed and the shell is as it was. *)
Theorem startRepl_starts_with_label
  (execSync : string → Error + string)
  (JSON_parse : string → Error + ConvexFunctionSpec)
  (isProd : bool) (sh sh' : Shell) (out : list output)
  (res : result unit) :
  ordinary_output execSync JSON_parse (shell_options isProd) →
  replServer sh = None →
  startRepl execSync JSON_parse isProd sh = (out, res, sh') →
  match res with
  | Returns _ =>
      ∃ r lines,
        (shellUpdate execSync JSON_parse isProd sh).1.2 = Returns r ∧
        replServer sh' = Some (prompt_of isProd (resultDeploymentName r)) ∧
        in_sync isProd sh' ∧
        is_Some (globalThis_api (library sh')) ∧
        is_Some (globalThis_internal (library sh')) ∧
        prompts lines = [] ∧
        out = lines ++ banner isProd
              ++ [Prompt (prompt_of isProd (resultDeploymentName r))]
  | Throws e =>
      (execSync (spec_command (shell_options isProd)) = inl e ∨
       ∃ output,
         execSync (spec_command (shell_options isProd)) = inr output ∧
         JSON_parse output = inl e) ∧
      sh' = sh ∧ prompts out = [] ∧
      Forall (λ line, line ∉ out) (banner isProd)
  | Unmodelled => False
  end.
Proof.
  intros Hord Hrepl. unfold startRepl.
  pose proof (shellUpdate_cases execSync JSON_parse isProd sh) as Hcases.
  pose proof (update_cases execSync JSON_parse (shell_options isProd)
                (library sh)) as Hupdate.
  pose proof (update_modelled execSync JSON_parse (shell_options isProd)
                (library sh)) as Hmodelled.
  unfold shellUpdate in *.
  destruct (update execSync JSON_parse (shell_options isProd) (library sh))
    as [[logs ures] g'] eqn:Hu.
  cbn [fst snd] in *. destruct ures as [r | e |]; intros [= <- <- <-].
  - destruct Hcases as (Hname & Hlib & _ & Hshown). rewrite Hrepl in Hshown.
    destruct Hupdate as (output & spec & Hexec & Hparse & _).
    destruct (update_inv _ _ _ _ _ _ _ _ _ Hexec Hparse Hu)
      as (tapi & tint & _ & _ & _ & _ & ->).
    exists r, (play isProd logs sh).1. split_and!; try done.
    split; [by symmetry | by intros text [= <-]].
  - destruct Hcases as [Hsame Hshown].
    destruct Hupdate as (Hsource & -> & _).
    split_and!; [done | done | done |].
    rewrite play_quiet
      by (unfold fetching_line; cbn [callbacks]; apply callbacks_report).
    cbn [fst]. unfold banner.
    repeat constructor; intros Hin; apply list_elem_of_fmap in Hin
      as (ev & Hev & Hin); injection Hev as <-;
      apply elem_of_cons in Hin as [Hin | Hin]; try done;
      unfold report in Hin;
      apply elem_of_cons in Hin as [Hin | Hin]; try done;
      destruct (stderr e) as [text |]; try (by apply elem_of_nil in Hin);
      destruct (String.eqb text EmptyString);
      try (by apply elem_of_nil in Hin);
      by apply list_elem_of_singleton in Hin.
  - by destruct (Hmodelled logs g' Hord).
Qed.

Lemma startRepl_starts_with_label_witness :
  let execSync := Samples.prints Samples.ok_text in
  let JSON_parse := Samples.reads_as Samples.mixed_spec in
  let outcome := startRepl execSync JSON_parse true initial_shell in
  match outcome.1.2 with
  | Returns _ =>
      ∃ r lines,
        (shellUpdate execSync JSON_parse true initial_shell).1.2 = Returns r ∧
        replServer outcome.2 = Some (prompt_of true (resultDeploymentName r)) ∧
        in_sync true outcome.2 ∧
        is_Some (globalThis_api (library outcome.2)) ∧
        is_Some (globalThis_internal (library outcome.2)) ∧
        prompts lines = [] ∧
        outcome.1.1 = lines ++ banner true
                      ++ [Prompt (prompt_of true (resultDeploymentName r))]
  | Throws e =>
      (execSync (spec_command (shell_options true)) = inl e ∨
       ∃ output,
         execSync (spec_command (shell_options true)) = inr output ∧
         JSON_parse output = inl e) ∧
      outcome.2 = initial_shell ∧ prompts outcome.1.1 = [] ∧
      Forall (λ line, line ∉ outcome.1.1) (banner true)
  | Unmodelled => False
  end.
Proof.
  intros execSync JSON_parse outcome.
  apply (startRepl_starts_with_label execSync JSON_parse true initial_shell
           outcome.2 outcome.1.1 outcome.1.2).
  - intros output spec _ [= <-]. by repeat constructor.
  - reflexivity.
  - reflexivity.
Defined.

Example startRepl_prod_prompt :
  replServer
    (startRepl (Samples.prints Samples.ok_text)
       (Samples.reads_as Samples.mixed_spec) true initial_shell).2
  = Some "frugal-fox-192:prod> ".
Proof. by vm_compute. Qed.

(** ** The completer *)

Section CompleterFacts.
Import Str StrFacts StrMore Regex.
#[local] Arguments String.append : simpl nomatch.

Variable eval_keys : string → Error + option (list string).

Lemma length_app (a b : string) :
String.length (a +:+ b) = String.length a + String.length b.
Proof.
induction a as [|c a IH]; [done |]. rewrite app_cons. simpl. by rewrite IH.
Qed.

Lemma take_app (a b : string) : take (String.length a) (a +:+ b) = a.
Proof.
induction a as [|c a IH]; [by destruct b |]. rewrite app_cons. simpl.
by rewrite IH.
Qed.


Lemma occurs_drop c n (s : string) :
occurs c s = false → occurs c (drop n s) = false.
Proof.
revert s. induction n as [|n IH]; intros s; [done |].
destruct s as [|d s]; [done |]. simpl.
destruct (Ascii.eqb d c); [done | apply IH].
Qed.

Lemma ident_char_not_dot c : ident_char c = true → Ascii.eqb c "." = false.
Proof. by destruct c as [[] [] [] [] [] [] [] []]. Qed.

Lemma ident_start_char c : ident_start c = true → ident_char c = true.
Proof. unfold ident_char. by intros ->. Qed.

Lemma space_not_dot c : is_space c = true → Ascii.eqb c "." = false.
Proof. by destruct c as [[] [] [] [] [] [] [] []]. Qed.

(** Without a dot ahead, the matcher has seen all it will see. *)
Lemma last_dot_no_dot p at' seen (s : string) :
occurs "." s = false → last_dot p at' seen s = seen.
Proof.
revert p at'. induction s as [|c s IH]; intros p at'; [done |].
cbn [occurs last_dot]. destruct (Ascii.eqb c "."); [done |].
intros Hs. destruct p; [done | |].
- destruct (ident_start c); [by apply IH | done].
- destruct (ident_char c); [by apply IH | done].
Qed.

Lemma last_dot_name at' seen (w s : string) :
all_ident_chars w = true →
last_dot InName at' seen (w +:+ s)
= last_dot InName (at' + String.length w) seen s.
Proof.
revert at'. induction w as [|c w IH]; intros at'.
- intros _. rewrite app_nil_l. simpl. by rewrite Nat.add_0_r.
- cbn [all_ident_chars]. intros [Hc Hw]%andb_true_iff.
  rewrite app_cons. cbn [last_dot].
  rewrite (ident_char_not_dot c Hc), Hc, IH by done.
  simpl. f_equal. lia.
Qed.

Lemma members_cons name names :
members (name :: names) = String "." (name +:+ members names).
Proof. reflexivity. Qed.

(** On a run of members, a dot and a text without a dot, the match ends at
  the dot after the run. *)
Lemma last_dot_members p at' seen names (partial : string) :
p ≠ AfterDot →
Forall (λ name, member_name name = true) names →
occurs "." partial = false →
last_dot p at' seen (members names +:+ "." +:+ partial)
= Some (at' + String.length (members names)).
Proof.
intros Hp Hnames Hpartial. revert p at' seen Hp.
induction Hnames as [|name names Hname _ IH]; intros p at' seen Hp.
- cbn [members]. rewrite app_nil_l.
  change ("." +:+ partial) with (String "." partial).
  rewrite Nat.add_0_r.
  destruct p; [| done |]; cbn [last_dot]; simpl (Ascii.eqb _ _);
    by apply last_dot_no_dot.
- remember ("." +:+ partial) as tail eqn:Htail.
  rewrite members_cons, app_cons.
  destruct name as [|c w]; [done |]. cbn [member_name] in Hname.
  apply andb_true_iff in Hname as [Hc Hw].
  rewrite !app_cons, app_assoc.
  assert (last_dot p at' seen
            (String "." (String c (w +:+ members names +:+ tail)))
          = last_dot InName (S (S at')) (Some at')
              (w +:+ members names +:+ tail)) as ->.
  { destruct p; [| done |]; cbn [last_dot]; simpl (Ascii.eqb "." ".");
      cbn iota; by rewrite Hc. }
  rewrite last_dot_name, IH by done.
  f_equal. simpl. rewrite length_app. lia.
Qed.

Lemma access_of_members root names (partial : string) :
Forall (λ name, member_name name = true) names →
occurs "." partial = false →
access_of root (root +:+ members names +:+ "." +:+ partial)
= Some (root +:+ members names, (root +:+ members names) +:+ ".").
Proof.
intros Hnames Hpartial. unfold access_of.
rewrite prefix_app, drop_app, last_dot_members by done.
by rewrite Nat.add_0_l, take_app.
Qed.

Lemma access_here_members root names (partial : string) :
root = "api" ∨ root = "internal" →
Forall (λ name, member_name name = true) names →
occurs "." partial = false →
access_here (root +:+ members names +:+ "." +:+ partial)
= Some (root +:+ members names, (root +:+ members names) +:+ ".").
Proof.
intros [-> | ->] Hnames Hpartial; unfold access_here.
- by rewrite access_of_members.
- rewrite (access_of_members "internal") by done.
  by destruct (access_of "api" _) eqn:Hapi.
Qed.

Lemma access_here_other c (s : string) :
Ascii.eqb c "a" = false → Ascii.eqb c "i" = false →
access_here (String c s) = None.
Proof.
intros Ha Hi. unfold access_here, access_of. cbn [String.prefix].
destruct (ascii_dec "a" c) as [<- | _]; [done |].
by destruct (ascii_dec "i" c) as [<- | _].
Qed.

(** The search passes over a text in which no root name can start. *)
Lemma access_skip (before text : string) after_word :
no_root_start before = true →
access after_word (before +:+ text)
= access (match last_char before with
          | Some c => word_char c
          | None => after_word
          end) text.
Proof.
revert after_word. induction before as [|c before IH]; intros after_word.
- intros _. by rewrite app_nil_l.
- cbn [no_root_start].
  intros [[Ha%negb_true_iff Hi%negb_true_iff]%andb_true_iff Hrest]%andb_true_iff.
  rewrite app_cons. cbn [access]. rewrite access_here_other by done.
  replace (if after_word then None else None)
    with (@None (string * string)) by (by destruct after_word).
  rewrite IH by done. cbn [last_char].
  by destruct (last_char before).
Qed.

Lemma access_found (s : string) m :
access_here s = Some m → access false s = Some m.
Proof. destruct s as [|c s]; [done |]. cbn [access]. by intros ->. Qed.

Lemma access_members (before : string) root names (partial : string) :
no_root_start before = true → ends_at_boundary before = true →
root = "api" ∨ root = "internal" →
Forall (λ name, member_name name = true) names →
occurs "." partial = false →
access false (before +:+ root +:+ members names +:+ "." +:+ partial)
= Some (root +:+ members names, (root +:+ members names) +:+ ".").
Proof.
intros Hbefore Hend Hroot Hnames Hpartial.
rewrite access_skip by done. unfold ends_at_boundary in Hend.
replace (match last_char before with
         | Some c => word_char c
         | None => false
         end) with false.
- by apply access_found, access_here_members.
- destruct (last_char before) as [c |]; [| done].
  by apply negb_true_iff in Hend.
Qed.

Lemma all_space_app (a b : string) :
all_space (a +:+ b) = all_space a && all_space b.
Proof.
induction a as [|c a IH]; [by rewrite app_nil_l |].
rewrite app_cons. simpl. rewrite IH. by destruct (is_space c).
Qed.

Lemma all_space_no_dot (s : string) : all_space s = true → occurs "." s = false.
Proof.
induction s as [|c s IH]; [done |]. simpl.
intros [Hc Hs]%andb_true_iff. rewrite (space_not_dot c Hc). by apply IH.
Qed.

Lemma trim_start_all_space (s : string) :
all_space s = true → trim_start s = EmptyString.
Proof.
induction s as [|c s IH]; [done |]. simpl.
intros [-> Hs]%andb_true_iff. by apply IH.
Qed.

(** The test for a blank line. *)
Lemma blank_line (line : string) :
String.eqb line EmptyString || String.eqb (trim line) EmptyString
= all_space line.
Proof.
destruct (all_space line) eqn:Hline.
- unfold trim. rewrite trim_start_all_space by done. simpl.
  apply orb_true_r.
- apply orb_false_iff. split.
  + apply String.eqb_neq. by intros ->.
  + apply String.eqb_neq. intros Hempty.
    destruct (trim_spec line) as (pre & post & Hsplit & Hpre & Hpost & _).
    rewrite Hempty, app_nil_l in Hsplit.
    rewrite Hsplit, all_space_app, Hpre, Hpost in Hline. done.
Qed.

Lemma not_blank_with_dot (line : string) :
occurs "." line = true →
String.eqb line EmptyString || String.eqb (trim line) EmptyString = false.
Proof.
intros Hdot. rewrite blank_line.
destruct (all_space line) eqn:Hline; [| done].
by rewrite all_space_no_dot in Hdot.
Qed.

(** The completer on a line that holds a member access. *)
Lemma customCompleter_access (before : string) root names (partial : string) :
no_root_start before = true → ends_at_boundary before = true →
root = "api" ∨ root = "internal" →
Forall (λ name, member_name name = true) names →
occurs "." partial = false →
let expr := root +:+ members names in
let line := before +:+ expr +:+ "." +:+ partial in
let token := drop (String.length (expr +:+ ".")) line in
customCompleter eval_keys line
= match eval_keys expr with
  | inl _ => ([], EmptyString)
  | inr (Some keys) => (completions token keys, token)
  | inr None => topLevel line
  end.
Proof.
intros Hbefore Hend Hroot Hnames Hpartial expr line token.
unfold customCompleter.
assert (line = before +:+ root +:+ members names +:+ "." +:+ partial)
  as Hline by (unfold line, expr; by rewrite app_assoc).
rewrite not_blank_with_dot.
- rewrite Hline at 1. rewrite access_members by done. done.
- rewrite Hline, !occurs_app. simpl. by rewrite !orb_true_r.
Qed.

Lemma completions_spec token keys :
(∀ k, k ∈ completions token keys → k ∈ keys) ∧
(∀ k, k ∈ keys → String.prefix token k = true →
      k ∈ completions token keys ∧
      Forall (λ k', String.prefix token k' = true) (completions token keys))
∧ (keys ≠ [] → completions token keys ≠ []).
Proof.
unfold completions, hits_or.
destruct (List.filter (String.prefix token) keys) as [|hit hits] eqn:Hhits.
- split_and!; [done | | done]. intros k Hin Hk.
  assert (k ∈ List.filter (String.prefix token) keys) as Hin'.
  { apply list_elem_of_In, List.filter_In. by rewrite <- list_elem_of_In. }
  rewrite Hhits in Hin'. by apply elem_of_nil in Hin'.
- rewrite <- Hhits. split_and!.
  + intros k Hin%list_elem_of_In%List.filter_In. apply list_elem_of_In, Hin.
  + intros k Hin Hk. split.
    * apply list_elem_of_In, List.filter_In. by rewrite <- list_elem_of_In.
    * apply Forall_forall. intros k' Hin'%list_elem_of_In%List.filter_In.
      apply Hin'.
  + by rewrite Hhits.
Qed.

Lemma access_here_no_dot (s : string) :
occurs "." s = false → access_here s = None.
Proof.
intros Hs. unfold access_here, access_of.
destruct (String.prefix "api" s).
- rewrite last_dot_no_dot by (by apply occurs_drop).
  destruct (String.prefix "internal" s); [| done].
  by rewrite last_dot_no_dot by (by apply occurs_drop).
- destruct (String.prefix "internal" s); [| done].
  by rewrite last_dot_no_dot by (by apply occurs_drop).
Qed.

(** The pattern needs a dot. *)
Lemma access_no_dot after_word (s : string) :
occurs "." s = false → access after_word s = None.
Proof.
revert after_word. induction s as [|c s IH]; intros after_word Hs; [done |].
cbn [access]. rewrite access_here_no_dot by done.
replace (if after_word then None else None)
  with (@None (string * string)) by (by destruct after_word).
apply IH. by apply occurs_cons_false in Hs as [_ Hs].
Qed.

Lemma any_space_app (a b : string) :
any_space (a +:+ b) = any_space a || any_space b.
Proof.
induction a as [|c a IH]; [by rewrite app_nil_l |].
rewrite app_cons. simpl. rewrite IH. by destruct (is_space c).
Qed.

(** The last token is what follows the last white space. *)
Lemma last_token_spec (line : string) :
∃ pre,
  line = pre +:+ last_token line ∧
  any_space (last_token line) = false ∧
  match last_char pre with
  | Some c => is_space c = true
  | None => True
  end.
Proof.
induction line as [|c line (pre & Hline & Htoken & Hpre)].
{ by exists EmptyString. }
cbn [last_token]. destruct (any_space (String c line)) eqn:Hspace.
- exists (String c pre). rewrite app_cons, <- Hline. split_and!; [done.. |].
  cbn [last_char]. destruct (last_char pre) as [d |] eqn:Hlast; [done |].
  destruct pre as [|e pre]; [| simpl in Hlast; by destruct (last_char pre)].
  rewrite app_nil_l in Hline. rewrite <- Hline in Htoken.
  cbn [any_space] in Hspace. rewrite Htoken, orb_false_r in Hspace.
  by cbn [last_char].
- by exists EmptyString.
Qed.
End CompleterFacts.

(** X20.  On a line that is a member access rooted at [api] or [internal]
    (the root, member names, a dot, and a text without a dot, which may be
    empty), the completer evaluates the access up to the last dot and
    completes the text after it: it offers the keys of the object that
    start with that text, or all its keys when none does, and it never
    offers anything that is not a key.  When the evaluation throws it
    offers nothing; when the value is not an object it falls back to the
    top-level completions. *)
Theorem customCompleter_completes_member
  (eval_keys : string → Error + option (list string))
  (root : string) (names : list string) (partial : string) :
  root = "api" ∨ root = "internal" →
  Forall (λ name, member_name name = true) names →
  Str.occurs "." partial = false →
  let expr := root +:+ members names in
  let line := expr +:+ "." +:+ partial in
  customCompleter eval_keys line
  = match eval_keys expr with
    | inl _ => ([], EmptyString)
    | inr (Some keys) => (completions partial keys, partial)
    | inr None => topLevel line
    end
  ∧ ∀ keys,
      (∀ k, k ∈ completions partial keys → k ∈ keys) ∧
      (∀ k, k ∈ keys → String.prefix partial k = true →
            k ∈ completions partial keys ∧
            Forall (λ k', String.prefix partial k' = true)
              (completions partial keys)).
Proof.
  intros Hroot Hnames Hpartial expr line. split.
  - pose proof (customCompleter_access eval_keys EmptyString root names
                  partial eq_refl eq_refl Hroot Hnames Hpartial) as Hline.
    cbn zeta in Hline. rewrite StrFacts.app_nil_l in Hline.
    fold expr in Hline. fold line in Hline. rewrite Hline.
    unfold line. rewrite <- StrFacts.app_assoc, StrFacts.drop_app. done.
  - intros keys. destruct (completions_spec partial keys) as (H1 & H2 & _).
    by split.
Qed.

Lemma customCompleter_completes_member_witness :
  let eval_keys : string → Error + option (list string) :=
    λ expr, if String.eqb expr "api.users"
            then inr (Some ["list"; "lookup"; "get"])
            else inl Samples.syntax_error in
  customCompleter eval_keys "api.users.l" = (["list"; "lookup"], "l").
Proof.
  intros eval_keys.
  destruct (customCompleter_completes_member eval_keys "api" ["users"] "l")
    as [Hline _]; [by left | by repeat constructor | reflexivity |].
  exact Hline.
Defined.



Example customCompleter_after_assignment :
  customCompleter
    (λ expr, if String.eqb expr "api.users"
             then inr (Some ["list"; "lookup"; "get"])
             else inl Samples.syntax_error)
    "x = api.users.l"
  = (["list"; "lookup"; "get"], "ers.l").
Proof. reflexivity. Qed.

(** X22.  On a line without a dot the pattern cannot match and nothing is
    evaluated: a blank line gets the four top-level names and the line
    itself as the token; any other line gets the top-level names that
    start with its last token, or all four when none does.  The last token
    is what follows the last white space of the line.  The list offered is
    never empty. *)
Theorem customCompleter_top_level
  (eval_keys : string → Error + option (list string)) (line : string) :
  Str.occurs "." line = false →
  customCompleter eval_keys line
  = (if StrMore.all_space line
     then (topLevelCompletions, line)
     else (completions (Regex.last_token line) topLevelCompletions,
           Regex.last_token line))
  ∧ (customCompleter eval_keys line).1 ≠ []
  ∧ ∃ pre,
      line = pre +:+ Regex.last_token line ∧
      Regex.any_space (Regex.last_token line) = false ∧
      match StrMore.last_char pre with
      | Some c => Str.is_space c = true
      | None => True
      end.
Proof.
  intros Hline.
  assert (customCompleter eval_keys line
          = (if StrMore.all_space line
             then (topLevelCompletions, line)
             else (completions (Regex.last_token line) topLevelCompletions,
                   Regex.last_token line))) as Hresult.
  { unfold customCompleter. rewrite blank_line.
    destruct (StrMore.all_space line); [done |].
    by rewrite access_no_dot. }
  split_and!; [done | | apply last_token_spec].
  rewrite Hresult. destruct (StrMore.all_space line); [done |].
  by apply completions_spec.
Qed.

Lemma customCompleter_top_level_witness :
  customCompleter (λ _, inl Samples.syntax_error) "await up"
  = (if StrMore.all_space "await up"
     then (topLevelCompletions, "await up")
     else (completions (Regex.last_token "await up") topLevelCompletions,
           Regex.last_token "await up"))
  ∧ (customCompleter (λ _, inl Samples.syntax_error) "await up").1 ≠ []
  ∧ ∃ pre,
      "await up" = pre +:+ Regex.last_token "await up" ∧
      Regex.any_space (Regex.last_token "await up") = false ∧
      match StrMore.last_char pre with
      | Some c => Str.is_space c = true
      | None => True
      end.
Proof.
  apply (customCompleter_top_level (λ _, inl Samples.syntax_error) "await up").
  reflexivity.
Defined.

Example customCompleter_update :
  customCompleter (λ _, inl Samples.syntax_error) "await up"
  = (["update"], "up").
Proof. reflexivity. Qed.

(** ** The command lines *)

Section Commands.
Import Str StrFacts StrMore.
#[local] Arguments String.append : simpl nomatch.

Lemma last_char_snoc (a : string) c :
last_char (a +:+ String c EmptyString) = Some c.
Proof.
induction a as [|d a IH]; [done |]. rewrite app_cons. cbn [last_char].
by rewrite IH.
Qed.

Lemma trim_end_all_space (s : string) :
all_space s = true → trim_end s = EmptyString.
Proof.
induction s as [|c s IH]; [done |]. simpl.
intros [-> Hs]%andb_true_iff. by rewrite IH.
Qed.

Lemma trim_end_not_empty (s : string) :
all_space s = false → trim_end s ≠ EmptyString.
Proof.
induction s as [|c s IH]; [done |]. rewrite trim_end_cons. simpl.
destruct (trim_end s) as [|d t]; [| done].
destruct (is_space c); [| done]. simpl. intros Hs. by apply IH.
Qed.

(** Trimming the end of a text that has something after its first part. *)
Lemma trim_end_app (a b : string) :
trim_end (a +:+ b)
= if all_space b then trim_end a else a +:+ trim_end b.
Proof.
induction a as [|c a IH].
- rewrite !app_nil_l.
  destruct (all_space b) eqn:Hb; [by apply trim_end_all_space | done].
- rewrite app_cons, !trim_end_cons, IH.
  destruct (all_space b) eqn:Hb; [done |].
  pose proof (trim_end_not_empty b Hb) as Hne.
  rewrite app_cons.
  destruct (a +:+ trim_end b) as [|d t] eqn:Htail; [| done].
  destruct a; [by rewrite app_nil_l in Htail | by rewrite app_cons in Htail].
Qed.
End Commands.

(** X23.  Trimming changes nothing in the command line of a leaf call: it
    starts with [npx] and ends with the quote that closes the arguments.
    The command is the text as it is put together, so with an empty
    deployment flag it has two spaces between [run] and the quoted path. *)
Theorem run_command_is_not_trimmed
  {JSValue : Type} (JSON_stringify : JSValue → string)
  (l : Leaf) (args : JSValue) :
  run_command JSON_stringify l args
  = "npx convex run " +:+ leafFlag l +:+ " " +:+ dquote +:+ runPath l
    +:+ dquote +:+ " '" +:+ JSON_stringify args +:+ "'".
Proof.
  unfold run_command, Str.trim.
  rewrite trim_start_fixed by done.
  apply trim_end_fixed.
  rewrite <- !StrFacts.app_assoc.
  by rewrite (last_char_snoc _ "'").
Qed.

(** X24.  The command line of the spec fetch is [npx convex function-spec]
    when the deployment flag is empty or white space, without a space at
    its end; else it is that text, a space and the flag without the white
    space at its end. *)
Theorem spec_command_trims_flag (options : UpdateOptions) :
  spec_command options
  = if StrMore.all_space (deploymentFlag options)
    then "npx convex function-spec"
    else "npx convex function-spec " +:+ Str.trim_end (deploymentFlag options).
Proof.
  unfold spec_command, Str.trim.
  rewrite trim_start_fixed by done.
  rewrite trim_end_app.
  by destruct (StrMore.all_space (deploymentFlag options)).
Qed.

Example spec_command_of_the_shell (isProd' : bool) :
  spec_command (shell_options isProd')
  = if isProd' then "npx convex function-spec --prod"
    else "npx convex function-spec".
Proof. by destruct isProd'. Qed.

(** ** The inspection text *)

Section Inspect.

End Inspect.



Example inspect_admin :
  inspect_custom (fresh_instance Samples.admin_tree) ["admin"] = "{ users }".
Proof. reflexivity. Qed.

(** Keys that are array indices come first, by their number. *)
Example inspect_index_keys :
  inspect_custom
    (fresh_instance
       (VObject [("b", VObject []); ("10", VObject []); ("1", VObject [])])) []
  = "{ 1, 10, b }".
Proof. reflexivity. Qed.
